(** * pegen: the C parser generator (c_generator.py, parser_generator.py)

    A shallow embedding of the grammar analysis (left-recursion flags and
    leader choice), of the call-site planner [CCallMakerVisitor] and of the
    emitter [CParserGenerator], with the properties the specification
    states about them. *)

From Stdlib Require Import Ascii String List ZArith Lia Bool.
From stdpp Require Import base gmap strings list pretty sorting.

Local Open Scope Z_scope.
Local Open Scope nat_scope.

(** ** Python strings

    A text is taken as the sequence of its code points, one character
    each; the texts that can be written here are those whose code points
    are below 256.  The character classes are those of Python on that
    range: the classes of the Unicode database for [\w], [str.isalnum],
    [str.strip] and [str.lower], and the explicit range [[a-zA-Z_]] of
    the regular expression. *)

Module Py.

(** The double quote, written by its code. *)
Definition dq : string := String (ascii_of_nat 34) "".
Definition nl : string := String (ascii_of_nat 10) "".

Definition is_upper (c : ascii) : bool :=
  (65 <=? nat_of_ascii c) && (nat_of_ascii c <=? 90).
Definition is_lower (c : ascii) : bool :=
  (97 <=? nat_of_ascii c) && (nat_of_ascii c <=? 122).
Definition is_digit (c : ascii) : bool :=
  (48 <=? nat_of_ascii c) && (nat_of_ascii c <=? 57).
Definition is_underscore (c : ascii) : bool := nat_of_ascii c =? 95.

(** The alphanumeric characters beyond ASCII: the ordinal indicators,
    the superscript digits, the micro sign, the fractions, and the
    letters with diacritics (all of 192-255 but the multiplication and
    the division sign). *)
Definition is_alnum_above_ascii (c : ascii) : bool :=
  let n := nat_of_ascii c in
  (n =? 170) || ((178 <=? n) && (n <=? 179)) || (n =? 181)
  || ((185 <=? n) && (n <=? 186)) || ((188 <=? n) && (n <=? 190))
  || ((192 <=? n) && (n <=? 214)) || ((216 <=? n) && (n <=? 246))
  || ((248 <=? n) && (n <=? 255)).

(** A character of [str.isalnum()]; [\w] of the regular expression, which
    adds the underscore; and [[a-zA-Z_]]. *)
Definition is_alnum (c : ascii) : bool :=
  is_upper c || is_lower c || is_digit c || is_alnum_above_ascii c.
Definition is_word (c : ascii) : bool := is_alnum c || is_underscore c.
Definition is_ident_start (c : ascii) : bool :=
  is_upper c || is_lower c || is_underscore c.

(** The characters that [str.lower()] changes: the capital letters, of
    ASCII and with diacritics; each is 32 below its small letter. *)
Definition has_lower (c : ascii) : bool :=
  let n := nat_of_ascii c in
  is_upper c || ((192 <=? n) && (n <=? 214)) || ((216 <=? n) && (n <=? 222)).

Definition lower_char (c : ascii) : ascii :=
  if has_lower c then ascii_of_nat (nat_of_ascii c + 32) else c.

(** [str.lower()] *)
Fixpoint lower (s : string) : string :=
  match s with
  | EmptyString => EmptyString
  | String c s' => String (lower_char c) (lower s')
  end.

Fixpoint forallb_string (p : ascii -> bool) (s : string) : bool :=
  match s with
  | EmptyString => true
  | String c s' => p c && forallb_string p s'
  end.

(** [str.startswith(pre)] *)
Definition startswith (pre s : string) : bool := String.prefix pre s.

(** [str.endswith(suf)] *)
Definition endswith (suf s : string) : bool :=
  String.prefix (String.rev suf) (String.rev s).

(** [s[-1]], absent on the empty string (IndexError). *)
Fixpoint last_char (s : string) : option ascii :=
  match s with
  | EmptyString => None
  | String c EmptyString => Some c
  | String _ s' => last_char s'
  end.

(** [s[:-1]] *)
Fixpoint drop_last (s : string) : string :=
  match s with
  | EmptyString => EmptyString
  | String _ EmptyString => EmptyString
  | String c s' => String c (drop_last s')
  end.

(** [s[n:]] *)
Fixpoint drop (n : nat) (s : string) : string :=
  match n, s with
  | O, _ => s
  | S _, EmptyString => EmptyString
  | S n', String _ s' => drop n' s'
  end.

(** [s.split(c, 1)]: the text before the first [c] and the text after it;
    [None] when [c] does not occur (the split then has one element). *)
Fixpoint split1 (c : ascii) (s : string) : option (string * string) :=
  match s with
  | EmptyString => None
  | String a s' =>
      if Ascii.eqb a c then Some (EmptyString, s')
      else match split1 c s' with
           | Some (l, r) => Some (String a l, r)
           | None => None
           end
  end.

(** Whitespace in the sense of [str.strip()] and [str.isspace()]: the
    ASCII controls 9-13 and 28-31, the space, the next-line control (133)
    and the no-break space (160). *)
Definition is_space (c : ascii) : bool :=
  let n := nat_of_ascii c in
  ((9 <=? n) && (n <=? 13)) || ((28 <=? n) && (n <=? 32)) || (n =? 133) || (n =? 160).

Fixpoint lstrip (s : string) : string :=
  match s with
  | EmptyString => EmptyString
  | String c s' => if is_space c then lstrip s' else s
  end.

(** [str.strip()] *)
Definition strip (s : string) : string :=
  String.rev (lstrip (String.rev (lstrip s))).

(** [str.isalnum()]: not empty, and every character alphanumeric. *)
Definition isalnum (s : string) : bool :=
  match s with
  | EmptyString => false
  | _ => forallb_string is_alnum s
  end.

(** [sep.join(l)] *)
Definition join (sep : string) (l : list string) : string := String.concat sep l.

(** [re.match(r'[a-zA-Z_]\w*\Z', val)] *)
Definition is_identifier (val : string) : bool :=
  match val with
  | EmptyString => false
  | String c rest => is_ident_start c && forallb_string is_word rest
  end.

(** [s * n] *)
Fixpoint repeat_string (s : string) (n : nat) : string :=
  match n with
  | O => EmptyString
  | S n' => s +:+ repeat_string s n'
  end.

(** [str(n)] of an integer. *)
Definition str_nat (n : nat) : string := pretty n.
Definition str_Z (z : Z) : string := pretty z.

(** [repr(s)] of a string without quotes or escapes. *)
Definition repr_str (s : string) : string := "'" +:+ s +:+ "'".

(** Truth value of an optional string: [None] and [''] are false. *)
Definition truthy (o : option string) : bool :=
  match o with
  | Some (String _ _) => true
  | _ => false
  end.

(** The exceptions the generator can raise.  [OutOfFuel] is no Python
    exception: it marks that the bound this model puts on a [while] loop
    was reached. *)
Inductive exn : Type :=
| AssertionError (msg : string)
| ValueError (msg : string)
| IndexError
| KeyError (key : string)
| SyntaxError
| OutOfFuel.

End Py.

Import Py.

(** ** Ordered dictionaries

    A Python [dict] keeps insertion order; [d[k] = v] replaces in place or
    appends. *)

Module Dict.

Section Dict.
Context {V : Type}.

Fixpoint get (k : string) (d : list (string * V)) : option V :=
  match d with
  | [] => None
  | (k', v) :: d' => if String.eqb k k' then Some v else get k d'
  end.

Fixpoint set (k : string) (v : V) (d : list (string * V)) : list (string * V) :=
  match d with
  | [] => [(k, v)]
  | (k', v') :: d' =>
      if String.eqb k k' then (k', v) :: d' else (k', v') :: set k v d'
  end.

Fixpoint del (k : string) (d : list (string * V)) : list (string * V) :=
  match d with
  | [] => []
  | (k', v') :: d' => if String.eqb k k' then d' else (k', v') :: del k d'
  end.

Definition keys (d : list (string * V)) : list string := map fst d.

End Dict.
End Dict.

(** ** The grammar IR

    Modelled from the spec: the node classes of pegen.grammar (section 3,
    Data model), those the planner has a method for.  The planner defines
    no method for a separate cut node; the commit marker it knows is the
    token class [CUT], a [NameLeaf].  Nodes that the planner keys its
    cache on carry [uid], the identity of the Python object: [inl n] for
    an object the front end built, [inr n] for the right-hand side that
    the [n]-th helper allocation builds. *)

Abbreviation oid := (nat + nat)%type.

Inductive Item : Type :=
| NameLeaf (value : string)
| StringLeaf (value : string)
| Opt (node : Item)
| Repeat0 (uid : oid) (node : Item)
| Repeat1 (uid : oid) (node : Item)
| Group (rhs : Rhs)
| PositiveLookahead (node : Item)
| NegativeLookahead (node : Item)
with Rhs : Type :=
| mkRhs (uid : oid) (alts : list Alt)
with Alt : Type :=
| mkAlt (items : list NamedItem) (action : option string)
with NamedItem : Type :=
| mkNamedItem (name : option string) (item : Item).

Definition rhs_alts (r : Rhs) : list Alt := match r with mkRhs _ a => a end.
Definition alt_items (a : Alt) : list NamedItem := match a with mkAlt i _ => i end.
Definition alt_action (a : Alt) : option string := match a with mkAlt _ x => x end.
Definition ni_name (n : NamedItem) : option string :=
  match n with mkNamedItem x _ => x end.
Definition ni_item (n : NamedItem) : Item := match n with mkNamedItem _ i => i end.

Record Rule : Type := mkRule {
  rule_name : string;
  rule_type : option string;
  rule_rhs : Rhs;
  nullable : bool;
  left_recursive : bool;
  leader : bool
}.

(** [Rule(name, type, rhs)]: the analyses' flags start false. *)
Definition new_Rule (name : string) (type : option string) (rhs : Rhs) : Rule :=
  mkRule name type rhs false false false.

Definition set_left_recursive (r : Rule) : Rule :=
  mkRule (rule_name r) (rule_type r) (rule_rhs r) (nullable r) true (leader r).
Definition set_leader (r : Rule) : Rule :=
  mkRule (rule_name r) (rule_type r) (rule_rhs r) (nullable r) (left_recursive r) true.

(** Modelled from the spec: [Rule.is_loop] of pegen.grammar, true iff the
    rule's name begins with the reserved loop prefix. *)
Definition is_loop (r : Rule) : bool := startswith "_loop" (rule_name r).

(** ** What the generator imports from modules that are not modelled here

    [pegen.grammar] gives the printed form of rules and alternatives and
    [Rule.flatten]; [ast.literal_eval] unquotes a string leaf ([None]: it
    raises); [pegen.tokenizer.exact_token_types] is the punctuation table. *)

Record Env : Type := mkEnv {
  str_Rule : Rule -> string;
  str_Alt : Alt -> string;
  flatten : Rule -> Rhs;
  literal_eval : string -> option string;
  exact_token_types : gmap string Z
}.

(** ** The generator object

    [todo], [counter], [level] and [file] are the fields of
    [ParserGenerator]; [cache] is the planner's; [varname_counter] is
    [CParserGenerator._varname_counter].  [file] holds the text of one
    [print] call per entry. *)

Definition plan : Type := option string * string.

Record Gen : Type := mkGen {
  todo : list (string * Rule);
  counter : nat;
  cache : gmap oid plan;
  varname_counter : nat;
  level : nat;
  file : list string
}.

Definition with_todo (f : list (string * Rule) -> list (string * Rule)) (g : Gen) : Gen :=
  mkGen (f (todo g)) (counter g) (cache g) (varname_counter g) (level g) (file g).
Definition with_counter (n : nat) (g : Gen) : Gen :=
  mkGen (todo g) n (cache g) (varname_counter g) (level g) (file g).
Definition with_cache (c : gmap oid plan) (g : Gen) : Gen :=
  mkGen (todo g) (counter g) c (varname_counter g) (level g) (file g).
Definition with_varname_counter (n : nat) (g : Gen) : Gen :=
  mkGen (todo g) (counter g) (cache g) n (level g) (file g).
Definition with_level (n : nat) (g : Gen) : Gen :=
  mkGen (todo g) (counter g) (cache g) (varname_counter g) n (file g).
Definition with_file (f : list string) (g : Gen) : Gen :=
  mkGen (todo g) (counter g) (cache g) (varname_counter g) (level g) f.

(** ** Computations on the generator: state that survives an exception *)

Definition M (A : Type) : Type := Gen -> (exn + A) * Gen.

Definition ret {A} (a : A) : M A := fun g => (inr a, g).
Definition raise {A} (e : exn) : M A := fun g => (inl e, g).
Definition bind {A B} (m : M A) (k : A -> M B) : M B :=
  fun g => match m g with
           | (inl e, g') => (inl e, g')
           | (inr a, g') => k a g'
           end.

Notation "x <- c1 ;; c2" := (bind c1 (fun x => c2))
  (at level 100, c1 at level 99, c2 at level 200, only parsing).
Notation "c1 ;; c2" := (bind c1 (fun _ => c2))
  (at level 100, c2 at level 200, only parsing, right associativity).

Definition gets {A} (f : Gen -> A) : M A := fun g => (inr (f g), g).
Definition modify (f : Gen -> Gen) : M unit := fun g => (inr tt, f g).

(** [for x in l: body(x)], threading an accumulator. *)
Fixpoint foldM {A B} (f : B -> A -> M B) (l : list A) (b : B) : M B :=
  match l with
  | [] => ret b
  | x :: l' => b' <- f b x ;; foldM f l' b'
  end.

Definition forM_ {A} (f : A -> M unit) (l : list A) : M unit :=
  foldM (fun _ x => f x) l tt.

(** ** ParserGenerator: printing, indentation, fresh helper rules *)

(** [print(text)] and [print()]. *)
Definition print (text : string) : M unit :=
  modify (fun g => with_file (file g ++ [repeat_string "    " (level g) +:+ text]) g).
Definition print_empty : M unit :=
  modify (fun g => with_file (file g ++ [""]) g).

(** [with self.indent(): body]; the level is restored on an exception too. *)
Definition indent {A} (body : M A) : M A :=
  fun g => match body (with_level (S (level g)) g) with
           | (r, g') => (r, with_level (pred (level g')) g')
           end.

(** [name_node(rhs)] *)
Definition name_node (rhs : Rhs) : M string :=
  fun g =>
    let n := S (counter g) in
    let name := "_tmp_" +:+ str_nat n in
    (inr name, with_todo (Dict.set name (new_Rule name None rhs)) (with_counter n g)).

(** [name_loop(node, is_repeat1)]; the helper's right-hand side is a new
    object. *)
Definition name_loop (node : Item) (is_repeat1 : bool) : M string :=
  fun g =>
    let n := S (counter g) in
    let prefix := if is_repeat1 then "_loop1_" else "_loop0_" in
    let name := prefix +:+ str_nat n in
    (inr name,
     with_todo (Dict.set name
                  (new_Rule name None (mkRhs (inr n) [mkAlt [mkNamedItem None node] None])))
               (with_counter n g)).

(** ** CCallMakerVisitor: the call-site planner *)

Module CCallMakerVisitor.

Section Planner.
Variable E : Env.

(** The token classes of [visit_NameLeaf] (both lists of the source). *)
Definition token_classes : list string :=
  ["NAME"; "NUMBER"; "STRING"; "CUT"; "CURLY_STUFF";
   "NEWLINE"; "DEDENT"; "INDENT"; "ENDMARKER"; "ASYNC"; "AWAIT"].

Definition is_token_class (name : string) : bool :=
  existsb (String.eqb name) token_classes.

Definition visit_NameLeaf (value : string) : plan :=
  if is_token_class value
  then (Some (lower value +:+ "_var"), lower value +:+ "_token(p)")
  else (Some (value +:+ "_var"), value +:+ "_rule(p)").

Definition visit_StringLeaf (value : string) : M plan :=
  match literal_eval E value with
  | None => raise SyntaxError
  | Some val =>
      if is_identifier val
      then ret (Some "keyword", "keyword_token(p, " +:+ dq +:+ val +:+ dq +:+ ")")
      else match exact_token_types E !! val with
           | None => raise (AssertionError (value +:+ " is not a known literal"))
           | Some type => ret (Some "literal", "expect_token(p, " +:+ str_Z type +:+ ")")
           end
  end.

(** [lookahead_call_helper], after the inner item was planned to [call]. *)
Definition lookahead_call (call : string) (positive : nat) : M plan :=
  match split1 "(" call with
  | None => raise (ValueError "not enough values to unpack (expected 2, got 1)")
  | Some (func, args) =>
      match last_char args with
      | None => raise IndexError
      | Some c =>
          if negb (Ascii.eqb c ")") then raise (AssertionError "")
          else
            let args := drop_last args in
            let tail := str_nat positive +:+ ", " +:+ func +:+ ", " +:+ args +:+ ")" in
            if negb (startswith "p," args)
            then ret (None, "lookahead(" +:+ tail)
            else if isalnum (strip (drop 2 args))
            then ret (None, "lookahead_with_int(" +:+ tail)
            else ret (None, "lookahead_with_string(" +:+ tail)
      end
  end.

(** [visit_NamedItem]: a bind name replaces the planned variable name. *)
Definition bind_name (name : option string) (p : plan) : plan :=
  if truthy name then (name, snd p) else p.

Definition cache_get (uid : oid) : M (option plan) := gets (fun g => cache g !! uid).
Definition cache_set (uid : oid) (p : plan) : M unit :=
  modify (fun g => with_cache (<[uid := p]> (cache g)) g).

Definition helper_plan (name : string) : plan :=
  (Some (name +:+ "_var"), name +:+ "_rule(p)").

(** [visit_Repeat0] and [visit_Repeat1] differ by the flag alone. *)
Definition visit_Repeat (uid : oid) (node : Item) (is_repeat1 : bool) : M plan :=
  c <- cache_get uid ;;
  match c with
  | Some p => ret p
  | None =>
      name <- name_loop node is_repeat1 ;;
      cache_set uid (helper_plan name) ;;
      ret (helper_plan name)
  end.

Definition visit_Repeat0 (uid : oid) (node : Item) : M plan := visit_Repeat uid node false.
Definition visit_Repeat1 (uid : oid) (node : Item) : M plan := visit_Repeat uid node true.

(** The methods that plan an inner node first take the planning of that
    node, [self.visit(node.node)], as [inner]. *)
Definition lookahead_call_helper (inner : M plan) (positive : nat) : M plan :=
  p <- inner ;; lookahead_call (snd p) positive.

Definition visit_PositiveLookahead (inner : M plan) : M plan := lookahead_call_helper inner 1.
Definition visit_NegativeLookahead (inner : M plan) : M plan := lookahead_call_helper inner 0.

Definition visit_Opt (inner : M plan) : M plan :=
  p <- inner ;;
  ret (Some "opt_var", snd p +:+ ", 1").

Definition visit_Group (rhs : M plan) : M plan := rhs.

(** [visit], by the class of the node, and [visit_Rhs]. *)
Fixpoint visit (node : Item) {struct node} : M plan :=
  match node with
  | NameLeaf value => ret (visit_NameLeaf value)
  | StringLeaf value => visit_StringLeaf value
  | Opt inner => visit_Opt (visit inner)
  | Repeat0 uid inner => visit_Repeat0 uid inner
  | Repeat1 uid inner => visit_Repeat1 uid inner
  | Group rhs => visit_Group (visit_Rhs rhs)
  | PositiveLookahead inner => visit_PositiveLookahead (visit inner)
  | NegativeLookahead inner => visit_NegativeLookahead (visit inner)
  end
with visit_Rhs (node : Rhs) {struct node} : M plan :=
  match node with
  | mkRhs uid alts =>
      c <- cache_get uid ;;
      match c with
      | Some p => ret p
      | None =>
          match alts with
          | [mkAlt [mkNamedItem name item] _] =>
              p <- visit item ;;
              cache_set uid (bind_name name p) ;;
              ret (bind_name name p)
          | _ =>
              name <- name_node node ;;
              cache_set uid (helper_plan name) ;;
              ret (helper_plan name)
          end
      end
  end.

Definition visit_NamedItem (node : NamedItem) : M plan :=
  p <- visit (ni_item node) ;;
  ret (bind_name (ni_name node) p).

End Planner.

End CCallMakerVisitor.

Import CCallMakerVisitor.

(** Modelled from the spec: [dedupe] of pegen.parser_generator, which the
    emitter imports.  A name that collides with one already used in the
    alternative gets a numeric suffix; the name chosen is appended to
    [names].  The search tries the suffixes 1, 2, ... in order; [fuel]
    bounds it by the number of names in use. *)
Definition suffixed (origname : string) (k : nat) : string :=
  origname +:+ "_" +:+ str_nat k.

Fixpoint dedupe_from (fuel : nat) (origname : string) (k : nat) (names : list string)
  : string :=
  if bool_decide (suffixed origname k ∈ names)
  then match fuel with
       | O => suffixed origname k
       | S fuel' => dedupe_from fuel' origname (S k) names
       end
  else suffixed origname k.

Definition dedupe (name : string) (names : list string) : string * list string :=
  let name' :=
    if bool_decide (name ∈ names)
    then dedupe_from (length names) name 1 names
    else name in
  (name', names ++ [name']).

(** ** CParserGenerator: the emitter *)

Module CParserGenerator.

Section Emitter.
Variable E : Env.
(** [self.rules]: the grammar's rules, which emission only reads. *)
Variable rules : list (string * Rule).

Definition unique_varname (name : string) : M string :=
  fun g =>
    (inr (name +:+ "_" +:+ str_nat (varname_counter g)),
     with_varname_counter (S (varname_counter g)) g).

Definition call_with_errorcheck_return (call_text returnval : string) : M unit :=
  error_var <- unique_varname "tmpvar" ;;
  print ("int " +:+ error_var +:+ " = " +:+ call_text +:+ ";") ;;
  print ("if (" +:+ error_var +:+ ") {") ;;
  indent (print ("return " +:+ returnval +:+ ";")) ;;
  print "}".

Definition out_of_memory_return (expr returnval message : string) : M unit :=
  print ("if (" +:+ expr +:+ ") {") ;;
  indent (
    print ("PyErr_Format(PyExc_MemoryError, " +:+ dq +:+ message +:+ dq +:+ ");") ;;
    print ("return " +:+ returnval +:+ ";")) ;;
  print "}".

Definition call_with_errorcheck_goto (call_text goto_target : string) : M unit :=
  error_var <- unique_varname "tmpvar" ;;
  print ("int " +:+ error_var +:+ " = " +:+ call_text +:+ ";") ;;
  print ("if (" +:+ error_var +:+ ") {") ;;
  indent (print ("goto " +:+ goto_target +:+ ";")) ;;
  print "}".

Definition out_of_memory_goto (expr goto_target message : string) : M unit :=
  print ("if (" +:+ expr +:+ ") {") ;;
  indent (
    print ("PyErr_Format(PyExc_MemoryError, " +:+ dq +:+ message +:+ dq +:+ ");") ;;
    print ("goto " +:+ goto_target +:+ ";")) ;;
  print "}".

(** The emitter's [CCallMakerVisitor.visit_NamedItem(node, names)]; [names] is returned as
    the call leaves it. *)
Definition visit_NamedItem (node : NamedItem) (names : list string) : M (list string) :=
  p <- CCallMakerVisitor.visit_NamedItem E node ;;
  match p with
  | (Some (String c r as name), call) =>
      if String.eqb name "cut"
      then print ("(" +:+ name +:+ " = " +:+ call +:+ ")") ;; ret names
      else
        let (name', names') := dedupe name names in
        print ("(" +:+ name' +:+ " = " +:+ call +:+ ")") ;; ret names'
  | (_, call) => print call ;; ret names
  end.

(** [add_var(node, names)] *)
Definition add_var (node : NamedItem) (names : list string)
  : M ((option string * option string) * list string) :=
  p <- visit E (ni_item node) ;;
  match fst p with
  | Some (String c r as name) =>
      if startswith "cut" name then ret ((Some name, Some "int"), names)
      else
        let type :=
          if endswith "_var" name
          then match Dict.get (String.substring 0 (String.length name - 4) name) rules with
               | Some rule => if is_loop rule then Some "asdl_seq *" else rule_type rule
               | None => if startswith "_loop" name then Some "asdl_seq *" else None
               end
          else None in
        let name1 := if truthy (ni_name node) then default name (ni_name node) else name in
        let (name', names') := dedupe name1 names in
        ret ((Some name', type), names')
  | other => ret ((other, None), names)
  end.

(** A dictionary whose keys may be [None], as [collect_vars] builds it. *)
Fixpoint types_set (k : option string) (v : option string)
  (d : list (option string * option string)) : list (option string * option string) :=
  match d with
  | [] => [(k, v)]
  | (k', v') :: d' =>
      if bool_decide (k = k') then (k', v) :: d' else (k', v') :: types_set k v d'
  end.

Definition collect_vars (node : Alt) : M (list (option string * option string)) :=
  r <- foldM (fun '(types, names) item =>
                 r <- add_var item names ;;
                 ret (types_set (fst (fst r)) (snd (fst r)) types, snd r))
             (alt_items node) ([], []) ;;
  ret (fst r).

(** [sorted(item for item in vars.items() if item[0] is not None)]; the
    keys are distinct, so the order is that of the names. *)
Definition named_vars (vars : list (option string * option string))
  : list (string * option string) :=
  merge_sort (fun a b => String.le (fst a) (fst b))
    (omap (fun kv => match fst kv with Some k => Some (k, snd kv) | None => None end) vars).

(** [visit_Alt]: the loop over the items, which leaves [names]. *)
Definition emit_items (items : list NamedItem) : M (list string) :=
  r <- foldM (fun '(first, names) item =>
                (if first : bool then ret tt else print "&&") ;;
                names' <- visit_NamedItem item names ;;
                ret (false, names'))
             items (true, []) ;;
  ret (snd r).

(** [visit_Alt]: the assignment to [res], from the action or by default. *)
Definition emit_result (action : option string) (names : list string) : M unit :=
  if truthy action
  then
    let action := default "" action in
    if String.prefix "{" action && endswith "}" action
    then print ("res = " +:+ strip (drop_last (drop 1 action)) +:+ ";")
    else raise (AssertionError (repr_str action))
  else
    if 1 <? length names
    then print ("res = CONSTRUCTOR(p, " +:+ join ", " names +:+ ");")
    else match names with
         | [] => raise IndexError
         | n0 :: _ => print ("res = " +:+ n0 +:+ ";")
         end.

(** [visit_Alt]: what follows the assignment inside the braces. *)
Definition emit_success (is_loop : bool) (rulename : option string) : M unit :=
  if is_loop
  then
    print "children = PyMem_Realloc(children, (n+1)*sizeof(void *));" ;;
    out_of_memory_return "!children" "NULL" ("realloc " +:+ default "None" rulename) ;;
    print "children[n++] = res;" ;;
    print "mark = p->mark;"
  else
    (if truthy rulename
     then print ("insert_memo(p, mark, " +:+ default "" rulename +:+ "_type, res);")
     else ret tt) ;;
    print "goto done;".

(** [visit_Alt]: the failure path, after the closing brace. *)
Definition emit_failure (names : list string) : M unit :=
  print "p->mark = mark;" ;;
  (if bool_decide ("cut_var" ∈ names)
   then print "if (cut_var) return NULL;"
   else ret tt).

(** [visit_Alt]: the comment, and the condition made of the items. *)
Definition emit_condition (node : Alt) (is_loop : bool) : M (list string) :=
  print ("// " +:+ str_Alt E node) ;;
  print (if is_loop then "while (" else "if (") ;;
  indent (emit_items (alt_items node)).

Definition visit_Alt (node : Alt) (is_loop : bool) (rulename : option string) : M unit :=
  names <- emit_condition node is_loop ;;
  print ") {" ;;
  indent (emit_result (alt_action node) names ;; emit_success is_loop rulename) ;;
  print "}" ;;
  emit_failure names.

(** [visit_Rhs(node, is_loop, rulename)] *)
Definition visit_Rhs (node : Rhs) (is_loop : bool) (rulename : option string) : M unit :=
  (if is_loop && negb (length (rhs_alts node) =? 1)
   then raise (AssertionError "") else ret tt) ;;
  vars <- foldM (fun vars alt =>
                   types <- collect_vars alt ;;
                   ret (fold_left (fun d kv => types_set (fst kv) (snd kv) d) types vars))
                (rhs_alts node) [] ;;
  forM_ (fun '(v, type) =>
           print ((if truthy type then default "" type +:+ " " else "void *") +:+ v +:+ ";"))
        (named_vars vars) ;;
  forM_ (fun alt => visit_Alt alt is_loop rulename) (rhs_alts node).

(** The C type of a rule's result, as [visit_Rule] chooses it. *)
Definition c_type (node : Rule) : string :=
  if is_loop node then "asdl_seq *"
  else if truthy (rule_type node) then default "" (rule_type node)
  else "void *".

(** [visit_Rule], the part under [if node.left_recursive:] that follows
    the function header: the seed-growing function, then the header of
    the raw function. *)
Definition emit_seed_growing (node : Rule) : M unit :=
  let name := rule_name node in
  let type := c_type node in
  print "{" ;;
  indent (
    print (type +:+ " res = NULL;") ;;
    print ("if (is_memoized(p, " +:+ name +:+ "_type, &res))") ;;
    indent (print "return res;") ;;
    print "int mark = p->mark;" ;;
    print "int resmark = p->mark;" ;;
    print "while (1) {" ;;
    indent (
      call_with_errorcheck_return
        ("update_memo(p, mark, " +:+ name +:+ "_type, res)") "res" ;;
      print "p->mark = mark;" ;;
      print ("void *raw = " +:+ name +:+ "_raw(p);") ;;
      print "if (raw == NULL || p->mark <= resmark)" ;;
      indent (print "break;") ;;
      print "resmark = p->mark;" ;;
      print "res = raw;") ;;
    print "}" ;;
    print "p->mark = resmark;" ;;
    print "return res;") ;;
  print "}" ;;
  print ("static " +:+ type) ;;
  print (name +:+ "_raw(Parser *p)").

(** [visit_Rule], from the opening brace of the body to the end. *)
Definition emit_body (node : Rule) : M unit :=
  let name := rule_name node in
  let is_loop := is_loop node in
  let is_repeat1 := startswith "_loop1" name in
  let memoize := negb (leader node) in
  let rhs := flatten E node in
  let type := c_type node in
  print "{" ;;
  indent (
    (if is_loop then print "void *res = NULL;" else print (type +:+ " res = NULL;")) ;;
    (if memoize
     then print ("if (is_memoized(p, " +:+ name +:+ "_type, &res))") ;;
          indent (print "return res;")
     else ret tt) ;;
    print "int mark = p->mark;" ;;
    (if is_loop
     then print "void **children = PyMem_Malloc(0);" ;;
          out_of_memory_return "!children" "NULL" "Parser out of memory" ;;
          print "ssize_t n = 0;"
     else ret tt) ;;
    visit_Rhs rhs is_loop (if memoize then Some name else None) ;;
    (if is_loop
     then
       (if is_repeat1
        then print "if (n == 0) {" ;;
             indent (print "PyMem_Free(children);" ;; print "return NULL;") ;;
             print "}"
        else ret tt) ;;
       print "asdl_seq *seq = _Py_asdl_seq_new(n, p->arena);" ;;
       out_of_memory_return "!seq" "NULL" ("asdl_seq_new " +:+ name) ;;
       print "for (int i = 0; i < n; i++) asdl_seq_SET(seq, i, children[i]);" ;;
       print "PyMem_Free(children);" ;;
       (if truthy (Some name)
        then print ("insert_memo(p, mark, " +:+ name +:+ "_type, seq);")
        else ret tt) ;;
       print "return seq;"
     else print "res = NULL;")) ;;
  (if negb is_loop
   then print "  done:" ;;
        indent (
          (if memoize
           then print ("insert_memo(p, mark, " +:+ name +:+ "_type, res);")
           else ret tt) ;;
          print "return res;")
   else ret tt) ;;
  print "}".

Definition visit_Rule (node : Rule) : M unit :=
  let name := rule_name node in
  let type := c_type node in
  print ("// " +:+ str_Rule E node) ;;
  (if left_recursive node
   then print ("static " +:+ type +:+ " " +:+ name +:+ "_raw(Parser *);")
   else ret tt) ;;
  print ("static " +:+ type) ;;
  print (name +:+ "_rule(Parser *p)") ;;
  (if left_recursive node then emit_seed_growing node else ret tt) ;;
  emit_body node.

(** Modelled from the spec: [Rule.collect_todo] of pegen.grammar, the
    rule expander's walk: every item of every alternative of the rule's
    (flattened) right-hand side is planned, which allocates its helpers. *)
Definition Rule_collect_todo (rule : Rule) : M unit :=
  forM_ (fun alt => forM_ (fun item => visit E (ni_item item) ;; ret tt) (alt_items alt))
        (rhs_alts (flatten E rule)).

(** [collect_todo], inherited from [ParserGenerator]; the rules of a
    round are taken in the order of [self.todo]. *)
Fixpoint collect_todo (fuel : nat) (done : list string) : M unit :=
  alltodo <- gets (fun g => Dict.keys (todo g)) ;;
  match filter (fun k => k ∉ done) alltodo with
  | [] => ret tt
  | round =>
      match fuel with
      | O => raise OutOfFuel
      | S fuel' =>
          forM_ (fun rulename =>
                   r <- gets (fun g => Dict.get rulename (todo g)) ;;
                   match r with
                   | Some rule => Rule_collect_todo rule
                   | None => raise (KeyError rulename)
                   end) round ;;
          collect_todo fuel' alltodo
      end
  end.

Definition EXTENSION_PREFIX (filename : string) : string :=
  "// @generated by pegen.py from " +:+ filename +:+ nl +:+
  nl +:+
  "#include " +:+ dq +:+ "pegen.h" +:+ dq +:+ nl.

(** [EXTENSION_SUFFIX.rstrip('\n') % dict(mode=mode)] *)
Definition EXTENSION_SUFFIX (mode : string) : string :=
  String.concat nl [
    "";
    "// TODO: Allow specifying a module name";
    "";
    "static PyObject *";
    "parse_file(PyObject *self, PyObject *args)";
    "{";
    "    const char *filename;";
    "";
    "    if (!PyArg_ParseTuple(args, " +:+ dq +:+ "s" +:+ dq +:+ ", &filename))";
    "        return NULL;";
    "    return run_parser_from_file(filename, (void *)start_rule, " +:+ mode +:+ ");";
    "}";
    "";
    "static PyObject *";
    "parse_string(PyObject *self, PyObject *args)";
    "{";
    "    const char *the_string;";
    "";
    "    if (!PyArg_ParseTuple(args, " +:+ dq +:+ "s" +:+ dq +:+ ", &the_string))";
    "        return NULL;";
    "    return run_parser_from_string(the_string, (void *)start_rule, " +:+ mode +:+ ");";
    "}";
    "";
    "static PyMethodDef ParseMethods[] = {";
    "    {" +:+ dq +:+ "parse_file" +:+ dq +:+ ",  parse_file, METH_VARARGS, "
      +:+ dq +:+ "Parse a file." +:+ dq +:+ "},";
    "    {" +:+ dq +:+ "parse_string" +:+ dq +:+ ",  parse_string, METH_VARARGS, "
      +:+ dq +:+ "Parse a string." +:+ dq +:+ "},";
    "    {NULL, NULL, 0, NULL}        /* Sentinel */";
    "};";
    "";
    "static struct PyModuleDef parsemodule = {";
    "    PyModuleDef_HEAD_INIT,";
    "    .m_name = " +:+ dq +:+ "parse" +:+ dq +:+ ",";
    "    .m_doc = " +:+ dq +:+ "A parser." +:+ dq +:+ ",";
    "    .m_methods = ParseMethods,";
    "};";
    "";
    "PyMODINIT_FUNC";
    "PyInit_parse(void)";
    "{";
    "    PyObject *m = PyModule_Create(&parsemodule);";
    "    if (m == NULL)";
    "        return NULL;";
    "";
    "    return m;";
    "}";
    "";
    "// The end"
  ].

(** [enumerate(l, start)] *)
Fixpoint enumerate {A} (l : list A) (start : nat) : list (nat * A) :=
  match l with
  | [] => []
  | x :: l' => (start, x) :: enumerate l' (S start)
  end.

(** The [while self.todo:] loop of [generate]. *)
Fixpoint emit_todo (fuel : nat) : M unit :=
  t <- gets todo ;;
  match t with
  | [] => ret tt
  | _ =>
      match fuel with
      | O => raise OutOfFuel
      | S fuel' =>
          forM_ (fun '(rulename, rule) =>
                   modify (with_todo (Dict.del rulename)) ;;
                   print_empty ;;
                   visit_Rule rule) t ;;
          emit_todo fuel'
      end
  end.

(** [generate], up to the last rule body. *)
Definition generate_rules (fuel : nat) (filename : string) : M unit :=
  collect_todo fuel [] ;;
  print (EXTENSION_PREFIX filename) ;;
  t <- gets todo ;;
  forM_ (fun '(i, rulename) => print ("#define " +:+ rulename +:+ "_type " +:+ str_nat i))
        (enumerate (Dict.keys t) 1000) ;;
  print_empty ;;
  t <- gets todo ;;
  forM_ (fun '(rulename, rule) =>
           let type := if is_loop rule then "asdl_seq *"
                       else if truthy (rule_type rule) then default "" (rule_type rule) +:+ " "
                       else "void *" in
           print ("static " +:+ type +:+ rulename +:+ "_rule(Parser *p);")) t ;;
  print_empty ;;
  emit_todo fuel.

(** [generate]: its last two statements look up [self.rules['start']]
    and print the suffix. *)
Definition generate (fuel : nat) (filename : string) : M unit :=
  generate_rules fuel filename ;;
  match Dict.get "start" rules with
  | None => raise (KeyError "start")
  | Some start =>
      let mode := if bool_decide (rule_type start = Some "mod_ty") then "1" else "0" in
      print (EXTENSION_SUFFIX mode)
  end.

End Emitter.

End CParserGenerator.

Import CParserGenerator.

(** ** The analyses of parser_generator.py *)

(** What the analyses call in modules that are not modelled here:
    [Rule.visit] (nullability) and [Rule.initial_names] of pegen.grammar,
    [strongly_connected_components] and [find_cycles_in_scc] of
    pegen.sccutils, and the printed form of a set of names. *)
Record Analyses : Type := mkAnalyses {
  Rule_visit : string -> list (string * Rule) -> list (string * Rule);
  initial_names : Rule -> gset string;
  strongly_connected_components :
    gset string -> gmap string (gset string) -> list (gset string);
  find_cycles_in_scc :
    gmap string (gset string) -> gset string -> string -> list (list string);
  repr_set : gset string -> string
}.

(** Computations that may raise, on the rules alone. *)
Definition R (A : Type) : Type := exn + A.

Definition rbind {A B} (m : R A) (k : A -> R B) : R B :=
  match m with
  | inl e => inl e
  | inr a => k a
  end.

Fixpoint rfold {A B} (f : B -> A -> R B) (l : list A) (b : B) : R B :=
  match l with
  | [] => inr b
  | x :: l' => rbind (f b x) (rfold f l')
  end.

(** [min] of strings, and of a set of them ([None]: ValueError). *)
Definition str_min (a b : string) : string := if String.leb a b then a else b.

Definition list_min (l : list string) : option string :=
  match l with
  | [] => None
  | x :: l' => Some (fold_left str_min l' x)
  end.

Definition set_min (s : gset string) : option string := list_min (elements s).

(** [rules[name].flag = True] *)
Definition update_rule (f : Rule -> Rule) (name : string) (rules : list (string * Rule))
  : R (list (string * Rule)) :=
  match Dict.get name rules with
  | None => inl (KeyError name)
  | Some r => inr (Dict.set name (f r) rules)
  end.

Section Analysis.
Variable A : Analyses.

Definition compute_nullables (rules : list (string * Rule)) : list (string * Rule) :=
  fold_left (fun rs name => Rule_visit A name rs) (Dict.keys rules) rules.

Definition make_first_graph (rules : list (string * Rule)) : gmap string (gset string) :=
  let graph : gmap string (gset string) :=
    fold_left (fun g kv => <[fst kv := initial_names A (snd kv)]> g) rules ∅ in
  let vertices : gset string :=
    fold_left (fun vs kv => vs ∪ initial_names A (snd kv)) rules ∅ in
  fold_left (fun g vertex => match g !! vertex with Some _ => g | None => <[vertex := ∅]> g end)
            (elements vertices) graph.

Definition no_leader_message (scc : gset string) : string :=
  "SCC " +:+ repr_set A scc +:+
  " has no leadership candidate (no element is included in all cycles)".

(** The body of the inner loop: [leaders -= (scc - set(cycle))], and the
    error when no candidate is left. *)
Definition prune_step (scc : gset string) (leaders : gset string) (cycle : list string)
  : R (gset string) :=
  let leaders' : gset string := leaders ∖ (scc ∖ list_to_set cycle) in
  if bool_decide (leaders' = ∅)
  then inl (ValueError (no_leader_message scc))
  else inr leaders'.

(** The two nested loops over the starts and their cycles. *)
Definition prune_leaders (graph : gmap string (gset string)) (scc : gset string)
  : R (gset string) :=
  rfold (fun leaders start =>
           rfold (prune_step scc) (find_cycles_in_scc A graph scc start) leaders)
        (elements scc) scc.

(** The body of [for scc in sccs:]. *)
Definition flag_scc (graph : gmap string (gset string)) (rules : list (string * Rule))
  (scc : gset string) : R (list (string * Rule)) :=
  if 1 <? size scc
  then
    rbind (rfold (fun rs name => update_rule set_left_recursive name rs) (elements scc) rules)
      (fun rules1 =>
    rbind (prune_leaders graph scc) (fun leaders =>
    match set_min leaders with
    | None => inl (ValueError "min() arg is an empty sequence")
    | Some leader => update_rule set_leader leader rules1
    end))
  else
    match set_min scc with
    | None => inl (ValueError "min() arg is an empty sequence")
    | Some name =>
        match graph !! name with
        | None => inl (KeyError name)
        | Some succs =>
            if bool_decide (name ∈ succs)
            then rbind (update_rule set_left_recursive name rules)
                       (update_rule set_leader name)
            else inr rules
        end
    end.

Definition first_sccs (rules : list (string * Rule)) : list (gset string) :=
  let graph := make_first_graph rules in
  strongly_connected_components A (dom graph) graph.

(** [compute_left_recursives]; the rules it flagged stand for the Rule
    objects it changed in place. *)
Definition compute_left_recursives (rules : list (string * Rule))
  : R (list (string * Rule)) :=
  rfold (flag_scc (make_first_graph rules)) (first_sccs rules) rules.

(** [CParserGenerator.__init__], writing to an empty stream: the rules as
    the analyses leave them, and the generator. *)
Definition CParserGenerator_init (rules : list (string * Rule))
  : R (list (string * Rule) * Gen) :=
  rbind (compute_left_recursives (compute_nullables rules)) (fun rules' =>
  inr (rules', mkGen rules' 0 ∅ 0 0 [])).

(** One generation pass: build the generator, then [generate(filename)].
    The result and the text written. *)
Definition generation_pass (E : Env) (fuel : nat) (rules : list (string * Rule))
  (filename : string) : R unit * list string :=
  match CParserGenerator_init rules with
  | inl e => (inl e, [])
  | inr (rules', g) =>
      let r := generate E rules' fuel filename g in
      (fst r, file (snd r))
  end.

End Analysis.

(** ** Predicates used in the statements *)

(** [c] does not occur in [s]. *)
Definition free_of (c : ascii) (s : string) : bool :=
  forallb_string (fun a => negb (Ascii.eqb a c)) s.

(** What the regular expression of [visit_StringLeaf] accepts: a letter or
    an underscore, then letters, digits and underscores to the end. *)
Inductive identifier_like : string -> Prop :=
| identifier_like_intro (c : ascii) (rest : string) :
    is_ident_start c = true ->
    (forall i a, String.get i rest = Some a -> is_word a = true) ->
    identifier_like (String c rest).

(** A computation that raises from every state. *)
Definition fails {A} (m : M A) : Prop := forall g, exists e g', m g = (inl e, g').

(** ** A small concrete setting for the examples *)

Module Sample.

(** Unquoting of a literal without escapes: the text between the quotes. *)
Definition unquote (s : string) : option string :=
  match s with
  | String q rest =>
      if (Ascii.eqb q "'" || Ascii.eqb q (ascii_of_nat 34))
         && bool_decide (last_char rest = Some q)
      then Some (drop_last rest) else None
  | EmptyString => None
  end.

Definition tokens : gmap string Z :=
  list_to_map [("(", 7%Z); (")", 8%Z); (":", 11%Z); (",", 12%Z); ("+", 14%Z); ("-", 15%Z)].

Definition E : Env :=
  mkEnv (fun r => rule_name r) (fun _ => "alt") rule_rhs unquote tokens.

Definition item (i : Item) : NamedItem := mkNamedItem None i.

(** A generator that has planned nothing and written nothing. *)
Definition g0 (rules : list (string * Rule)) : Gen := mkGen rules 0 ∅ 0 0 [].

(** Stand-ins for the analyses' collaborators.  The rules named by the
    first item of an alternative (no rule of the examples is nullable). *)
Definition first_rule_names (r : Rule) : gset string :=
  list_to_set
    (omap (fun alt =>
             match alt_items alt with
             | mkNamedItem _ (NameLeaf v) :: _ =>
                 if is_token_class v then None else Some v
             | _ => None
             end)
          (rhs_alts (rule_rhs r))).

(** The paths inside the component that leave [node] and stop at the
    first vertex met a second time. *)
Fixpoint dfs_cycles (fuel : nat) (graph : gmap string (gset string)) (scc : gset string)
  (node : string) (path : list string) : list (list string) :=
  match fuel with
  | O => []
  | S fuel' =>
      if bool_decide (node ∈ path) then [path ++ [node]]
      else
        flat_map (fun child => dfs_cycles fuel' graph scc child (path ++ [node]))
                 (elements (default ∅ (graph !! node) ∩ scc))
  end.

Definition show_set (s : gset string) : string :=
  "{" +:+ join ", " (repr_str <$> merge_sort String.le (elements s)) +:+ "}".

(** Every vertex a component of its own: right for a graph without a
    cycle through two vertices. *)
Definition A_singletons : Analyses :=
  mkAnalyses (fun _ rs => rs) first_rule_names
    (fun vs _ => (fun v => {[v]}) <$> elements vs)
    (fun graph scc start => dfs_cycles (S (size scc)) graph scc start [])
    show_set.

(** All vertices one component: right for a strongly connected graph. *)
Definition A_one_component : Analyses :=
  mkAnalyses (fun _ rs => rs) first_rule_names
    (fun vs _ => [vs])
    (fun graph scc start => dfs_cycles (S (size scc)) graph scc start [])
    show_set.

(** Two rules that each match one name token. *)
Definition two_rules : list (string * Rule) :=
  [("start", new_Rule "start" None (mkRhs (inl 1) [mkAlt [item (NameLeaf "NAME")] None]));
   ("expr", new_Rule "expr" None (mkRhs (inl 2) [mkAlt [item (NameLeaf "NAME")] None]))].

End Sample.

(** The two lookahead nodes, by polarity, and the wrapper that
    [lookahead_call_helper] picks for the arguments of the inner call. *)
Definition lookahead_node (positive : bool) (inner : Item) : Item :=
  if positive then PositiveLookahead inner else NegativeLookahead inner.

Definition polarity (positive : bool) : nat := if positive then 1 else 0.

Definition lookahead_wrapper (args : string) : string :=
  if negb (startswith "p," args) then "lookahead"
  else if isalnum (strip (drop 2 args)) then "lookahead_with_int"
  else "lookahead_with_string".

(** The test of the planner's [CCallMakerVisitor.visit_Rhs]:
    [len(node.alts) == 1 and len(node.alts[0].items) == 1]. *)
Definition single_item (node : Rhs) : bool :=
  match rhs_alts node with
  | [alt] => length (alt_items alt) =? 1
  | _ => false
  end.

(** An item that is a lookahead without a bind name. *)
Definition bare_lookahead (node : NamedItem) : Prop :=
  truthy (ni_name node) = false
  /\ exists positive inner, ni_item node = lookahead_node positive inner.

(** Lines of text at their depth of indentation below [base]. *)
Definition indented (base : nat) (lines : list (nat * string)) : list string :=
  map (fun l => repeat_string "    " (fst l + base) +:+ snd l) lines.

(** The text of the seed-growing function of a rule named [name] with
    result type [type], and the header of its raw function; [k] numbers
    the error variable. *)
Definition seed_growing_lines (name type : string) (k : nat) : list (nat * string) :=
  [ (0, "{");
    (1, type +:+ " res = NULL;");
    (1, "if (is_memoized(p, " +:+ name +:+ "_type, &res))");
    (2, "return res;");
    (1, "int mark = p->mark;");
    (1, "int resmark = p->mark;");
    (1, "while (1) {");
    (2, "int tmpvar_" +:+ str_nat k +:+ " = update_memo(p, mark, " +:+ name +:+ "_type, res);");
    (2, "if (tmpvar_" +:+ str_nat k +:+ ") {");
    (3, "return res;");
    (2, "}");
    (2, "p->mark = mark;");
    (2, "void *raw = " +:+ name +:+ "_raw(p);");
    (2, "if (raw == NULL || p->mark <= resmark)");
    (3, "break;");
    (2, "resmark = p->mark;");
    (2, "res = raw;");
    (1, "}");
    (1, "p->mark = resmark;");
    (1, "return res;");
    (0, "}");
    (0, "static " +:+ type);
    (0, name +:+ "_raw(Parser *p)") ].

(** [quiet m]: [m] writes nothing and leaves the indentation as it was. *)
Definition quiet {A} (m : M A) : Prop :=
  forall g r g', m g = (r, g') -> file g' = file g /\ level g' = level g.

(** [appends m]: [m] only adds to the end of the output. *)
Definition appends {A} (m : M A) : Prop :=
  forall g r g', m g = (r, g') -> exists out, file g' = file g ++ out.

(** The vocabulary of the left-recursion analysis.  A name occurs in
    every cycle that [find_cycles_in_scc] yields for the component,
    whatever the start; the leader of a component is the smallest such
    member in the order of strings; [graph[n]] holds [n]; no two
    components of the list share a member. *)
Definition in_every_cycle (A : Analyses) (graph : gmap string (gset string))
  (scc : gset string) (m : string) : Prop :=
  forall start cycle,
    start ∈ scc -> cycle ∈ find_cycles_in_scc A graph scc start -> m ∈ cycle.

Definition is_leader_of (A : Analyses) (graph : gmap string (gset string))
  (scc : gset string) (l : string) : Prop :=
  l ∈ scc /\ in_every_cycle A graph scc l
  /\ forall m, m ∈ scc -> in_every_cycle A graph scc m -> String.le l m.

Definition self_edge (graph : gmap string (gset string)) (n : string) : Prop :=
  exists succs, graph !! n = Some succs /\ n ∈ succs.

Definition pairwise_disjoint (sccs : list (gset string)) : Prop :=
  forall i j s t, i <> j -> sccs !! i = Some s -> sccs !! j = Some t -> s ## t.

(** The component list fits the rules: no component is empty, every
    member is a vertex of the graph, and the members of a component that
    the analysis flags are rules. *)
Definition wf_sccs (graph : gmap string (gset string)) (rules : list (string * Rule))
  (sccs : list (gset string)) : Prop :=
  forall scc, scc ∈ sccs ->
    scc <> ∅
    /\ (forall n, n ∈ scc -> is_Some (graph !! n))
    /\ (forall n, n ∈ scc -> 1 < size scc \/ self_edge graph n ->
                   is_Some (Dict.get n rules)).

(** How planning may change the generator: nothing is written, the
    indentation and the variable counter stay, the helper counter does not
    go down, every plan the cache holds is kept, and the keys of the
    work-list stay in place, new ones coming after them. *)
Definition grows (g g' : Gen) : Prop :=
  file g' = file g /\ level g' = level g /\ varname_counter g' = varname_counter g
  /\ counter g <= counter g' /\ cache g ⊆ cache g'
  /\ Dict.keys (todo g) `prefix_of` Dict.keys (todo g').

Definition growing {A} (m : M A) : Prop := forall g r g', m g = (r, g') -> grows g g'.

(** The name under which [add_var] looks up the type of a name leaf's
    variable: the planner's variable name without its [_var]. *)
Definition base_name (value : string) : string :=
  if is_token_class value then lower value else value.

(** The text of the guards: an [if] block around one or two statements. *)
Definition error_check_lines (k : nat) (call_text statement : string) : list (nat * string) :=
  [ (0, "int tmpvar_" +:+ str_nat k +:+ " = " +:+ call_text +:+ ";");
    (0, "if (tmpvar_" +:+ str_nat k +:+ ") {");
    (1, statement);
    (0, "}") ].

Definition out_of_memory_lines (expr message statement : string) : list (nat * string) :=
  [ (0, "if (" +:+ expr +:+ ") {");
    (1, "PyErr_Format(PyExc_MemoryError, " +:+ dq +:+ message +:+ dq +:+ ");");
    (1, statement);
    (0, "}") ].

(** [r'] is [r] but for flags of the left-recursion analysis that were
    raised. *)
Definition flagged_from (r r' : Rule) : Prop :=
  rule_name r' = rule_name r /\ rule_type r' = rule_type r /\ rule_rhs r' = rule_rhs r
  /\ nullable r' = nullable r
  /\ (left_recursive r = true -> left_recursive r' = true)
  /\ (leader r = true -> leader r' = true).

(** The same rules under the same names in the same order, but for
    raised flags. *)
Definition same_rules (rs rs' : list (string * Rule)) : Prop :=
  Forall2 (fun kv kv' => fst kv' = fst kv /\ flagged_from (snd kv) (snd kv')) rs rs'.

(** Every leader is flagged left-recursive. *)
Definition leaders_flagged (rs : list (string * Rule)) : Prop :=
  forall k r, Dict.get k rs = Some r -> leader r = true -> left_recursive r = true.

(** [balanced m]: [m] leaves the indentation as it found it, whether it
    returns or raises. *)
Definition balanced {A} (m : M A) : Prop :=
  forall g r g', m g = (r, g') -> level g' = level g.

(** The text around the alternatives of a rule that is neither a loop
    nor left-recursive nor a leader: what precedes them and what follows
    them. *)
Definition memoized_rule_opening (E : Env) (node : Rule) : list (nat * string) :=
  [ (0, "// " +:+ str_Rule E node);
    (0, "static " +:+ c_type node);
    (0, rule_name node +:+ "_rule(Parser *p)");
    (0, "{");
    (1, c_type node +:+ " res = NULL;");
    (1, "if (is_memoized(p, " +:+ rule_name node +:+ "_type, &res))");
    (2, "return res;");
    (1, "int mark = p->mark;") ].

Definition memoized_rule_closing (node : Rule) : list (nat * string) :=
  [ (1, "res = NULL;");
    (0, "  done:");
    (1, "insert_memo(p, mark, " +:+ rule_name node +:+ "_type, res);");
    (1, "return res;");
    (0, "}") ].

(** An item whose variable [add_var] and the emitter's [visit_NamedItem]
    name alike, given the plan of the item: the planned name does not
    begin with [cut] and the bind name is not [cut]; or the plan has no
    name and the item has no bind name. *)
Definition in_step (node : NamedItem) (p : plan) : bool :=
  match fst p with
  | Some (String _ _ as name) =>
      negb (startswith "cut" name) && negb (bool_decide (ni_name node = Some "cut"))
  | _ => negb (truthy (ni_name node))
  end.

(** The items can be planned one after the other, and each is in step
    with its plan. *)
Fixpoint plans_in_step (E : Env) (items : list NamedItem) (g : Gen) : bool :=
  match items with
  | [] => true
  | node :: rest =>
      match visit E (ni_item node) g with
      | (inr p, g1) => in_step node p && plans_in_step E rest g1
      | (inl _, _) => false
      end
  end.

(** The first loop of the emitter's [visit_Rhs]: the variables of all
    alternatives, [vars.update(self.collect_vars(alt))]; and the text of
    a declaration. *)
Definition collected_vars (E : Env) (rules : list (string * Rule)) (node : Rhs)
  : M (list (option string * option string)) :=
  foldM (fun vars alt =>
           types <- collect_vars E rules alt ;;
           ret (fold_left (fun d kv => types_set (fst kv) (snd kv) d) types vars))
        (rhs_alts node) [].

Definition declaration (v : string) (type : option string) : string :=
  (if truthy type then default "" type +:+ " " else "void *") +:+ v +:+ ";".

(** The condition of an alternative, told from the plans of its items.
    What an item whose plan (with its bind name) is [p] adds to the
    condition, and the names bound after it: a plan with a name assigns
    the call to a variable of that name, made unique among the names
    bound so far and entered among them; a variable named [cut] is
    assigned as it is and not entered; a plan without a name adds the
    call alone and binds nothing. *)
Definition item_text (p : plan) (names : list string) : string * list string :=
  match p with
  | (Some (String _ _ as name), call) =>
      if String.eqb name "cut"
      then ("(" +:+ name +:+ " = " +:+ call +:+ ")", names)
      else ("(" +:+ fst (dedupe name names) +:+ " = " +:+ call +:+ ")",
            snd (dedupe name names))
  | (_, call) => (call, names)
  end.

Fixpoint condition_text (plans : list plan) (names : list string)
  : list string * list string :=
  match plans with
  | [] => ([], names)
  | p :: rest =>
      let texts := condition_text rest (snd (item_text p names)) in
      (fst (item_text p names) :: fst texts, snd texts)
  end.

(** The texts of the items, [&&] before each but the first. *)
Fixpoint and_lines (first : bool) (lines : list string) : list string :=
  match lines with
  | [] => []
  | l :: rest => (if first then [l] else ["&&"; l]) ++ and_lines false rest
  end.

(** [p] is a plan of the item, at some state of the planner. *)
Definition planned (E : Env) (node : NamedItem) (p : plan) : Prop :=
  exists g g', CCallMakerVisitor.visit_NamedItem E node g = (inr p, g').

(** [steady k m]: [m] leaves what the work-list holds under the name [k]
    as it was, and what it raises is an exception of the program, not
    the end of the fuel. *)
Definition steady {A} (k : string) (m : M A) : Prop :=
  forall g r g', m g = (r, g') ->
    Dict.get k (todo g') = Dict.get k (todo g) /\ r <> inl OutOfFuel.

(** * Properties *)

(** ** Strings *)

Lemma app_nil_l (s : string) : "" +:+ s = s.
Proof. reflexivity. Qed.

Lemma app_cons (a : ascii) (s t : string) : String a s +:+ t = String a (s +:+ t).
Proof. reflexivity. Qed.

Lemma app_assoc_s (s t u : string) : (s +:+ t) +:+ u = s +:+ t +:+ u.
Proof.
  induction s as [|a s IH]; [reflexivity|].
  rewrite !app_cons. by rewrite IH.
Qed.

Lemma split1_found (c : ascii) (l r : string) :
  free_of c l = true -> split1 c (l +:+ String c r) = Some (l, r).
Proof.
  induction l as [|a l IH]; intros Hfree.
  - rewrite app_nil_l. simpl. by rewrite Ascii.eqb_refl.
  - rewrite app_cons. simpl in *.
    apply andb_prop in Hfree as [Ha Hl].
    apply negb_true_iff in Ha. rewrite Ha. by rewrite (IH Hl).
Qed.

Lemma split1_none_app (c : ascii) (s t : string) :
  split1 c s = None -> split1 c t = None -> split1 c (s +:+ t) = None.
Proof.
  intros Hs Ht. induction s as [|a s IH]; [done|].
  rewrite app_cons. simpl in *.
  destruct (Ascii.eqb a c); [done|].
  destruct (split1 c s) as [[l r]|]; [done|].
  by rewrite IH.
Qed.

Lemma split1_some_app (c : ascii) (s t l r : string) :
  split1 c s = Some (l, r) -> split1 c (s +:+ t) = Some (l, r +:+ t).
Proof.
  revert l r. induction s as [|a s IH]; intros l r; [done|].
  rewrite app_cons. simpl.
  destruct (Ascii.eqb a c).
  - intros [= <- <-]. done.
  - destruct (split1 c s) as [[l' r']|] eqn:Hs; [|done].
    intros [= <- <-]. by rewrite (IH _ _ eq_refl).
Qed.

Lemma last_char_snoc (s : string) (c : ascii) : last_char (s +:+ String c "") = Some c.
Proof.
  induction s as [|a s IH]; [done|].
  rewrite app_cons. simpl. rewrite IH.
  destruct s; done.
Qed.

Lemma drop_last_snoc (s : string) (c : ascii) : drop_last (s +:+ String c "") = s.
Proof.
  induction s as [|a s IH]; [done|].
  rewrite app_cons. simpl. rewrite IH.
  destruct s; done.
Qed.

Lemma last_char_app_snoc (s t : string) (c : ascii) :
  last_char (s +:+ t +:+ String c "") = Some c.
Proof. rewrite <- app_assoc_s. apply last_char_snoc. Qed.

Lemma forallb_string_get (p : ascii -> bool) (s : string) :
  forallb_string p s = true <-> (forall i a, String.get i s = Some a -> p a = true).
Proof.
  induction s as [|c s IH]; simpl.
  - split; [intros _ i a; by destruct i | done].
  - rewrite andb_true_iff, IH. split.
    + intros [Hc Hs] [|i] a; simpl; [by intros [= <-] | apply Hs].
    + intros H. split; [apply (H 0 c); done | intros i a Hi; apply (H (S i) a Hi)].
Qed.

Lemma is_identifier_spec (val : string) :
  is_identifier val = true <-> identifier_like val.
Proof.
  split.
  - destruct val as [|c rest]; [done|]. simpl.
    intros [Hc Hr]%andb_prop. constructor; [done|].
    by apply forallb_string_get.
  - intros [c rest Hc Hr]. simpl. rewrite Hc. simpl.
    by apply forallb_string_get.
Qed.

(** ** Computations *)

Lemma bind_inr {A B} (m : M A) (k : A -> M B) g a g' :
  m g = (inr a, g') -> bind m k g = k a g'.
Proof. unfold bind. by intros ->. Qed.

Lemma bind_inl {A B} (m : M A) (k : A -> M B) g e g' :
  m g = (inl e, g') -> bind m k g = (inl e, g').
Proof. unfold bind. by intros ->. Qed.

Lemma bind_inv {A B} (m : M A) (k : A -> M B) g r g2 :
  bind m k g = (r, g2) ->
  (exists e, m g = (inl e, g2) /\ r = inl e) \/
  (exists a g1, m g = (inr a, g1) /\ k a g1 = (r, g2)).
Proof.
  unfold bind. destruct (m g) as [[e|a] g1]; intros H.
  - left. exists e. by simplify_eq.
  - right. by exists a, g1.
Qed.

Lemma fails_bind_l {A B} (m : M A) (k : A -> M B) : fails m -> fails (bind m k).
Proof.
  intros Hm g. destruct (Hm g) as (e & g' & Hg).
  exists e, g'. by apply bind_inl.
Qed.

Lemma fails_bind_r {A B} (m : M A) (k : A -> M B) :
  (forall a, fails (k a)) -> fails (bind m k).
Proof.
  intros Hk g. unfold bind. destruct (m g) as [[e|a] g1]; [by eauto|].
  apply Hk.
Qed.

Lemma fails_indent {A} (m : M A) : fails m -> fails (indent m).
Proof.
  intros Hm g. unfold indent.
  destruct (Hm (with_level (S (level g)) g)) as (e & g' & ->). eauto.
Qed.

Lemma fails_foldM {A B} (f : B -> A -> M B) (l : list A) (x : A) :
  x ∈ l -> (forall b, fails (f b x)) -> forall b, fails (foldM f l b).
Proof.
  intros Hx Hf. induction l as [|y l IH]; intros b; [by apply elem_of_nil in Hx|].
  simpl. apply elem_of_cons in Hx as [<-|Hx].
  - apply fails_bind_l, Hf.
  - apply fails_bind_r. intros b'. by apply IH.
Qed.

Lemma fails_forM_ {A} (f : A -> M unit) (l : list A) (x : A) :
  x ∈ l -> fails (f x) -> fails (forM_ f l).
Proof. intros Hx Hf. unfold forM_. eapply fails_foldM; [done|]. by intros _. Qed.

(** ** String leaves (C8) *)

Lemma visit_StringLeaf_unknown (E : Env) (value val : string) (g : Gen) :
  literal_eval E value = Some val ->
  is_identifier val = false ->
  exact_token_types E !! val = None ->
  visit E (StringLeaf value) g
  = (inl (AssertionError (value +:+ " is not a known literal")), g).
Proof.
  intros Hval Hid Htab. simpl. unfold visit_StringLeaf.
  by rewrite Hval, Hid, Htab.
Qed.

Lemma fails_add_var (E : Env) (rules : list (string * Rule)) (node : NamedItem)
  (names : list string) :
  fails (visit E (ni_item node)) -> fails (add_var E rules node names).
Proof. intros H. unfold add_var. by apply fails_bind_l. Qed.

Lemma fails_collect_vars (E : Env) (rules : list (string * Rule)) (alt : Alt)
  (node : NamedItem) :
  node ∈ alt_items alt -> fails (visit E (ni_item node)) ->
  fails (collect_vars E rules alt).
Proof.
  intros Hin H. unfold collect_vars. apply fails_bind_l.
  eapply fails_foldM; [done|]. intros [types names].
  apply fails_bind_l. by apply fails_add_var.
Qed.

Lemma fails_visit_Rhs (E : Env) (rules : list (string * Rule)) (rhs : Rhs) (alt : Alt)
  (node : NamedItem) (is_loop : bool) (rulename : option string) :
  alt ∈ rhs_alts rhs -> node ∈ alt_items alt -> fails (visit E (ni_item node)) ->
  fails (visit_Rhs E rules rhs is_loop rulename).
Proof.
  intros Halt Hin H. unfold visit_Rhs.
  apply fails_bind_r. intros _. apply fails_bind_l.
  eapply fails_foldM; [done|]. intros vars.
  apply fails_bind_l. by eapply fails_collect_vars.
Qed.

Lemma fails_visit_Rule (E : Env) (rules : list (string * Rule)) (rule : Rule) (alt : Alt)
  (node : NamedItem) :
  alt ∈ rhs_alts (flatten E rule) -> node ∈ alt_items alt ->
  fails (visit E (ni_item node)) ->
  fails (visit_Rule E rules rule).
Proof.
  intros Halt Hin H. unfold visit_Rule.
  do 5 (apply fails_bind_r; intros _).
  unfold emit_body. apply fails_bind_r; intros _.
  apply fails_bind_l, fails_indent.
  do 4 (apply fails_bind_r; intros _).
  apply fails_bind_l. by eapply fails_visit_Rhs.
Qed.

(** ** Lookaheads (C10) *)

Lemma split1_inv (c : ascii) (s l r : string) :
  split1 c s = Some (l, r) -> s = l +:+ String c r /\ free_of c l = true.
Proof.
  revert l. induction s as [|a s IH]; intros l; [done|]. simpl.
  destruct (Ascii.eqb a c) eqn:Hac.
  - apply Ascii.eqb_eq in Hac as ->. by intros [= <- <-].
  - destruct (split1 c s) as [[l' r']|]; [|done].
    intros [= <- <-]. destruct (IH l' eq_refl) as [-> Hfree].
    split; [done|]. unfold free_of in *. simpl. by rewrite Hac, Hfree.
Qed.

Lemma last_char_inv (s : string) (c : ascii) :
  last_char s = Some c -> s = drop_last s +:+ String c "".
Proof.
  induction s as [|a s IH]; [done|]. simpl.
  destruct s as [|b s]; [by intros [= ->]|].
  intros H. rewrite app_cons. f_equal. by apply IH.
Qed.

Lemma lookahead_call_plain (func args : string) (positive : nat) (g : Gen) :
  free_of "(" func = true ->
  lookahead_call (func +:+ "(" +:+ args +:+ ")") positive g
  = (inr (None, lookahead_wrapper args +:+ "(" +:+ str_nat positive +:+ ", "
                  +:+ func +:+ ", " +:+ args +:+ ")"), g).
Proof.
  intros Hfree. unfold lookahead_call.
  change ("(" +:+ args +:+ ")") with (String "(" (args +:+ ")")).
  rewrite (split1_found _ _ _ Hfree).
  rewrite last_char_snoc, drop_last_snoc, Ascii.eqb_refl.
  unfold lookahead_wrapper. cbn [negb].
  destruct (startswith "p," args); cbn [negb]; [|done].
  by destruct (isalnum (strip (drop 2 args))).
Qed.

Lemma lookahead_call_inv (call : string) (positive : nat) (g g' : Gen) (q : plan) :
  lookahead_call call positive g = (inr q, g') ->
  exists func args, call = func +:+ "(" +:+ args +:+ ")" /\ free_of "(" func = true.
Proof.
  unfold lookahead_call.
  destruct (split1 "(" call) as [[func args]|] eqn:Hsplit; [|done].
  destruct (last_char args) as [c|] eqn:Hlast; [|done].
  destruct (Ascii.eqb c ")") eqn:Hc; [|done].
  intros _. apply Ascii.eqb_eq in Hc as ->.
  apply split1_inv in Hsplit as [-> Hfree].
  apply last_char_inv in Hlast.
  exists func, (drop_last args). split; [|done].
  by rewrite <- Hlast.
Qed.

Lemma lookahead_call_state (call : string) (positive : nat) (g : Gen) :
  snd (lookahead_call call positive g) = g.
Proof. unfold lookahead_call. by repeat case_match. Qed.

Lemma lookahead_call_comma_one (call : string) (positive : nat) (g : Gen) :
  lookahead_call (call +:+ ", 1") positive g
  = (inl (match split1 "(" call with
          | Some _ => AssertionError ""
          | None => ValueError "not enough values to unpack (expected 2, got 1)"
          end), g).
Proof.
  unfold lookahead_call.
  destruct (split1 "(" call) as [[func args]|] eqn:Hsplit.
  - rewrite (split1_some_app _ _ _ _ _ Hsplit).
    change (args +:+ ", 1") with (args +:+ ", " +:+ String "1" "").
    by rewrite last_char_app_snoc.
  - by rewrite split1_none_app.
Qed.

Lemma visit_lookahead_node (E : Env) (positive : bool) (inner : Item) :
  visit E (lookahead_node positive inner)
  = bind (visit E inner) (fun p => lookahead_call (snd p) (polarity positive)).
Proof. by destruct positive. Qed.

Lemma visit_Opt_run (E : Env) (inner : Item) :
  visit E (Opt inner)
  = bind (visit E inner) (fun p => ret (Some "opt_var", snd p +:+ ", 1")).
Proof. reflexivity. Qed.

(** C10. Planning a lookahead plans the inner item, splits its call text
    at the first opening parenthesis and requires that the text ends with
    a closing parenthesis; for such a call [func(args)] the result is the
    wrapper chosen by the shape of [args] (none, an integer, a string)
    applied to the polarity, [func] and [args], and a lookahead is planned
    only for such calls.  A lookahead over an [Opt], whose call text ends
    with [, 1], always raises: the assertion fails whenever the inner call
    has an opening parenthesis. *)
Theorem lookahead_needs_plain_call (E : Env) (positive : bool) (inner : Item) (g : Gen) :
  (forall name func args g1,
      visit E inner g = (inr (name, func +:+ "(" +:+ args +:+ ")"), g1) ->
      free_of "(" func = true ->
      visit E (lookahead_node positive inner) g
      = (inr (None, lookahead_wrapper args +:+ "(" +:+ str_nat (polarity positive) +:+ ", "
                      +:+ func +:+ ", " +:+ args +:+ ")"), g1))
  /\ (forall q g1,
      visit E (lookahead_node positive inner) g = (inr q, g1) ->
      exists name func args,
        visit E inner g = (inr (name, func +:+ "(" +:+ args +:+ ")"), g1)
        /\ free_of "(" func = true)
  /\ fails (visit E (lookahead_node positive (Opt inner)))
  /\ (forall p g1,
      visit E inner g = (inr p, g1) -> split1 "(" (snd p) <> None ->
      visit E (lookahead_node positive (Opt inner)) g = (inl (AssertionError ""), g1)).
Proof.
  rewrite !visit_lookahead_node. repeat split.
  - intros name func args g1 Hinner Hfree.
    rewrite (bind_inr _ _ _ _ _ Hinner). simpl.
    by apply lookahead_call_plain.
  - intros q g1 Hla.
    apply bind_inv in Hla as [(e & _ & [=])|([name call] & g2 & Hinner & Hcall)].
    simpl in Hcall.
    assert (g1 = g2) as ->.
    { pose proof (lookahead_call_state call (polarity positive) g2) as Hst.
      by rewrite Hcall in Hst. }
    apply lookahead_call_inv in Hcall as (func & args & -> & Hfree).
    by exists name, func, args.
  - intros g0. rewrite visit_Opt_run.
    unfold bind at 1. unfold bind at 1.
    destruct (visit E inner g0) as [[e|p] g1]; [by eauto|].
    simpl. rewrite lookahead_call_comma_one. eauto.
  - intros p g1 Hinner Hparen. rewrite visit_Opt_run.
    unfold bind at 1. unfold bind at 1. rewrite Hinner. simpl.
    rewrite lookahead_call_comma_one.
    by destruct (split1 "(" (snd p)).
Qed.

Lemma lookahead_needs_plain_call_witness :
  visit Sample.E (lookahead_node true (NameLeaf "NAME")) (Sample.g0 [])
  = (inr (None, lookahead_wrapper "p" +:+ "(" +:+ str_nat (polarity true) +:+ ", "
                  +:+ "name_token" +:+ ", " +:+ "p" +:+ ")"), Sample.g0 [])
  /\ visit Sample.E (lookahead_node false (Opt (NameLeaf "NAME"))) (Sample.g0 [])
     = (inl (AssertionError ""), Sample.g0 []).
Proof.
  split.
  - destruct (lookahead_needs_plain_call Sample.E true (NameLeaf "NAME") (Sample.g0 []))
      as (Hplain & _).
    by apply (Hplain (Some "name_var") "name_token" "p" (Sample.g0 [])).
  - destruct (lookahead_needs_plain_call Sample.E false (NameLeaf "NAME") (Sample.g0 []))
      as (_ & _ & _ & Hopt).
    by apply (Hopt (Some "name_var", "name_token(p)") (Sample.g0 [])).
Defined.

(** ** Helper rules for groups (C6) *)

Lemma Dict_get_set_eq {V} (k : string) (v : V) (d : list (string * V)) :
  Dict.get k (Dict.set k v d) = Some v.
Proof.
  induction d as [|[k' v'] d IH]; simpl.
  - by rewrite String.eqb_refl.
  - destruct (String.eqb k k') eqn:Hk; simpl; rewrite Hk; [done|apply IH].
Qed.

Lemma Dict_get_set_ne {V} (k k' : string) (v : V) (d : list (string * V)) :
  k <> k' -> Dict.get k' (Dict.set k v d) = Dict.get k' d.
Proof.
  intros Hne. induction d as [|[k0 v0] d IH]; simpl.
  - by apply String.eqb_neq in Hne as Hne'; rewrite String.eqb_sym, Hne'.
  - destruct (String.eqb k k0) eqn:Hk; simpl; [|by rewrite IH].
    apply String.eqb_eq in Hk as <-.
    destruct (String.eqb k' k) eqn:Hk'; [|done].
    apply String.eqb_eq in Hk'. congruence.
Qed.

Lemma single_item_inv (uid : oid) (alts : list Alt) :
  single_item (mkRhs uid alts) = true ->
  exists name item action, alts = [mkAlt [mkNamedItem name item] action].
Proof.
  unfold single_item. simpl.
  destruct alts as [|[items action] [|? ?]]; [done| |done].
  destruct items as [|[name item] [|? ?]]; [done| |done].
  intros _. by exists name, item, action.
Qed.

Lemma visit_Rhs_allocates (E : Env) (uid : oid) (alts : list Alt) (g : Gen) :
  cache g !! uid = None -> single_item (mkRhs uid alts) = false ->
  CCallMakerVisitor.visit_Rhs E (mkRhs uid alts) g
  = bind (name_node (mkRhs uid alts))
         (fun name => bind (cache_set uid (helper_plan name))
                           (fun _ => ret (helper_plan name))) g.
Proof.
  intros Hcache Hsingle. simpl.
  unfold bind at 1, cache_get, gets. rewrite Hcache.
  destruct alts as [|[items action] alts']; [done|].
  destruct items as [|[name item] items']; [by destruct alts'|].
  destruct alts'; [|by destruct items'].
  by destruct items'.
Qed.

(** C6, as the code has it.  Planning a group plans its right-hand side.
    A right-hand side planned before gets the plan the cache holds.  One
    not yet planned that is not a single alternative with a single item
    gets a helper rule [_tmp_<n>], [n] the counter's next value: the rule
    is entered in the work-list under that name with the right-hand side
    as its body, and the plan is the helper's call.  One that is a single
    alternative with a single item gets the plan of that item, with the
    item's bind name if it has one; the counter and the work-list are as
    planning the item leaves them. *)
Theorem rhs_helper_allocation (E : Env) (uid : oid) (alts : list Alt) (g : Gen) :
  visit E (Group (mkRhs uid alts)) g = CCallMakerVisitor.visit_Rhs E (mkRhs uid alts) g
  /\ (forall p, cache g !! uid = Some p -> CCallMakerVisitor.visit_Rhs E (mkRhs uid alts) g = (inr p, g))
  /\ (cache g !! uid = None -> single_item (mkRhs uid alts) = false ->
      exists g',
        CCallMakerVisitor.visit_Rhs E (mkRhs uid alts) g
        = (inr (Some ("_tmp_" +:+ str_nat (S (counter g)) +:+ "_var"),
                "_tmp_" +:+ str_nat (S (counter g)) +:+ "_rule(p)"), g')
        /\ counter g' = S (counter g)
        /\ Dict.get ("_tmp_" +:+ str_nat (S (counter g))) (todo g')
           = Some (new_Rule ("_tmp_" +:+ str_nat (S (counter g))) None (mkRhs uid alts))
        /\ (forall k, k <> "_tmp_" +:+ str_nat (S (counter g)) ->
                      Dict.get k (todo g') = Dict.get k (todo g))
        /\ file g' = file g)
  /\ (cache g !! uid = None -> single_item (mkRhs uid alts) = true ->
      exists name item action,
        alts = [mkAlt [mkNamedItem name item] action]
        /\ (forall e g1, visit E item g = (inl e, g1) ->
                         CCallMakerVisitor.visit_Rhs E (mkRhs uid alts) g = (inl e, g1))
        /\ (forall p g1, visit E item g = (inr p, g1) ->
              CCallMakerVisitor.visit_Rhs E (mkRhs uid alts) g
              = (inr (bind_name name p),
                 with_cache (<[uid := bind_name name p]> (cache g1)) g1))).
Proof.
  split; [done|]. split; [|split].
  - intros p Hcache. simpl. unfold bind at 1, cache_get, gets. by rewrite Hcache.
  - intros Hcache Hsingle. rewrite (visit_Rhs_allocates E uid alts g Hcache Hsingle).
    eexists. split; [reflexivity|]. simpl. repeat split; [apply Dict_get_set_eq|].
    intros k Hk. by apply Dict_get_set_ne.
  - intros Hcache Hsingle.
    destruct (single_item_inv uid alts Hsingle) as (name & item & action & ->).
    exists name, item, action. split; [done|].
    split.
    + intros e g1 Hitem. simpl. unfold bind at 1, cache_get, gets. rewrite Hcache.
      by rewrite (bind_inl _ _ _ _ _ Hitem).
    + intros p g1 Hitem. simpl. unfold bind at 1, cache_get, gets. rewrite Hcache.
      by rewrite (bind_inr _ _ _ _ _ Hitem).
Qed.

Lemma rhs_helper_allocation_witness :
  (exists g',
      CCallMakerVisitor.visit_Rhs Sample.E
        (mkRhs (inl 7) [mkAlt [Sample.item (NameLeaf "a")] None;
                        mkAlt [Sample.item (NameLeaf "b")] None]) (Sample.g0 [])
      = (inr (Some ("_tmp_" +:+ str_nat 1 +:+ "_var"),
              "_tmp_" +:+ str_nat 1 +:+ "_rule(p)"), g')
      /\ counter g' = 1)
  /\ CCallMakerVisitor.visit_Rhs Sample.E (mkRhs (inl 7) [mkAlt [Sample.item (NameLeaf "a")] None])
       (Sample.g0 [])
     = (inr (Some "a_var", "a_rule(p)"),
        with_cache (<[inl 7 := (Some "a_var", "a_rule(p)")]> ∅) (Sample.g0 [])).
Proof.
  split.
  - destruct (rhs_helper_allocation Sample.E (inl 7)
                [mkAlt [Sample.item (NameLeaf "a")] None;
                 mkAlt [Sample.item (NameLeaf "b")] None] (Sample.g0 []))
      as (_ & _ & Halloc & _).
    destruct (Halloc eq_refl eq_refl) as (g' & Hv & Hc & _).
    exists g'. by split.
  - destruct (rhs_helper_allocation Sample.E (inl 7)
                [mkAlt [Sample.item (NameLeaf "a")] None] (Sample.g0 []))
      as (_ & _ & _ & Hreuse).
    destruct (Hreuse eq_refl eq_refl) as (name & item & action & [= <- <- <-] & _ & Hok).
    by apply (Hok (Some "a_var", "a_rule(p)") (Sample.g0 [])).
Defined.

(** The claim C6 fails as stated: a group of one alternative with two
    items has a single alternative, and planning it allocates [_tmp_1]. *)
Lemma group_of_one_alternative_gets_helper :
  length (rhs_alts (mkRhs (inl 7)
            [mkAlt [Sample.item (NameLeaf "a"); Sample.item (NameLeaf "b")] None])) = 1
  /\ fst (visit Sample.E
            (Group (mkRhs (inl 7)
               [mkAlt [Sample.item (NameLeaf "a"); Sample.item (NameLeaf "b")] None]))
            (Sample.g0 []))
     = inr (Some "_tmp_1_var", "_tmp_1_rule(p)")
  /\ todo (snd (visit Sample.E
            (Group (mkRhs (inl 7)
               [mkAlt [Sample.item (NameLeaf "a"); Sample.item (NameLeaf "b")] None]))
            (Sample.g0 [])))
     = [("_tmp_1", new_Rule "_tmp_1" None
           (mkRhs (inl 7)
              [mkAlt [Sample.item (NameLeaf "a"); Sample.item (NameLeaf "b")] None]))].
Proof. split; [reflexivity|]. split; vm_compute; reflexivity. Qed.

(** ** The default action (C9) *)

Lemma foldM_inv {A B} (P : B -> Prop) (f : B -> A -> M B) (l : list A) :
  (forall b x g b' g', x ∈ l -> P b -> f b x g = (inr b', g') -> P b') ->
  forall b g b' g', P b -> foldM f l b g = (inr b', g') -> P b'.
Proof.
  induction l as [|x l IH]; intros Hstep b g b' g' Hb; simpl.
  - by intros [= <- <-].
  - intros Hfold.
    apply bind_inv in Hfold as [(e & _ & [=])|(b1 & g1 & Hx & Hrest)].
    eapply IH; [|by eapply Hstep; [left| |]|done].
    intros b2 y g2 b3 g3 Hy. apply Hstep. by right.
Qed.

Lemma indent_inr {A} (m : M A) g a g' :
  indent m g = (inr a, g') ->
  exists g1, m (with_level (S (level g)) g) = (inr a, g1).
Proof.
  unfold indent. destruct (m _) as [r g1]. intros [= -> <-]. by exists g1.
Qed.

Lemma visit_NamedItem_bare_lookahead (E : Env) (node : NamedItem) (names names' : list string)
  (g g' : Gen) :
  bare_lookahead node ->
  visit_NamedItem E node names g = (inr names', g') -> names' = names.
Proof.
  intros [Hname (positive & inner & Hitem)]. unfold visit_NamedItem.
  intros H. apply bind_inv in H as [(e & _ & [=])|(p & g1 & Hplan & Hprint)].
  unfold CCallMakerVisitor.visit_NamedItem in Hplan.
  apply bind_inv in Hplan as [(e & _ & [=])|(q & g2 & Hvisit & Hret)].
  rewrite Hitem, visit_lookahead_node in Hvisit.
  apply bind_inv in Hvisit as [(e & _ & [=])|(q0 & g3 & _ & Hcall)].
  assert (fst q = None) as Hq.
  { unfold lookahead_call, ret, raise in Hcall.
    repeat case_match; by simplify_eq. }
  unfold bind_name, ret in Hret. rewrite Hname in Hret.
  destruct q as [qn qc]. simpl in Hq. simplify_eq.
  unfold bind, print, modify, ret in Hprint. by simplify_eq.
Qed.

Lemma emit_items_bare_lookaheads (E : Env) (items : list NamedItem) (names : list string)
  (g g' : Gen) :
  Forall bare_lookahead items ->
  emit_items E items g = (inr names, g') -> names = [].
Proof.
  intros Hall. unfold emit_items. intros H.
  apply bind_inv in H as [(e & _ & [=])|([first names0] & g1 & Hfold & Hret)].
  unfold ret in Hret. simplify_eq. simpl.
  apply (foldM_inv (fun b : bool * list string => snd b = [])) in Hfold; [done| |done].
  intros [fst1 names1] x g2 [fst2 names2] g3 Hx Hnames Hstep. simpl in *. subst.
  apply bind_inv in Hstep as [(e & _ & [=])|(_ & g4 & _ & Hstep)].
  apply bind_inv in Hstep as [(e & _ & [=])|(names3 & g5 & Hitem & Hret)].
  unfold ret in Hret. simplify_eq.
  eapply visit_NamedItem_bare_lookahead; [|done].
  by eapply Forall_forall in Hall.
Qed.

Lemma emit_condition_bare_lookaheads (E : Env) (node : Alt) (is_loop : bool)
  (names : list string) (g g' : Gen) :
  Forall bare_lookahead (alt_items node) ->
  emit_condition E node is_loop g = (inr names, g') -> names = [].
Proof.
  intros Hall. unfold emit_condition. intros H.
  apply bind_inv in H as [(e & _ & [=])|(_ & g1 & _ & H)].
  apply bind_inv in H as [(e & _ & [=])|(_ & g2 & _ & H)].
  apply indent_inr in H as (g3 & H).
  by eapply emit_items_bare_lookaheads.
Qed.

Lemma visit_Alt_no_names (E : Env) (node : Alt) (is_loop : bool)
  (rulename : option string) (g g1 : Gen) :
  truthy (alt_action node) = false ->
  emit_condition E node is_loop g = (inr [], g1) ->
  visit_Alt E node is_loop rulename g
  = (inl IndexError, with_file (file g1 ++ [repeat_string "    " (level g1) +:+ ") {"]) g1).
Proof.
  intros Haction Hcond. unfold visit_Alt.
  rewrite (bind_inr _ _ _ _ _ Hcond).
  unfold bind at 1, print at 1, modify.
  unfold bind at 1, indent, bind at 1, emit_result. rewrite Haction. simpl.
  by destruct g1.
Qed.


(** ** The seed-growing loop (C1) *)

Lemma print_run (text : string) (g : Gen) :
  print text g = (inr tt, with_file (file g ++ [repeat_string "    " (level g) +:+ text]) g).
Proof. reflexivity. Qed.

Ltac run_prints :=
  cbv [bind print print_empty modify indent ret gets with_file with_level
       with_varname_counter level file varname_counter todo counter cache
       Init.Nat.pred Nat.pred indented map fst snd Nat.add Init.Nat.add];
  rewrite <- ?app_assoc; cbn [app]; rewrite ?app_assoc_s.

Lemma emit_seed_growing_run (node : Rule) (g : Gen) :
  emit_seed_growing node g
  = (inr tt,
     with_varname_counter (S (varname_counter g))
       (with_file (file g ++ indented (level g)
                     (seed_growing_lines (rule_name node) (c_type node)
                        (varname_counter g))) g)).
Proof.
  destruct g as [t c ca v l f].
  unfold emit_seed_growing, call_with_errorcheck_return, unique_varname,
    seed_growing_lines.
  run_prints. reflexivity.
Qed.




(** ** Loop rules (C4) *)

(** C4, on the helper of [NAME*]: the text emitted for the loop rule
    [_loop0_1].  The body of the [while] loop ends with [mark = p->mark;],
    so the [mark] that [insert_memo] receives after the loop is the
    position after the last iteration that matched, not the position at
    which the rule started; no variable keeps the starting position.  A
    [_loop0] rule has no check for zero iterations; the children are
    copied into a sequence, which is memoized and returned. *)
Theorem loop_rule_memoizes_at_advanced_mark :
  visit_Rule Sample.E []
    (new_Rule "_loop0_1" None (mkRhs (inr 1) [mkAlt [Sample.item (NameLeaf "NAME")] None]))
    (Sample.g0 [])
  = (inr tt,
     with_file
       (indented 0
          [ (0, "// _loop0_1");
            (0, "static asdl_seq *");
            (0, "_loop0_1_rule(Parser *p)");
            (0, "{");
            (1, "void *res = NULL;");
            (1, "if (is_memoized(p, _loop0_1_type, &res))");
            (2, "return res;");
            (1, "int mark = p->mark;");
            (1, "void **children = PyMem_Malloc(0);");
            (1, "if (!children) {");
            (2, "PyErr_Format(PyExc_MemoryError, " +:+ dq +:+ "Parser out of memory" +:+ dq +:+ ");");
            (2, "return NULL;");
            (1, "}");
            (1, "ssize_t n = 0;");
            (1, "void *name_var;");
            (1, "// alt");
            (1, "while (");
            (2, "(name_var = name_token(p))");
            (1, ") {");
            (2, "res = name_var;");
            (2, "children = PyMem_Realloc(children, (n+1)*sizeof(void *));");
            (2, "if (!children) {");
            (3, "PyErr_Format(PyExc_MemoryError, " +:+ dq +:+ "realloc _loop0_1" +:+ dq +:+ ");");
            (3, "return NULL;");
            (2, "}");
            (2, "children[n++] = res;");
            (2, "mark = p->mark;");
            (1, "}");
            (1, "p->mark = mark;");
            (1, "asdl_seq *seq = _Py_asdl_seq_new(n, p->arena);");
            (1, "if (!seq) {");
            (2, "PyErr_Format(PyExc_MemoryError, " +:+ dq +:+ "asdl_seq_new _loop0_1" +:+ dq +:+ ");");
            (2, "return NULL;");
            (1, "}");
            (1, "for (int i = 0; i < n; i++) asdl_seq_SET(seq, i, children[i]);");
            (1, "PyMem_Free(children);");
            (1, "insert_memo(p, mark, _loop0_1_type, seq);");
            (1, "return seq;");
            (0, "}") ])
       (Sample.g0 [])).
Proof. vm_compute. reflexivity. Qed.

(** A [_loop1] rule has the check for zero iterations after the loop; a
    [_loop0] rule has none. *)
Lemma loop1_rule_checks_zero_iterations :
  take 4 (List.skipn 29
     (file (snd (visit_Rule Sample.E []
                   (new_Rule "_loop1_1" None
                      (mkRhs (inr 1) [mkAlt [Sample.item (NameLeaf "NAME")] None]))
                   (Sample.g0 [])))))
  = indented 1 [ (0, "if (n == 0) {"); (1, "PyMem_Free(children);");
                 (1, "return NULL;"); (0, "}") ]
  /\ "    if (n == 0) {"
     ∉ file (snd (visit_Rule Sample.E []
                    (new_Rule "_loop0_1" None
                       (mkRhs (inr 1) [mkAlt [Sample.item (NameLeaf "NAME")] None]))
                    (Sample.g0 []))).
Proof.
  split; [vm_compute; reflexivity|].
  apply (bool_decide_unpack _). vm_compute. reflexivity.
Qed.

(** ** The cut check (C5) *)

(** The failure path of an alternative has the cut check exactly when one
    of the alternative's variable names is [cut_var]. *)
Lemma emit_failure_run (names : list string) (g : Gen) :
  emit_failure names g
  = (inr tt,
     with_file
       (file g ++ indented (level g)
          ((0, "p->mark = mark;")
           :: if bool_decide ("cut_var" ∈ names)
              then [(0, "if (cut_var) return NULL;")] else [])) g).
Proof.
  destruct g as [t c ca v l f]. unfold emit_failure.
  destruct (bool_decide ("cut_var" ∈ names)); run_prints; reflexivity.
Qed.

(** C5, on [start: cut NAME | ...] where [cut] is an ordinary rule: the
    alternative [cut NAME] has no cut item, and still its failure path
    ends with the cut check, which returns from the rule function instead
    of falling through to the next alternative.  The check is there as
    well for the token class [CUT] without a bind name, and is missing
    when that item is bound to another name. *)
Theorem rule_named_cut_gets_cut_check :
  visit_Alt Sample.E
    (mkAlt [Sample.item (NameLeaf "cut"); Sample.item (NameLeaf "NAME")] None)
    false (Some "start") (Sample.g0 [])
  = (inr tt,
     with_file
       (indented 0
          [ (0, "// alt");
            (0, "if (");
            (1, "(cut_var = cut_rule(p))");
            (1, "&&");
            (1, "(name_var = name_token(p))");
            (0, ") {");
            (1, "res = CONSTRUCTOR(p, cut_var, name_var);");
            (1, "insert_memo(p, mark, start_type, res);");
            (1, "goto done;");
            (0, "}");
            (0, "p->mark = mark;");
            (0, "if (cut_var) return NULL;") ])
       (Sample.g0 []))
  /\ last (file (snd (visit_Alt Sample.E
             (mkAlt [Sample.item (StringLeaf "'('"); Sample.item (NameLeaf "CUT");
                     Sample.item (NameLeaf "NAME")] None)
             false (Some "start") (Sample.g0 []))))
     = Some "if (cut_var) return NULL;"
  /\ last (file (snd (visit_Alt Sample.E
             (mkAlt [Sample.item (StringLeaf "'('"); mkNamedItem (Some "c") (NameLeaf "CUT");
                     Sample.item (NameLeaf "NAME")] None)
             false (Some "start") (Sample.g0 []))))
     = Some "p->mark = mark;".
Proof. repeat split; vm_compute; reflexivity. Qed.

(** ** What the computations do to the output *)

Lemma quiet_ret {A} (a : A) : quiet (ret a).
Proof. by intros g r g' [= <- <-]. Qed.

Lemma quiet_raise {A} (e : exn) : quiet (@raise A e).
Proof. by intros g r g' [= <- <-]. Qed.

Lemma quiet_gets {A} (f : Gen -> A) : quiet (gets f).
Proof. by intros g r g' [= <- <-]. Qed.

Lemma quiet_bind {A B} (m : M A) (k : A -> M B) :
  quiet m -> (forall a, quiet (k a)) -> quiet (bind m k).
Proof.
  intros Hm Hk g r g' H.
  apply bind_inv in H as [(e & Hg & ->)|(a & g1 & Hg & Hk')].
  - by apply Hm in Hg.
  - apply Hm in Hg as [Hf Hl]. apply Hk in Hk' as [Hf' Hl']. split; congruence.
Qed.

Lemma quiet_foldM {A B} (f : B -> A -> M B) (l : list A) :
  (forall b x, quiet (f b x)) -> forall b, quiet (foldM f l b).
Proof.
  intros Hf. induction l as [|x l IH]; intros b; simpl.
  - apply quiet_ret.
  - apply quiet_bind; [apply Hf|apply IH].
Qed.

Lemma quiet_forM_ {A} (f : A -> M unit) (l : list A) :
  (forall x, quiet (f x)) -> quiet (forM_ f l).
Proof. intros Hf. apply quiet_foldM. intros _. apply Hf. Qed.

Lemma quiet_appends {A} (m : M A) : quiet m -> appends m.
Proof.
  intros Hm g r g' H. apply Hm in H as [-> _]. exists []. by rewrite app_nil_r.
Qed.

Lemma appends_bind {A B} (m : M A) (k : A -> M B) :
  appends m -> (forall a, appends (k a)) -> appends (bind m k).
Proof.
  intros Hm Hk g r g' H.
  apply bind_inv in H as [(e & Hg & ->)|(a & g1 & Hg & Hk')].
  - by apply Hm in Hg.
  - apply Hm in Hg as [out1 Hf]. apply Hk in Hk' as [out2 Hf'].
    exists (out1 ++ out2). by rewrite Hf', Hf, app_assoc.
Qed.

Lemma appends_print (text : string) : appends (print text).
Proof. intros g r g' [= <- <-]. by eexists. Qed.

Lemma appends_print_empty : appends print_empty.
Proof. intros g r g' [= <- <-]. by eexists. Qed.

Lemma appends_indent {A} (m : M A) : appends m -> appends (indent m).
Proof.
  intros Hm g r g'. unfold indent.
  destruct (m _) as [r1 g1] eqn:Hg. intros [= <- <-].
  apply Hm in Hg as [out Hf]. by exists out.
Qed.

Lemma appends_foldM {A B} (f : B -> A -> M B) (l : list A) :
  (forall b x, appends (f b x)) -> forall b, appends (foldM f l b).
Proof.
  intros Hf. induction l as [|x l IH]; intros b; simpl.
  - apply quiet_appends, quiet_ret.
  - apply appends_bind; [apply Hf|apply IH].
Qed.

Lemma appends_forM_ {A} (f : A -> M unit) (l : list A) :
  (forall x, appends (f x)) -> appends (forM_ f l).
Proof. intros Hf. apply appends_foldM. intros _. apply Hf. Qed.

Lemma quiet_state_only {A} (f : Gen -> (exn + A) * Gen) :
  (forall g, file (snd (f g)) = file g /\ level (snd (f g)) = level g) -> quiet f.
Proof. intros Hf g r g' H. specialize (Hf g). by rewrite H in Hf. Qed.

Lemma quiet_name_node (rhs : Rhs) : quiet (name_node rhs).
Proof. by apply quiet_state_only. Qed.

Lemma quiet_name_loop (node : Item) (is_repeat1 : bool) : quiet (name_loop node is_repeat1).
Proof. by apply quiet_state_only. Qed.

Lemma quiet_cache_set (uid : oid) (p : plan) : quiet (cache_set uid p).
Proof. by apply quiet_state_only. Qed.

Lemma quiet_visit_StringLeaf (E : Env) (value : string) : quiet (visit_StringLeaf E value).
Proof.
  unfold visit_StringLeaf.
  repeat case_match; auto using @quiet_ret, @quiet_raise.
Qed.

Lemma quiet_lookahead_call (call : string) (positive : nat) :
  quiet (lookahead_call call positive).
Proof.
  unfold lookahead_call.
  repeat case_match; auto using @quiet_ret, @quiet_raise.
Qed.

Lemma quiet_visit_Repeat (uid : oid) (node : Item) (is_repeat1 : bool) :
  quiet (visit_Repeat uid node is_repeat1).
Proof.
  unfold visit_Repeat. apply quiet_bind; [apply quiet_gets|].
  intros [p|]; [apply quiet_ret|].
  apply quiet_bind; [apply quiet_name_loop|]. intros name.
  apply quiet_bind; [apply quiet_cache_set|]. intros _. apply quiet_ret.
Qed.

(** The planner writes nothing. *)
Fixpoint quiet_visit (E : Env) (node : Item) {struct node} : quiet (visit E node)
with quiet_visit_Rhs (E : Env) (node : Rhs) {struct node} : quiet (CCallMakerVisitor.visit_Rhs E node).
Proof.
  - destruct node as [value|value|inner|uid inner|uid inner|rhs|inner|inner]; simpl.
    + apply quiet_ret.
    + apply quiet_visit_StringLeaf.
    + apply quiet_bind; [apply quiet_visit|]. intros p. apply quiet_ret.
    + apply quiet_visit_Repeat.
    + apply quiet_visit_Repeat.
    + apply quiet_visit_Rhs.
    + apply quiet_bind; [apply quiet_visit|]. intros p. apply quiet_lookahead_call.
    + apply quiet_bind; [apply quiet_visit|]. intros p. apply quiet_lookahead_call.
  - destruct node as [uid alts]; simpl.
    apply quiet_bind; [apply quiet_gets|].
    intros [p|]; [apply quiet_ret|].
    assert (quiet (bind (name_node (mkRhs uid alts))
                     (fun name => bind (cache_set uid (helper_plan name))
                                       (fun _ => ret (helper_plan name))))) as Hhelper.
    { apply quiet_bind; [apply quiet_name_node|]. intros name.
      apply quiet_bind; [apply quiet_cache_set|]. intros _. apply quiet_ret. }
    destruct alts as [|[items action] alts']; [exact Hhelper|].
    destruct items as [|[name item] items']; [by destruct alts'|].
    destruct alts'; [|by destruct items'].
    destruct items'; [|exact Hhelper].
    apply quiet_bind; [apply quiet_visit|]. intros p.
    apply quiet_bind; [apply quiet_cache_set|]. intros _. apply quiet_ret.
Qed.

Ltac step_output :=
  lazymatch goal with
  | |- appends (print _) => apply appends_print
  | |- appends print_empty => apply appends_print_empty
  | |- appends (ret _) => apply quiet_appends, quiet_ret
  | |- appends (raise _) => apply quiet_appends, quiet_raise
  | |- appends (gets _) => apply quiet_appends, quiet_gets
  | |- appends (visit _ _) => apply quiet_appends, quiet_visit
  | |- appends (indent _) => apply appends_indent
  | |- appends (bind _ _) => apply appends_bind
  | |- appends (foldM _ _ _) => apply appends_foldM
  | |- appends (forM_ _ _) => apply appends_forM_
  | |- appends (let _ := _ in _) => cbv zeta
  | |- appends (if ?b then _ else _) => destruct b; cbv beta iota
  | |- appends (match ?x with _ => _ end) => destruct x; cbv beta iota
  | |- forall _, _ => intros ?
  end.

Lemma appends_out_of_memory_return (expr returnval message : string) :
  appends (out_of_memory_return expr returnval message).
Proof. unfold out_of_memory_return. repeat step_output. Qed.

Lemma appends_visit_NamedItem (E : Env) (node : NamedItem) (names : list string) :
  appends (visit_NamedItem E node names).
Proof.
  unfold visit_NamedItem, CCallMakerVisitor.visit_NamedItem. repeat step_output.
Qed.

Lemma quiet_add_var (E : Env) (rules : list (string * Rule)) (node : NamedItem)
  (names : list string) : quiet (add_var E rules node names).
Proof.
  unfold add_var. apply quiet_bind; [apply quiet_visit|]. intros p.
  repeat case_match; apply quiet_ret.
Qed.

Lemma quiet_collect_vars (E : Env) (rules : list (string * Rule)) (node : Alt) :
  quiet (collect_vars E rules node).
Proof.
  unfold collect_vars. apply quiet_bind; [|intros r; apply quiet_ret].
  apply quiet_foldM. intros [types names] item.
  apply quiet_bind; [apply quiet_add_var|]. intros r. apply quiet_ret.
Qed.

Ltac step_alt :=
  lazymatch goal with
  | |- appends (visit_NamedItem _ _ _) => apply appends_visit_NamedItem
  | |- appends (out_of_memory_return _ _ _) => apply appends_out_of_memory_return
  | |- appends (collect_vars _ _ _) => apply quiet_appends, quiet_collect_vars
  | _ => step_output
  end.

Lemma appends_emit_result (action : option string) (names : list string) :
  appends (emit_result action names).
Proof. unfold emit_result. repeat step_alt. Qed.

Lemma appends_emit_success (is_loop : bool) (rulename : option string) :
  appends (emit_success is_loop rulename).
Proof. unfold emit_success. repeat step_alt. Qed.

Lemma appends_emit_failure (names : list string) : appends (emit_failure names).
Proof. unfold emit_failure. repeat step_alt. Qed.

Lemma appends_emit_condition (E : Env) (node : Alt) (is_loop : bool) :
  appends (emit_condition E node is_loop).
Proof.
  unfold emit_condition, emit_items.
  do 2 (apply appends_bind; [apply appends_print|intros _]).
  apply appends_indent, appends_bind; [|intros r; apply quiet_appends, quiet_ret].
  apply appends_foldM. intros [first names] item.
  repeat step_alt.
Qed.

Lemma appends_visit_Alt (E : Env) (node : Alt) (is_loop : bool) (rulename : option string) :
  appends (visit_Alt E node is_loop rulename).
Proof.
  unfold visit_Alt.
  apply appends_bind; [apply appends_emit_condition|]. intros names.
  apply appends_bind; [apply appends_print|]. intros _.
  apply appends_bind.
  { apply appends_indent, appends_bind; [apply appends_emit_result|].
    intros _. apply appends_emit_success. }
  intros _. apply appends_bind; [apply appends_print|]. intros _.
  apply appends_emit_failure.
Qed.

Lemma appends_visit_Rhs (E : Env) (rules : list (string * Rule)) (node : Rhs)
  (is_loop : bool) (rulename : option string) :
  appends (visit_Rhs E rules node is_loop rulename).
Proof.
  unfold visit_Rhs.
  apply appends_bind; [repeat step_alt|]. intros _.
  apply appends_bind.
  { apply appends_foldM. intros vars alt.
    apply appends_bind; [apply quiet_appends, quiet_collect_vars|].
    intros types. apply quiet_appends, quiet_ret. }
  intros vars. apply appends_bind.
  { apply appends_forM_. intros [v type]. apply appends_print. }
  intros _. apply appends_forM_. intros alt. apply appends_visit_Alt.
Qed.

Lemma appends_emit_seed_growing (node : Rule) : appends (emit_seed_growing node).
Proof.
  intros g r g' H. rewrite emit_seed_growing_run in H.
  injection H as <- <-. by eexists.
Qed.

Ltac step_rule :=
  lazymatch goal with
  | |- appends (visit_Rhs _ _ _ _ _) => apply appends_visit_Rhs
  | |- appends (emit_seed_growing _) => apply appends_emit_seed_growing
  | _ => step_alt
  end.

Lemma appends_emit_body (E : Env) (rules : list (string * Rule)) (node : Rule) :
  appends (emit_body E rules node).
Proof. unfold emit_body. cbv zeta. repeat step_rule. Qed.

Lemma appends_visit_Rule (E : Env) (rules : list (string * Rule)) (node : Rule) :
  appends (visit_Rule E rules node).
Proof.
  unfold visit_Rule. cbv zeta.
  do 5 (apply appends_bind; [repeat step_rule|intros _]).
  apply appends_emit_body.
Qed.

Lemma appends_emit_todo (E : Env) (rules : list (string * Rule)) (fuel : nat) :
  appends (emit_todo E rules fuel).
Proof.
  induction fuel as [|fuel IH]; simpl.
  - repeat step_output.
  - apply appends_bind; [apply quiet_appends, quiet_gets|]. intros t.
    destruct t as [|kv t]; [apply quiet_appends, quiet_ret|].
    apply appends_bind; [|intros _; apply IH].
    apply appends_forM_. intros [rulename rule].
    apply appends_bind; [by apply quiet_appends, quiet_state_only|]. intros _.
    apply appends_bind; [apply appends_print_empty|]. intros _.
    apply appends_visit_Rule.
Qed.

Lemma quiet_Rule_collect_todo (E : Env) (rule : Rule) : quiet (Rule_collect_todo E rule).
Proof.
  unfold Rule_collect_todo. apply quiet_forM_. intros alt.
  apply quiet_forM_. intros item.
  apply quiet_bind; [apply quiet_visit|]. intros _. apply quiet_ret.
Qed.

Lemma quiet_collect_todo (E : Env) (fuel : nat) (done : list string) :
  quiet (collect_todo E fuel done).
Proof.
  revert done. induction fuel as [|fuel IH]; intros done; simpl.
  - apply quiet_bind; [apply quiet_gets|]. intros alltodo.
    destruct (filter _ alltodo); [apply quiet_ret|apply quiet_raise].
  - apply quiet_bind; [apply quiet_gets|]. intros alltodo.
    destruct (filter _ alltodo); [apply quiet_ret|].
    apply quiet_bind; [|intros _; apply IH].
    apply quiet_forM_. intros rulename.
    apply quiet_bind; [apply quiet_gets|]. intros [rule|].
    + apply quiet_Rule_collect_todo.
    + apply quiet_raise.
Qed.

(** ** A grammar without [start] (C7) *)





(** ** Left recursion and leaders (C2, C3) *)

Lemma str_min_le_l (a b : string) : String.le (str_min a b) a.
Proof.
  unfold str_min. destruct (String.leb a b) eqn:H; [done|].
  destruct (total String.le a b) as [Hab|Hba]; [|done].
  unfold String.le in Hab. rewrite H in Hab. done.
Qed.

Lemma str_min_le_r (a b : string) : String.le (str_min a b) b.
Proof.
  unfold str_min. destruct (String.leb a b) eqn:H; [|done].
  unfold String.le. by rewrite H.
Qed.

Lemma str_min_cases (a b : string) : str_min a b = a \/ str_min a b = b.
Proof. unfold str_min. destruct (String.leb a b); auto. Qed.

Lemma fold_str_min_spec (l : list string) (x : string) :
  fold_left str_min l x ∈ x :: l
  /\ forall y, y ∈ x :: l -> String.le (fold_left str_min l x) y.
Proof.
  revert x. induction l as [|a l IH]; intros x; simpl.
  - split; [by left|]. intros y ->%list_elem_of_singleton. done.
  - destruct (IH (str_min x a)) as [Hin Hle]. split.
    + apply elem_of_cons in Hin as [->|Hin].
      * destruct (str_min_cases x a) as [->| ->]; [by left|by right; left].
      * by right; right.
    + intros y Hy.
      assert (String.le (fold_left str_min l (str_min x a)) (str_min x a)) as Hm
        by (apply Hle; by left).
      apply elem_of_cons in Hy as [->|Hy].
      * etrans; [exact Hm|apply str_min_le_l].
      * apply elem_of_cons in Hy as [->|Hy].
        -- etrans; [exact Hm|apply str_min_le_r].
        -- apply Hle. by right.
Qed.

Lemma set_min_Some (s : gset string) (m : string) :
  set_min s = Some m -> m ∈ s /\ forall x, x ∈ s -> String.le m x.
Proof.
  unfold set_min, list_min.
  destruct (elements s) as [|x l] eqn:Hel; [done|]. intros [= <-].
  destruct (fold_str_min_spec l x) as [Hin Hle]. rewrite <- Hel in Hin, Hle.
  split; [by apply elem_of_elements|].
  intros y Hy. by apply Hle, elem_of_elements.
Qed.

Lemma set_min_None (s : gset string) : set_min s = None -> s = ∅.
Proof.
  unfold set_min, list_min.
  destruct (elements s) as [|x l] eqn:Hel; [|done]. intros _.
  by apply elements_empty_inv in Hel as ->%leibniz_equiv.
Qed.

Lemma least_unique (s : gset string) (a b : string) :
  a ∈ s -> b ∈ s ->
  (forall x, x ∈ s -> String.le a x) -> (forall x, x ∈ s -> String.le b x) -> a = b.
Proof. intros Ha Hb Hla Hlb. apply (anti_symm String.le); auto. Qed.

Lemma update_rule_inr (f : Rule -> Rule) (name : string) (rs rs' : list (string * Rule)) :
  update_rule f name rs = inr rs' ->
  is_Some (Dict.get name rs)
  /\ forall k, Dict.get k rs' = if decide (k = name) then f <$> Dict.get k rs
                                else Dict.get k rs.
Proof.
  unfold update_rule. destruct (Dict.get name rs) as [r|] eqn:Hget; [|done].
  intros [= <-]. split; [by eexists|]. intros k. destruct (decide (k = name)) as [->|Hne].
  - by rewrite Dict_get_set_eq, Hget.
  - by apply Dict_get_set_ne.
Qed.

Lemma update_rule_inl (f : Rule -> Rule) (name : string) (rs : list (string * Rule)) (e : exn) :
  update_rule f name rs = inl e -> Dict.get name rs = None /\ e = KeyError name.
Proof.
  unfold update_rule. destruct (Dict.get name rs); [done|]. by intros [= <-].
Qed.

Lemma set_left_recursive_idemp (r : Rule) :
  set_left_recursive (set_left_recursive r) = set_left_recursive r.
Proof. done. Qed.

(** The loop [for name in scc: rules[name].left_recursive = True]. *)
Lemma mark_left_recursive_inr (names : list string) (rs rs' : list (string * Rule)) :
  rfold (fun rs name => update_rule set_left_recursive name rs) names rs = inr rs' ->
  (forall k, k ∈ names -> is_Some (Dict.get k rs))
  /\ forall k, Dict.get k rs' = if decide (k ∈ names) then set_left_recursive <$> Dict.get k rs
                                else Dict.get k rs.
Proof.
  revert rs. induction names as [|n names IH]; intros rs; cbn [rfold].
  - intros [= <-]. split; [by intros k ?%elem_of_nil|].
    intros k. by rewrite decide_False by apply not_elem_of_nil.
  - destruct (update_rule set_left_recursive n rs) as [e|rs1] eqn:Hup; [done|].
    cbn [rbind]. intros Hfold. apply update_rule_inr in Hup as [Hn Hget1].
    apply IH in Hfold as [Hsome Hget']. split.
    + intros k [->|Hk]%elem_of_cons; [done|].
      specialize (Hsome k Hk). rewrite Hget1 in Hsome.
      destruct (decide (k = n)) as [->|]; [done|done].
    + intros k. rewrite Hget', Hget1.
      destruct (decide (k ∈ names)) as [Hk|Hk], (decide (k = n)) as [->|Hne].
      * rewrite decide_True by (by left).
        destruct (Dict.get n rs); simpl; [|done]. by rewrite set_left_recursive_idemp.
      * by rewrite decide_True by (by right).
      * by rewrite decide_True by (by left).
      * rewrite decide_False; [done|]. by intros [?|?]%elem_of_cons.
Qed.

Lemma mark_left_recursive_total (names : list string) (rs : list (string * Rule)) :
  (forall k, k ∈ names -> is_Some (Dict.get k rs)) ->
  exists rs', rfold (fun rs name => update_rule set_left_recursive name rs) names rs = inr rs'.
Proof.
  revert rs. induction names as [|n names IH]; intros rs Hsome; cbn [rfold]; [by eexists|].
  destruct (Hsome n) as [r Hr]; [by left|].
  unfold update_rule at 1. rewrite Hr. cbn [rbind].
  apply IH. intros k Hk. destruct (decide (k = n)) as [->|Hne].
  - by rewrite Dict_get_set_eq.
  - rewrite Dict_get_set_ne by done. apply Hsome. by right.
Qed.

Lemma mark_left_recursive_inl (names : list string) (rs : list (string * Rule)) (e : exn) :
  rfold (fun rs name => update_rule set_left_recursive name rs) names rs = inl e ->
  exists k, k ∈ names /\ Dict.get k rs = None /\ e = KeyError k.
Proof.
  revert rs. induction names as [|n names IH]; intros rs; cbn [rfold]; [done|].
  destruct (update_rule set_left_recursive n rs) as [e'|rs1] eqn:Hup; cbn [rbind].
  - intros [= <-]. apply update_rule_inl in Hup as [Hn ->].
    exists n. split; [by left|done].
  - intros Hfold. apply IH in Hfold as (k & Hk & Hnone & ->).
    apply update_rule_inr in Hup as [_ Hget]. rewrite Hget in Hnone.
    exists k. split; [by right|]. split; [|done].
    destruct (decide (k = n)); [|done].
    by destruct (Dict.get k rs).
Qed.

Section Leaders.
Variable A : Analyses.
Variable graph : gmap string (gset string).
Variable scc : gset string.

Lemma prune_step_inr (leaders leaders' : gset string) (cycle : list string) :
  prune_step A scc leaders cycle = inr leaders' ->
  leaders' <> ∅ /\ forall m, m ∈ leaders' <-> m ∈ leaders /\ (m ∈ scc -> m ∈ cycle).
Proof.
  unfold prune_step. case_bool_decide as Hempty; [done|]. intros [= <-].
  split; [done|]. intros m. rewrite !elem_of_difference, elem_of_list_to_set.
  destruct (decide (m ∈ scc)), (decide (m ∈ cycle)); tauto.
Qed.

Lemma prune_step_inl (leaders : gset string) (cycle : list string) (e : exn) :
  prune_step A scc leaders cycle = inl e ->
  e = ValueError (no_leader_message A scc)
  /\ forall m, m ∈ leaders -> ~ (m ∈ scc -> m ∈ cycle).
Proof.
  unfold prune_step. case_bool_decide as Hempty; [|done]. intros [= <-].
  split; [done|]. intros m Hm Hc.
  assert (m ∈ (∅ : gset string)) as []%not_elem_of_empty.
  rewrite <- Hempty, !elem_of_difference, elem_of_list_to_set. tauto.
Qed.

(** The inner loop, over the cycles of one start. *)
Lemma prune_cycles_spec (cycles : list (list string)) (leaders : gset string) :
  match rfold (prune_step A scc) cycles leaders with
  | inr leaders' =>
      (leaders' = leaders \/ leaders' <> ∅)
      /\ forall m, m ∈ leaders' <->
                   m ∈ leaders /\ forall c, c ∈ cycles -> m ∈ scc -> m ∈ c
  | inl e =>
      e = ValueError (no_leader_message A scc)
      /\ forall m, m ∈ leaders -> ~ forall c, c ∈ cycles -> m ∈ scc -> m ∈ c
  end.
Proof.
  revert leaders. induction cycles as [|c cycles IH]; intros leaders; cbn [rfold].
  - split; [by left|]. intros m. split; [|by intros [? _]].
    intros Hm. split; [done|]. by intros c ?%elem_of_nil.
  - destruct (prune_step A scc leaders c) as [e|leaders1] eqn:Hstep; cbn [rbind].
    + apply prune_step_inl in Hstep as [-> Hnone]. split; [done|].
      intros m Hm Hall. apply (Hnone m Hm). apply Hall. by left.
    + apply prune_step_inr in Hstep as [Hne Hiff].
      specialize (IH leaders1).
      destruct (rfold (prune_step A scc) cycles leaders1) as [e|leaders'].
      * destruct IH as [-> Hnone]. split; [done|].
        intros m Hm Hall. apply (Hnone m).
        -- apply Hiff. split; [done|]. apply Hall. by left.
        -- intros c' Hc'. apply Hall. by right.
      * destruct IH as [Hkeep Hiff']. split.
        -- right. by destruct Hkeep as [->|?].
        -- intros m. rewrite Hiff', Hiff. split.
           ++ intros [[Hm Hc] Hrest]. split; [done|].
              intros c' [->|Hc']%elem_of_cons; auto.
           ++ intros [Hm Hall]. split; [split; [done|]|].
              ** apply Hall. by left.
              ** intros c' Hc'. apply Hall. by right.
Qed.

(** The outer loop, over the starts. *)
Lemma prune_starts_spec (starts : list string) (leaders : gset string) :
  match rfold (fun leaders start =>
                 rfold (prune_step A scc) (find_cycles_in_scc A graph scc start) leaders)
              starts leaders with
  | inr leaders' =>
      (leaders' = leaders \/ leaders' <> ∅)
      /\ forall m, m ∈ leaders' <->
           m ∈ leaders
           /\ forall start c, start ∈ starts -> c ∈ find_cycles_in_scc A graph scc start ->
                              m ∈ scc -> m ∈ c
  | inl e =>
      e = ValueError (no_leader_message A scc)
      /\ forall m, m ∈ leaders ->
           ~ forall start c, start ∈ starts -> c ∈ find_cycles_in_scc A graph scc start ->
                             m ∈ scc -> m ∈ c
  end.
Proof.
  revert leaders. induction starts as [|s starts IH]; intros leaders; cbn [rfold].
  - split; [by left|]. intros m. split; [|by intros [? _]].
    intros Hm. split; [done|]. by intros s c ?%elem_of_nil.
  - pose proof (prune_cycles_spec (find_cycles_in_scc A graph scc s) leaders) as Hin.
    destruct (rfold (prune_step A scc) (find_cycles_in_scc A graph scc s) leaders)
      as [e|leaders1]; cbn [rbind].
    + destruct Hin as [-> Hnone]. split; [done|].
      intros m Hm Hall. apply (Hnone m Hm). intros c Hc. apply (Hall s c); [by left|done].
    + destruct Hin as [Hkeep1 Hiff1]. specialize (IH leaders1).
      destruct (rfold _ starts leaders1) as [e|leaders'].
      * destruct IH as [-> Hnone]. split; [done|].
        intros m Hm Hall. apply (Hnone m).
        -- apply Hiff1. split; [done|]. intros c Hc. apply (Hall s c); [by left|done].
        -- intros s' c Hs'. apply Hall. by right.
      * destruct IH as [Hkeep Hiff']. split.
        -- destruct Hkeep as [->|?]; [|by right]. destruct Hkeep1 as [->|?]; auto.
        -- intros m. rewrite Hiff', Hiff1. split.
           ++ intros [[Hm Hc] Hrest]. split; [done|].
              intros s' c [->|Hs']%elem_of_cons; eauto.
           ++ intros [Hm Hall]. split; [split; [done|]|].
              ** intros c Hc. apply (Hall s c); [by left|done].
              ** intros s' c Hs'. apply Hall. by right.
Qed.

Lemma prune_leaders_spec :
  match prune_leaders A graph scc with
  | inr leaders =>
      (leaders = scc \/ leaders <> ∅)
      /\ forall m, m ∈ leaders <-> m ∈ scc /\ in_every_cycle A graph scc m
  | inl e =>
      e = ValueError (no_leader_message A scc)
      /\ forall m, m ∈ scc -> ~ in_every_cycle A graph scc m
  end.
Proof.
  unfold prune_leaders. pose proof (prune_starts_spec (elements scc) scc) as H.
  destruct (rfold _ (elements scc) scc) as [e|leaders].
  - destruct H as [-> Hnone]. split; [done|].
    intros m Hm Hall. apply (Hnone m Hm).
    intros s c Hs%elem_of_elements Hc _. by apply (Hall s c).
  - destruct H as [Hkeep Hiff]. split; [done|].
    intros m. rewrite Hiff. split.
    + intros [Hm Hall]. split; [done|].
      intros s c Hs Hc. apply (Hall s c); [by apply elem_of_elements|done..].
    + intros [Hm Hall]. split; [done|].
      intros s c Hs%elem_of_elements Hc _. by apply (Hall s c).
Qed.

End Leaders.

Section FlagScc.
Variable A : Analyses.
Variable graph : gmap string (gset string).

Lemma flag_scc_big_inr (rs rs' : list (string * Rule)) (scc : gset string) :
  1 < size scc -> flag_scc A graph rs scc = inr rs' ->
  exists l, is_leader_of A graph scc l
    /\ (forall k, k ∈ scc -> exists r,
          Dict.get k rs = Some r
          /\ Dict.get k rs'
             = Some (if decide (k = l) then set_leader (set_left_recursive r)
                     else set_left_recursive r))
    /\ (forall k, k ∉ scc -> Dict.get k rs' = Dict.get k rs).
Proof.
  intros Hsize%Nat.ltb_lt. unfold flag_scc. rewrite Hsize.
  destruct (rfold _ (elements scc) rs) as [e|rules1] eqn:Hmark; [done|]. cbn [rbind].
  pose proof (prune_leaders_spec A graph scc) as Hprune.
  destruct (prune_leaders A graph scc) as [e|leaders]; [done|]. cbn [rbind].
  destruct Hprune as [_ Hiff].
  destruct (set_min leaders) as [l|] eqn:Hmin; [|done].
  intros Hup. apply set_min_Some in Hmin as [Hl Hleast].
  apply update_rule_inr in Hup as [_ Hget'].
  apply mark_left_recursive_inr in Hmark as [Hsome Hget1].
  apply Hiff in Hl as Hl'. destruct Hl' as [Hlscc Hlcyc].
  exists l. split; [|split].
  - split; [done|]. split; [done|]. intros m Hm Hmc. apply Hleast, Hiff. done.
  - intros k Hk. destruct (Hsome k) as [r Hr]; [by apply elem_of_elements|].
    exists r. split; [done|]. rewrite Hget', Hget1, Hr.
    destruct (decide (k ∈ elements scc)) as [_|Hn];
      [|by rewrite elem_of_elements in Hn].
    by destruct (decide (k = l)).
  - intros k Hk. rewrite Hget', Hget1.
    destruct (decide (k ∈ elements scc)) as [Hn|_];
      [by rewrite elem_of_elements in Hn|].
    destruct (decide (k = l)) as [->|]; [done|done].
Qed.

Lemma flag_scc_big_inl (rs : list (string * Rule)) (scc : gset string) (e : exn) :
  1 < size scc -> flag_scc A graph rs scc = inl e ->
  (exists k, k ∈ scc /\ Dict.get k rs = None /\ e = KeyError k)
  \/ (e = ValueError (no_leader_message A scc)
      /\ forall m, m ∈ scc -> ~ in_every_cycle A graph scc m).
Proof.
  intros Hsize. assert (scc <> ∅) as Hne.
  { intros ->. rewrite size_empty in Hsize. lia. }
  apply Nat.ltb_lt in Hsize. unfold flag_scc. rewrite Hsize.
  destruct (rfold _ (elements scc) rs) as [e'|rules1] eqn:Hmark; cbn [rbind].
  { intros [= <-]. left. apply mark_left_recursive_inl in Hmark as (k & Hk & Hnone & ->).
    exists k. by rewrite <- elem_of_elements. }
  pose proof (prune_leaders_spec A graph scc) as Hprune.
  destruct (prune_leaders A graph scc) as [e'|leaders]; cbn [rbind].
  { intros [= <-]. by right. }
  destruct Hprune as [Hkeep Hiff].
  destruct (set_min leaders) as [l|] eqn:Hmin.
  - intros Hup. exfalso. apply set_min_Some in Hmin as [Hl _].
    apply update_rule_inl in Hup as [Hnone _].
    apply mark_left_recursive_inr in Hmark as [Hsome Hget1].
    apply Hiff in Hl as [Hl _]. apply elem_of_elements in Hl.
    rewrite Hget1 in Hnone. destruct (decide (l ∈ elements scc)); [|done].
    destruct (Hsome l) as [r Hr]; [done|]. by rewrite Hr in Hnone.
  - intros _. exfalso. apply set_min_None in Hmin as ->.
    by destruct Hkeep as [<-|?].
Qed.

(** With every member a rule, a component of more than one member is
    flagged exactly when it has a leader candidate. *)
Lemma flag_scc_big_total (rs : list (string * Rule)) (scc : gset string) :
  1 < size scc -> (forall k, k ∈ scc -> is_Some (Dict.get k rs)) ->
  match flag_scc A graph rs scc with
  | inr _ => exists m, m ∈ scc /\ in_every_cycle A graph scc m
  | inl e => e = ValueError (no_leader_message A scc)
             /\ forall m, m ∈ scc -> ~ in_every_cycle A graph scc m
  end.
Proof.
  intros Hsize Hkeys. destruct (flag_scc A graph rs scc) as [e|rs'] eqn:Hflag.
  - apply flag_scc_big_inl in Hflag as [(k & Hk & Hnone & _)|H]; [|done..].
    destruct (Hkeys k Hk) as [r Hr]. by rewrite Hr in Hnone.
  - apply flag_scc_big_inr in Hflag as (l & (Hl & Hcyc & _) & _); [|done].
    by exists l.
Qed.

Lemma flag_scc_small_inr (rs rs' : list (string * Rule)) (scc : gset string) :
  size scc <= 1 -> flag_scc A graph rs scc = inr rs' ->
  exists n, scc = {[n]}
    /\ (self_edge graph n -> exists r,
          Dict.get n rs = Some r
          /\ Dict.get n rs' = Some (set_leader (set_left_recursive r)))
    /\ (~ self_edge graph n -> rs' = rs)
    /\ (forall k, k <> n -> Dict.get k rs' = Dict.get k rs).
Proof.
  intros Hsize. unfold flag_scc.
  destruct (1 <? size scc) eqn:Hlt; [apply Nat.ltb_lt in Hlt; lia|].
  destruct (set_min scc) as [n|] eqn:Hmin; [|done].
  apply set_min_Some in Hmin as [Hn _].
  assert (scc = {[n]}) as ->.
  { assert (size scc = 1) as Hone.
    { destruct (size scc) as [|[|?]] eqn:Hs; [|done|lia].
      apply size_empty_inv in Hs. by apply Hs in Hn. }
    apply size_1_elem_of in Hone as [x Hx]. apply leibniz_equiv in Hx. subst.
    by apply elem_of_singleton in Hn as ->. }
  destruct (graph !! n) as [succs|] eqn:Hsuccs; [|done].
  intros Hup2. exists n. split; [done|]. case_bool_decide as Hedge.
  - destruct (update_rule set_left_recursive n rs) as [e|rs1] eqn:Hup1; [done|].
    cbn [rbind] in Hup2.
    apply update_rule_inr in Hup1 as [[r Hr] Hget1].
    apply update_rule_inr in Hup2 as [_ Hget2].
    split; [|split].
    + intros _. exists r. split; [done|].
      rewrite Hget2, Hget1, Hr. by rewrite !decide_True by done.
    + intros []. by exists succs.
    + intros k Hk. rewrite Hget2, Hget1. by rewrite !decide_False by done.
  - injection Hup2 as <-. split; [|split; [done|done]].
    intros (succs' & Hs' & Hin). by simplify_eq.
Qed.

Lemma flag_scc_small_total (rs : list (string * Rule)) (scc : gset string) :
  size scc <= 1 -> scc <> ∅ ->
  (forall n, n ∈ scc -> is_Some (graph !! n)) ->
  (forall n, n ∈ scc -> self_edge graph n -> is_Some (Dict.get n rs)) ->
  exists rs', flag_scc A graph rs scc = inr rs'.
Proof.
  intros Hsize Hne Hgraph Hkeys. unfold flag_scc.
  destruct (1 <? size scc) eqn:Hlt; [apply Nat.ltb_lt in Hlt; lia|].
  destruct (set_min scc) as [n|] eqn:Hmin; [|by apply set_min_None in Hmin].
  apply set_min_Some in Hmin as [Hn _].
  destruct (Hgraph n Hn) as [succs Hsuccs]. rewrite Hsuccs.
  case_bool_decide as Hedge; [|by eexists].
  destruct (Hkeys n Hn) as [r Hr]; [by exists succs|].
  unfold update_rule at 1. rewrite Hr. cbn [rbind].
  unfold update_rule. rewrite Dict_get_set_eq. by eexists.
Qed.

Lemma flag_scc_frame (rs rs' : list (string * Rule)) (scc : gset string) :
  flag_scc A graph rs scc = inr rs' ->
  forall k, k ∉ scc -> Dict.get k rs' = Dict.get k rs.
Proof.
  intros Hflag k Hk. destruct (decide (1 < size scc)) as [Hbig|Hsmall].
  - apply flag_scc_big_inr in Hflag as (l & _ & _ & Hframe); [|done]. by apply Hframe.
  - apply flag_scc_small_inr in Hflag as (n & -> & _ & _ & Hframe); [|lia].
    apply Hframe. intros ->. apply Hk. by apply elem_of_singleton.
Qed.

(** Flagging a component keeps every rule name. *)
Lemma flag_scc_keys (rs rs' : list (string * Rule)) (scc : gset string) :
  flag_scc A graph rs scc = inr rs' ->
  forall k, is_Some (Dict.get k rs') <-> is_Some (Dict.get k rs).
Proof.
  intros Hflag k. destruct (decide (k ∈ scc)) as [Hk|Hk];
    [|by rewrite (flag_scc_frame _ _ _ Hflag k Hk)].
  destruct (decide (1 < size scc)) as [Hbig|Hsmall].
  - apply flag_scc_big_inr in Hflag as (l & _ & Hmem & _); [|done].
    destruct (Hmem k Hk) as (r & -> & ->). split; by eexists.
  - apply flag_scc_small_inr in Hflag as (n & -> & Hedge & Hno & _); [|lia].
    apply elem_of_singleton in Hk as ->.
    destruct (graph !! n) as [succs|] eqn:Hsuccs.
    + destruct (decide (n ∈ succs)) as [Hin|Hin].
      * destruct Hedge as (r & -> & ->); [by exists succs|]. split; by eexists.
      * rewrite Hno; [done|]. intros (succs' & ? & ?). by simplify_eq.
    + rewrite Hno; [done|]. intros (succs' & ? & ?). by simplify_eq.
Qed.

End FlagScc.

Lemma pairwise_disjoint_cons (s : gset string) (sccs : list (gset string)) :
  pairwise_disjoint (s :: sccs) ->
  pairwise_disjoint sccs /\ forall t, t ∈ sccs -> s ## t.
Proof.
  intros Hdisj. split.
  - intros i j a b Hij Ha Hb. apply (Hdisj (S i) (S j)); [lia|done..].
  - intros t [j Hj]%list_elem_of_lookup. by apply (Hdisj 0 (S j)).
Qed.

Section FlagSccs.
Variable A : Analyses.
Variable graph : gmap string (gset string).

Lemma flag_sccs_frame (sccs : list (gset string)) (rs rs' : list (string * Rule)) :
  rfold (flag_scc A graph) sccs rs = inr rs' ->
  forall k, (forall scc, scc ∈ sccs -> k ∉ scc) -> Dict.get k rs' = Dict.get k rs.
Proof.
  revert rs. induction sccs as [|s sccs IH]; intros rs; cbn [rfold].
  - by intros [= <-].
  - destruct (flag_scc A graph rs s) as [e|rs1] eqn:Hflag; [done|]. cbn [rbind].
    intros Hfold k Hk. rewrite (IH _ Hfold k) by (intros t Ht; apply Hk; by right).
    apply (flag_scc_frame _ _ _ _ _ Hflag). apply Hk. by left.
Qed.

Lemma flag_sccs_member (sccs : list (gset string)) (rs rs' : list (string * Rule)) :
  pairwise_disjoint sccs ->
  rfold (flag_scc A graph) sccs rs = inr rs' ->
  forall scc, scc ∈ sccs ->
  exists rs1 rs2,
    flag_scc A graph rs1 scc = inr rs2
    /\ (forall k, k ∈ scc -> Dict.get k rs1 = Dict.get k rs)
    /\ (forall k, k ∈ scc -> Dict.get k rs' = Dict.get k rs2).
Proof.
  revert rs. induction sccs as [|s sccs IH]; intros rs Hdisj; cbn [rfold].
  - by intros _ scc ?%elem_of_nil.
  - destruct (flag_scc A graph rs s) as [e|rsA] eqn:Hflag; [done|]. cbn [rbind].
    apply pairwise_disjoint_cons in Hdisj as [Hdisj Hs].
    intros Hfold scc [->|Hscc]%elem_of_cons.
    + exists rs, rsA. split; [done|]. split; [done|].
      intros k Hk. apply (flag_sccs_frame _ _ _ Hfold).
      intros t Ht Hkt. by apply (Hs t Ht k).
    + destruct (IH rsA Hdisj Hfold scc Hscc) as (rs1 & rs2 & Hf & Hbefore & Hafter).
      exists rs1, rs2. split; [done|]. split; [|done].
      intros k Hk. rewrite (Hbefore k Hk).
      apply (flag_scc_frame _ _ _ _ _ Hflag). intros Hks. by apply (Hs scc Hscc k).
Qed.

Lemma flag_sccs_total (sccs : list (gset string)) (rs : list (string * Rule)) :
  wf_sccs graph rs sccs ->
  (forall scc, scc ∈ sccs -> 1 < size scc ->
               exists m, m ∈ scc /\ in_every_cycle A graph scc m) ->
  exists rs', rfold (flag_scc A graph) sccs rs = inr rs'.
Proof.
  revert rs. induction sccs as [|s sccs IH]; intros rs Hwf Hcand; cbn [rfold];
    [by eexists|].
  destruct (Hwf s) as (Hne & Hgraph & Hkeys); [by left|].
  assert (exists rsA, flag_scc A graph rs s = inr rsA) as [rsA Hflag].
  { destruct (decide (1 < size s)) as [Hbig|Hsmall].
    - pose proof (flag_scc_big_total A graph rs s Hbig) as Htot.
      destruct (flag_scc A graph rs s) as [e|rsA]; [|by eexists].
      destruct Htot as [_ Hnone]; [by intros k Hk; apply Hkeys; auto|].
      destruct (Hcand s) as (m & Hm & Hcyc); [by left|done|]. by destruct (Hnone m).
    - apply flag_scc_small_total; [lia|done|done|]. intros n Hn He. apply Hkeys; auto. }
  rewrite Hflag. cbn [rbind]. apply IH.
  - intros t Ht. destruct (Hwf t) as (Hne' & Hgraph' & Hkeys'); [by right|].
    split; [done|]. split; [done|]. intros n Hn Hflagged.
    apply (flag_scc_keys _ _ _ _ _ Hflag). by apply Hkeys'.
  - intros t Ht. apply Hcand. by right.
Qed.

(** A component without a leader candidate stops the analysis. *)
Lemma flag_sccs_no_candidate (sccs : list (gset string)) (rs : list (string * Rule)) :
  (exists scc, scc ∈ sccs /\ 1 < size scc
               /\ forall m, m ∈ scc -> ~ in_every_cycle A graph scc m) ->
  (exists e, rfold (flag_scc A graph) sccs rs = inl e)
  /\ (wf_sccs graph rs sccs ->
      exists scc, scc ∈ sccs /\ 1 < size scc
        /\ (forall m, m ∈ scc -> ~ in_every_cycle A graph scc m)
        /\ rfold (flag_scc A graph) sccs rs = inl (ValueError (no_leader_message A scc))).
Proof.
  revert rs. induction sccs as [|s sccs IH]; intros rs (bad & Hbad & Hsize & Hnone).
  { by apply elem_of_nil in Hbad. }
  cbn [rfold]. destruct (flag_scc A graph rs s) as [e|rsA] eqn:Hflag; cbn [rbind].
  - split; [by eexists|]. intros Hwf.
    destruct (Hwf s) as (Hne & Hgraph & Hkeys); [by left|].
    destruct (decide (1 < size s)) as [Hbig|Hsmall].
    + apply flag_scc_big_inl in Hflag as [(k & Hk & Hknone & _)|[-> Hsnone]]; [| |done].
      * destruct (Hkeys k Hk) as [r Hr]; [by left|]. by rewrite Hr in Hknone.
      * exists s. split; [by left|done].
    + destruct (flag_scc_small_total A graph rs s) as [rs' Hok]; [lia|done|done| |].
      * intros n Hn He. apply Hkeys; auto.
      * by rewrite Hok in Hflag.
  - assert (bad ∈ sccs) as Hbad'.
    { apply elem_of_cons in Hbad as [->|?]; [|done].
      apply flag_scc_big_inr in Hflag as (l & (Hl & Hcyc & _) & _); [|done].
      by destruct (Hnone l). }
    destruct (IH rsA) as [Hfail Hmsg]; [by exists bad|]. split; [done|].
    intros Hwf. destruct Hmsg as (scc & Hscc & Hrest).
    + intros t Ht. destruct (Hwf t) as (Hne' & Hgraph' & Hkeys'); [by right|].
      split; [done|]. split; [done|]. intros n Hn Hflagged.
      apply (flag_scc_keys _ _ _ _ _ Hflag). by apply Hkeys'.
    + exists scc. split; [by right|done].
Qed.

End FlagSccs.

Lemma pairwise_disjoint_singleton (s : gset string) : pairwise_disjoint [s].
Proof. intros [|i] [|j] a b Hij Ha Hb; done. Qed.

(** C2. Let the components of the first-set graph be pairwise disjoint.
    When the analysis returns, then for every component: one of a single
    member [n] with [n] in [graph[n]] has its rule flagged left-recursive
    and leader; one of a single member without that edge leaves the rule as
    it was; in one of several members every member's rule is flagged
    left-recursive, and the leader flag is set for exactly one member and
    left as it was for the others: that member is the smallest, in the order
    of strings, of the members that occur in every cycle of the component.
    The analysis does return when the components fit the rules and each
    component of several members has a member that occurs in every cycle. *)
Theorem left_recursion_flags (A : Analyses) (rules : list (string * Rule)) :
  pairwise_disjoint (first_sccs A rules) ->
  (forall rules', compute_left_recursives A rules = inr rules' ->
     forall scc, scc ∈ first_sccs A rules ->
       (size scc = 1 ->
        exists n, scc = {[n]}
          /\ (self_edge (make_first_graph A rules) n ->
              exists r, Dict.get n rules = Some r
                /\ Dict.get n rules' = Some (set_leader (set_left_recursive r)))
          /\ (~ self_edge (make_first_graph A rules) n ->
              Dict.get n rules' = Dict.get n rules))
       /\ (1 < size scc ->
           exists l, is_leader_of A (make_first_graph A rules) scc l
             /\ forall m, m ∈ scc ->
                  exists r, Dict.get m rules = Some r
                    /\ Dict.get m rules'
                       = Some (if decide (m = l) then set_leader (set_left_recursive r)
                               else set_left_recursive r)))
  /\ (wf_sccs (make_first_graph A rules) rules (first_sccs A rules) ->
      (forall scc, scc ∈ first_sccs A rules -> 1 < size scc ->
         exists m, m ∈ scc /\ in_every_cycle A (make_first_graph A rules) scc m) ->
      exists rules', compute_left_recursives A rules = inr rules').
Proof.
  intros Hdisj. split.
  - intros rules' Hcomp scc Hscc. unfold compute_left_recursives in Hcomp.
    destruct (flag_sccs_member A _ _ _ _ Hdisj Hcomp scc Hscc)
      as (rs1 & rs2 & Hflag & Hbefore & Hafter).
    split.
    + intros Hone.
      apply flag_scc_small_inr in Hflag as (n & -> & Hedge & Hno & _); [|lia].
      assert (n ∈ ({[n]} : gset string)) as Hn by by apply elem_of_singleton.
      exists n. split; [done|]. split.
      * intros He. destruct (Hedge He) as (r & Hr & Hr'). exists r.
        by rewrite (Hafter n Hn), <- (Hbefore n Hn).
      * intros He. by rewrite (Hafter n Hn), (Hno He), (Hbefore n Hn).
    + intros Hbig.
      apply flag_scc_big_inr in Hflag as (l & Hl & Hmem & _); [|done].
      exists l. split; [done|]. intros m Hm.
      destruct (Hmem m Hm) as (r & Hr & Hr'). exists r.
      by rewrite (Hafter m Hm), <- (Hbefore m Hm).
  - intros Hwf Hcand. by apply flag_sccs_total.
Qed.

Lemma left_recursion_flags_witness :
  exists l,
    is_leader_of Sample.A_one_component
      (make_first_graph Sample.A_one_component
         [("a", new_Rule "a" None (mkRhs (inl 1) [mkAlt [Sample.item (NameLeaf "b")] None]));
          ("b", new_Rule "b" None (mkRhs (inl 2) [mkAlt [Sample.item (NameLeaf "a")] None]))])
      (dom (make_first_graph Sample.A_one_component
         [("a", new_Rule "a" None (mkRhs (inl 1) [mkAlt [Sample.item (NameLeaf "b")] None]));
          ("b", new_Rule "b" None (mkRhs (inl 2) [mkAlt [Sample.item (NameLeaf "a")] None]))]))
      l
    /\ forall m,
         m ∈ dom (make_first_graph Sample.A_one_component
           [("a", new_Rule "a" None (mkRhs (inl 1) [mkAlt [Sample.item (NameLeaf "b")] None]));
            ("b", new_Rule "b" None (mkRhs (inl 2) [mkAlt [Sample.item (NameLeaf "a")] None]))]) ->
         exists r,
           Dict.get m
             [("a", new_Rule "a" None (mkRhs (inl 1) [mkAlt [Sample.item (NameLeaf "b")] None]));
              ("b", new_Rule "b" None (mkRhs (inl 2) [mkAlt [Sample.item (NameLeaf "a")] None]))]
           = Some r
           /\ Dict.get m
                [("a", mkRule "a" None (mkRhs (inl 1) [mkAlt [Sample.item (NameLeaf "b")] None])
                         false true true);
                 ("b", mkRule "b" None (mkRhs (inl 2) [mkAlt [Sample.item (NameLeaf "a")] None])
                         false true false)]
              = Some (if decide (m = l) then set_leader (set_left_recursive r)
                      else set_left_recursive r).
Proof.
  destruct (left_recursion_flags Sample.A_one_component
              [("a", new_Rule "a" None (mkRhs (inl 1) [mkAlt [Sample.item (NameLeaf "b")] None]));
               ("b", new_Rule "b" None (mkRhs (inl 2) [mkAlt [Sample.item (NameLeaf "a")] None]))]
              (pairwise_disjoint_singleton _)) as [Hflags _].
  refine (proj2 (Hflags _ _ _ _) _).
  - vm_compute. reflexivity.
  - by left.
  - vm_compute. lia.
Defined.

(** C3. If some component of several members of the first-set graph has
    no member that occurs in every cycle of the component, the pass fails
    in the generator's constructor and nothing is written; when the
    components fit the rules, the error is the [ValueError] whose message
    names such a component. *)
Theorem no_leader_candidate_aborts (A : Analyses) (E : Env) (fuel : nat)
  (rules : list (string * Rule)) (filename : string) :
  (exists scc,
      scc ∈ first_sccs A (compute_nullables A rules) /\ 1 < size scc
      /\ forall m, m ∈ scc ->
           ~ in_every_cycle A (make_first_graph A (compute_nullables A rules)) scc m) ->
  (exists e, generation_pass A E fuel rules filename = (inl e, []))
  /\ (wf_sccs (make_first_graph A (compute_nullables A rules)) (compute_nullables A rules)
        (first_sccs A (compute_nullables A rules)) ->
      exists scc,
        scc ∈ first_sccs A (compute_nullables A rules) /\ 1 < size scc
        /\ (forall m, m ∈ scc ->
              ~ in_every_cycle A (make_first_graph A (compute_nullables A rules)) scc m)
        /\ generation_pass A E fuel rules filename
           = (inl (ValueError (no_leader_message A scc)), [])).
Proof.
  intros Hbad.
  destruct (flag_sccs_no_candidate A (make_first_graph A (compute_nullables A rules))
              (first_sccs A (compute_nullables A rules)) (compute_nullables A rules) Hbad)
    as [[e He] Hmsg].
  unfold generation_pass, CParserGenerator_init, compute_left_recursives.
  split.
  - exists e. by rewrite He.
  - intros Hwf. destruct (Hmsg Hwf) as (scc & Hscc & Hsize & Hnone & Hfold).
    exists scc. by rewrite Hfold.
Qed.

Lemma sample_two_cycles_graph :
  dom (make_first_graph Sample.A_one_component
         [("a", new_Rule "a" None (mkRhs (inl 1) [mkAlt [Sample.item (NameLeaf "b")] None]));
          ("b", new_Rule "b" None (mkRhs (inl 2) [mkAlt [Sample.item (NameLeaf "a")] None;
                                                   mkAlt [Sample.item (NameLeaf "c")] None]));
          ("c", new_Rule "c" None (mkRhs (inl 3) [mkAlt [Sample.item (NameLeaf "d")] None]));
          ("d", new_Rule "d" None (mkRhs (inl 4) [mkAlt [Sample.item (NameLeaf "c")] None;
                                                   mkAlt [Sample.item (NameLeaf "a")] None]))])
  = {["a"; "b"; "c"; "d"]}.
Proof. vm_compute. reflexivity. Qed.

Lemma sample_two_cycles_no_leader (m : string) :
  m ∈ ({["a"; "b"; "c"; "d"]} : gset string) ->
  ~ in_every_cycle Sample.A_one_component
      (make_first_graph Sample.A_one_component
         [("a", new_Rule "a" None (mkRhs (inl 1) [mkAlt [Sample.item (NameLeaf "b")] None]));
          ("b", new_Rule "b" None (mkRhs (inl 2) [mkAlt [Sample.item (NameLeaf "a")] None;
                                                   mkAlt [Sample.item (NameLeaf "c")] None]));
          ("c", new_Rule "c" None (mkRhs (inl 3) [mkAlt [Sample.item (NameLeaf "d")] None]));
          ("d", new_Rule "d" None (mkRhs (inl 4) [mkAlt [Sample.item (NameLeaf "c")] None;
                                                   mkAlt [Sample.item (NameLeaf "a")] None]))])
      {["a"; "b"; "c"; "d"]} m.
Proof.
  intros Hm Hall.
  assert (m ∈ ["a"; "b"; "a"] /\ m ∈ ["c"; "d"; "c"]) as [Hab Hcd].
  { split.
    - apply (Hall "a"); apply (bool_decide_unpack _); vm_compute; exact I.
    - apply (Hall "c"); apply (bool_decide_unpack _); vm_compute; exact I. }
  apply list_elem_of_In in Hab, Hcd. simpl in Hab, Hcd.
  destruct Hab as [<-|[<-|[<-|[]]]]; destruct Hcd as [H|[H|[H|[]]]]; discriminate H.
Qed.

Lemma no_leader_candidate_aborts_witness :
  exists e,
    generation_pass Sample.A_one_component Sample.E 2
      [("a", new_Rule "a" None (mkRhs (inl 1) [mkAlt [Sample.item (NameLeaf "b")] None]));
       ("b", new_Rule "b" None (mkRhs (inl 2) [mkAlt [Sample.item (NameLeaf "a")] None;
                                                mkAlt [Sample.item (NameLeaf "c")] None]));
       ("c", new_Rule "c" None (mkRhs (inl 3) [mkAlt [Sample.item (NameLeaf "d")] None]));
       ("d", new_Rule "d" None (mkRhs (inl 4) [mkAlt [Sample.item (NameLeaf "c")] None;
                                                mkAlt [Sample.item (NameLeaf "a")] None]))]
      "g.gram"
    = (inl e, []).
Proof.
  apply (no_leader_candidate_aborts Sample.A_one_component Sample.E 2 _ "g.gram").
  exists {["a"; "b"; "c"; "d"]}. split; [|split].
  - rewrite <- sample_two_cycles_graph. by left.
  - vm_compute. lia.
  - apply sample_two_cycles_no_leader.
Defined.

(** ** Fresh variable names *)

Lemma suffixed_inj (origname : string) (j k : nat) :
  suffixed origname j = suffixed origname k -> j = k.
Proof.
  unfold suffixed, str_nat. intros H.
  apply (inj (String.app origname)) in H.
  apply (inj (String.app "_")) in H.
  by apply (inj pretty) in H.
Qed.

Lemma suffixed_pigeonhole (origname : string) (names : list string) (k : nat) :
  (forall j, 1 <= j < S k -> suffixed origname j ∈ names) -> k <= length names.
Proof.
  intros Hall.
  assert ((suffixed origname <$> seq 1 k) ⊆+ names) as Hsub.
  { apply NoDup_submseteq.
    - apply NoDup_fmap_2_strong; [|apply NoDup_seq].
      intros i j _ _. apply suffixed_inj.
    - intros x (j & -> & Hj%elem_of_seq)%list_elem_of_fmap. apply Hall. lia. }
  apply submseteq_length in Hsub. by rewrite length_fmap, length_seq in Hsub.
Qed.

(** The bound on the search is never reached: the name found is the
    first suffixed name that is not in use. *)
Lemma dedupe_from_spec (origname : string) (names : list string) (fuel k : nat) :
  1 <= k -> fuel + (k - 1) = length names ->
  (forall j, 1 <= j < k -> suffixed origname j ∈ names) ->
  exists k',
    dedupe_from fuel origname k names = suffixed origname k'
    /\ k <= k' /\ (suffixed origname k' ∉ names)
    /\ forall j, 1 <= j < k' -> suffixed origname j ∈ names.
Proof.
  revert k. induction fuel as [|fuel IH]; intros k Hk Hfuel Hbelow; simpl.
  - case_bool_decide as Hin; [|by exists k].
    assert (k <= length names); [|lia].
    apply (suffixed_pigeonhole origname). intros j Hj.
    destruct (decide (j = k)) as [->|]; [done|]. apply Hbelow. lia.
  - case_bool_decide as Hin; [|by exists k].
    destruct (IH (S k)) as (k' & Heq & Hle & Hfresh & Hall); [lia|lia| |].
    + intros j Hj. destruct (decide (j = k)) as [->|]; [done|]. apply Hbelow. lia.
    + exists k'. split; [done|]. split; [lia|done].
Qed.

Lemma dedupe_fresh (name : string) (names : list string) :
  snd (dedupe name names) = names ++ [fst (dedupe name names)]
  /\ (fst (dedupe name names) ∉ names)
  /\ (name ∉ names -> fst (dedupe name names) = name).
Proof.
  unfold dedupe. simpl. split; [done|]. case_bool_decide as Hin; [|done].
  split; [|done].
  destruct (dedupe_from_spec name names (length names) 1) as (k' & -> & _ & Hfresh & _);
    [lia|lia| |done].
  intros j Hj. lia.
Qed.

(** * Further properties of the code *)

(** ** The planner's cache and work-list *)

Lemma grows_refl (g : Gen) : grows g g.
Proof. by repeat split. Qed.

Lemma grows_trans (g1 g2 g3 : Gen) : grows g1 g2 -> grows g2 g3 -> grows g1 g3.
Proof.
  intros (Hf & Hl & Hv & Hc & Hm & Ht) (Hf' & Hl' & Hv' & Hc' & Hm' & Ht').
  repeat split; [congruence|congruence|congruence|lia|by etrans|by etrans].
Qed.

Lemma Dict_keys_set {V} (k : string) (v : V) (d : list (string * V)) :
  Dict.keys (Dict.set k v d) = Dict.keys d
  \/ Dict.keys (Dict.set k v d) = Dict.keys d ++ [k].
Proof.
  induction d as [|[k' v'] d IH]; simpl; [by right|].
  destruct (String.eqb k k'); simpl; [by left|].
  destruct IH as [->| ->]; [by left|by right].
Qed.

Lemma Dict_keys_set_prefix {V} (k : string) (v : V) (d : list (string * V)) :
  Dict.keys d `prefix_of` Dict.keys (Dict.set k v d).
Proof.
  destruct (Dict_keys_set k v d) as [->| ->]; [done|by apply prefix_app_r].
Qed.

Lemma growing_ret {A} (a : A) : growing (ret a).
Proof. intros g r g' [= <- <-]. apply grows_refl. Qed.

Lemma growing_raise {A} (e : exn) : growing (@raise A e).
Proof. intros g r g' [= <- <-]. apply grows_refl. Qed.

Lemma growing_bind {A B} (m : M A) (k : A -> M B) :
  growing m -> (forall a, growing (k a)) -> growing (bind m k).
Proof.
  intros Hm Hk g r g' H.
  apply bind_inv in H as [(e & Hg & ->)|(a & g1 & Hg & Hk')].
  - by apply Hm in Hg.
  - eapply grows_trans; [by eapply Hm|by eapply Hk].
Qed.

Lemma growing_name_node (rhs : Rhs) : growing (name_node rhs).
Proof.
  intros g r g' [= <- <-]. repeat split; simpl; [lia|done|apply Dict_keys_set_prefix].
Qed.

Lemma growing_name_loop (node : Item) (is_repeat1 : bool) :
  growing (name_loop node is_repeat1).
Proof.
  intros g r g' [= <- <-]. repeat split; simpl; [lia|done|apply Dict_keys_set_prefix].
Qed.

Lemma growing_visit_StringLeaf (E : Env) (value : string) : growing (visit_StringLeaf E value).
Proof.
  unfold visit_StringLeaf. repeat case_match; auto using @growing_ret, @growing_raise.
Qed.

Lemma growing_lookahead_call (call : string) (positive : nat) :
  growing (lookahead_call call positive).
Proof.
  unfold lookahead_call. repeat case_match; auto using @growing_ret, @growing_raise.
Qed.

(** A plan entered for an object not planned before. *)
Lemma grows_cache_set (g g1 : Gen) (uid : oid) (p : plan) :
  cache g !! uid = None -> grows g g1 ->
  grows g (with_cache (<[uid := p]> (cache g1)) g1).
Proof.
  intros Hnone (Hf & Hl & Hv & Hc & Hm & Ht).
  repeat split; simpl; [done|done|done|done| |done].
  by apply insert_subseteq_r.
Qed.

Lemma growing_visit_Repeat (uid : oid) (node : Item) (is_repeat1 : bool) :
  growing (visit_Repeat uid node is_repeat1).
Proof.
  intros g r g'. unfold visit_Repeat, bind at 1, cache_get, gets.
  destruct (cache g !! uid) as [p|] eqn:Hc; [by apply growing_ret|].
  unfold bind, name_loop, cache_set, modify, ret. intros [= <- <-].
  apply (grows_cache_set g (snd (name_loop node is_repeat1 g))); [done|].
  by eapply growing_name_loop.
Qed.

Fixpoint growing_visit (E : Env) (node : Item) {struct node} : growing (visit E node)
with growing_visit_Rhs (E : Env) (node : Rhs) {struct node}
  : growing (CCallMakerVisitor.visit_Rhs E node).
Proof.
  - destruct node as [value|value|inner|uid inner|uid inner|rhs|inner|inner]; simpl.
    + apply growing_ret.
    + apply growing_visit_StringLeaf.
    + apply growing_bind; [apply growing_visit|]. intros p. apply growing_ret.
    + apply growing_visit_Repeat.
    + apply growing_visit_Repeat.
    + apply growing_visit_Rhs.
    + apply growing_bind; [apply growing_visit|]. intros p. apply growing_lookahead_call.
    + apply growing_bind; [apply growing_visit|]. intros p. apply growing_lookahead_call.
  - destruct node as [uid alts]. intros g r g'. simpl.
    unfold bind at 1, cache_get, gets.
    destruct (cache g !! uid) as [p|] eqn:Hc; [by apply growing_ret|].
    assert (bind (name_node (mkRhs uid alts))
                 (fun name => bind (cache_set uid (helper_plan name))
                                   (fun _ => ret (helper_plan name))) g = (r, g')
            -> grows g g') as Hhelper.
    { unfold bind, name_node, cache_set, modify, ret. intros [= <- <-].
      apply (grows_cache_set g (snd (name_node (mkRhs uid alts) g))); [done|].
      by eapply growing_name_node. }
    destruct alts as [|[items action] alts']; [exact Hhelper|].
    destruct items as [|[name item] items']; [by destruct alts'|].
    destruct alts'; [|by destruct items'].
    destruct items'; [|exact Hhelper].
    intros H. apply bind_inv in H as [(e & Hg & ->)|(a & g1 & Hg & Hk')].
    + by eapply growing_visit.
    + unfold bind, cache_set, modify, ret in Hk'. injection Hk' as <- <-.
      apply grows_cache_set; [done|]. by eapply growing_visit.
Qed.

(** X1. Planning an item, whether it returns or raises, writes nothing,
    keeps the indentation and the variable counter, never lowers the
    helper counter, keeps every plan that the cache holds, and leaves the
    keys of the work-list in place, new helpers coming after them. *)
Theorem planning_only_adds (E : Env) (node : Item) (g : Gen) :
  grows g (snd (visit E node g)).
Proof.
  destruct (visit E node g) as [r g'] eqn:H. by eapply growing_visit.
Qed.

(** A plan that was made is the plan at every later state of the cache. *)
Lemma visit_StringLeaf_pure (E : Env) (value : string) (g g2 : Gen) r g1 :
  visit_StringLeaf E value g = (r, g1) -> visit_StringLeaf E value g2 = (r, g2).
Proof.
  unfold visit_StringLeaf. repeat case_match; by intros [= <- <-].
Qed.

Lemma lookahead_call_pure (call : string) (positive : nat) (g g2 : Gen) r g1 :
  lookahead_call call positive g = (r, g1) -> lookahead_call call positive g2 = (r, g2).
Proof.
  unfold lookahead_call. repeat case_match; by intros [= <- <-].
Qed.

Lemma cached_plan_stable (m : M plan) (uid : oid) (g1 g2 : Gen) (p : plan) :
  cache g1 !! uid = Some p -> cache g1 ⊆ cache g2 ->
  bind (cache_get uid) (fun c => match c with Some q => ret q | None => m end) g2
  = (inr p, g2).
Proof.
  intros Hc Hsub. unfold bind, cache_get, gets.
  by rewrite (lookup_weaken _ _ _ _ Hc Hsub).
Qed.

Lemma visit_Repeat_stable (uid : oid) (node : Item) (is_repeat1 : bool)
  (g g1 g2 : Gen) (p : plan) :
  visit_Repeat uid node is_repeat1 g = (inr p, g1) -> cache g1 ⊆ cache g2 ->
  visit_Repeat uid node is_repeat1 g2 = (inr p, g2).
Proof.
  intros H Hsub. unfold visit_Repeat. apply (cached_plan_stable _ uid g1 g2 p); [|done].
  revert H. unfold visit_Repeat, bind at 1, cache_get, gets.
  destruct (cache g !! uid) as [q|] eqn:Hc; [by intros [= <- <-]|].
  unfold bind, name_loop, cache_set, modify, ret. intros [= <- <-]. simpl.
  apply lookup_insert_eq.
Qed.

Lemma visit_Rhs_stable (E : Env) (node : Rhs) (g g1 g2 : Gen) (p : plan) :
  CCallMakerVisitor.visit_Rhs E node g = (inr p, g1) -> cache g1 ⊆ cache g2 ->
  CCallMakerVisitor.visit_Rhs E node g2 = (inr p, g2).
Proof.
  destruct node as [uid alts]. intros H Hsub.
  assert (cache g1 !! uid = Some p) as Hc1.
  { revert H. simpl. unfold bind at 1, cache_get, gets.
    destruct (cache g !! uid) as [q|] eqn:Hc; [by intros [= <- <-]|].
    assert (bind (name_node (mkRhs uid alts))
                 (fun name => bind (cache_set uid (helper_plan name))
                                   (fun _ => ret (helper_plan name))) g = (inr p, g1)
            -> cache g1 !! uid = Some p) as Hhelper.
    { unfold bind, name_node, cache_set, modify, ret. intros [= <- <-]. simpl.
      apply lookup_insert_eq. }
    destruct alts as [|[items action] alts']; [exact Hhelper|].
    destruct items as [|[name item] items']; [by destruct alts'|].
    destruct alts'; [|by destruct items'].
    destruct items'; [|exact Hhelper].
    intros H. apply bind_inv in H as [(e & _ & [=])|(a & g' & Hg & Hk')].
    unfold bind, cache_set, modify, ret in Hk'. injection Hk' as <- <-. simpl.
    apply lookup_insert_eq. }
  simpl. unfold bind at 1, cache_get, gets.
  by rewrite (lookup_weaken _ _ _ _ Hc1 Hsub).
Qed.

Lemma visit_stable (E : Env) (node : Item) :
  forall (g g1 g2 : Gen) (p : plan),
    visit E node g = (inr p, g1) -> cache g1 ⊆ cache g2 ->
    visit E node g2 = (inr p, g2).
Proof.
  induction node as [value|value|inner IH|uid inner _|uid inner _|rhs|inner IH|inner IH];
    intros g g1 g2 p H Hsub; simpl in *.
  - by injection H as <- <-.
  - by eapply visit_StringLeaf_pure.
  - unfold visit_Opt in *.
    apply bind_inv in H as [(e & _ & [=])|(a & g' & Hg & [= <- <-])].
    by rewrite (bind_inr _ _ _ _ _ (IH _ _ _ _ Hg Hsub)).
  - by eapply visit_Repeat_stable.
  - by eapply visit_Repeat_stable.
  - by eapply visit_Rhs_stable.
  - unfold visit_PositiveLookahead, lookahead_call_helper in *.
    apply bind_inv in H as [(e & _ & [=])|(a & g' & Hg & Hk)].
    pose proof (lookahead_call_state (snd a) 1 g') as Hst. rewrite Hk in Hst.
    simpl in Hst. subst g'.
    rewrite (bind_inr _ _ _ _ _ (IH _ _ _ _ Hg Hsub)).
    by eapply lookahead_call_pure.
  - unfold visit_NegativeLookahead, lookahead_call_helper in *.
    apply bind_inv in H as [(e & _ & [=])|(a & g' & Hg & Hk)].
    pose proof (lookahead_call_state (snd a) 0 g') as Hst. rewrite Hk in Hst.
    simpl in Hst. subst g'.
    rewrite (bind_inr _ _ _ _ _ (IH _ _ _ _ Hg Hsub)).
    by eapply lookahead_call_pure.
Qed.

(** X2. Once an item has been planned, planning it again gives the same
    plan and changes nothing, so no second helper is allocated for it;
    this still holds after any other item has been planned in between,
    whether that planning returned or raised. *)
Theorem plan_is_kept (E : Env) (node other : Item) (g g1 : Gen) (p : plan) :
  visit E node g = (inr p, g1) ->
  visit E node g1 = (inr p, g1)
  /\ visit E node (snd (visit E other g1)) = (inr p, snd (visit E other g1)).
Proof.
  intros H. split.
  - by eapply visit_stable.
  - eapply visit_stable; [done|].
    destruct (visit E other g1) as [r g2] eqn:Hother.
    by apply growing_visit in Hother as (_ & _ & _ & _ & Hsub & _).
Qed.


Lemma plan_is_kept_witness :
  visit Sample.E (Repeat0 (inl 1) (NameLeaf "NAME"))
    (snd (visit Sample.E (Group (mkRhs (inl 2) []))
            (snd (visit Sample.E (Repeat0 (inl 1) (NameLeaf "NAME")) (Sample.g0 [])))))
  = (inr (Some "_loop0_1_var", "_loop0_1_rule(p)"),
     snd (visit Sample.E (Group (mkRhs (inl 2) []))
            (snd (visit Sample.E (Repeat0 (inl 1) (NameLeaf "NAME")) (Sample.g0 []))))).
Proof.
  apply (plan_is_kept Sample.E (Repeat0 (inl 1) (NameLeaf "NAME")) (Group (mkRhs (inl 2) []))
           (Sample.g0 [])).
  vm_compute. reflexivity.
Defined.

(** ** Helper names *)

Lemma str_nat_inj (m n : nat) : str_nat m = str_nat n -> m = n.
Proof. apply (inj pretty). Qed.

Lemma app_inj_l (s t u : string) : s +:+ t = s +:+ u -> t = u.
Proof. apply (inj (String.app s)). Qed.

(** X3. The name of a helper tells its kind to the emitter.  [name_loop]
    enters in the work-list, under the name it returns, a rule whose body
    is the one alternative made of the repeated item; [visit_Rule]'s test
    [startswith('_loop1')] on that name gives back the flag the helper was
    allocated with, the rule is a loop and its result type is the
    sequence type.  The rule that [name_node] enters is never taken for a
    loop.  Either call raises the helper counter by one and replaces
    whatever the work-list held under the name. *)
Theorem helper_names_encode_kind (node : Item) (is_repeat1 : bool) (rhs : Rhs) (g : Gen) :
  (exists name g' rule,
      name_loop node is_repeat1 g = (inr name, g')
      /\ Dict.get name (todo g') = Some rule
      /\ rule = new_Rule name None
                  (mkRhs (inr (S (counter g))) [mkAlt [mkNamedItem None node] None])
      /\ is_loop rule = true
      /\ startswith "_loop1" (rule_name rule) = is_repeat1
      /\ c_type rule = "asdl_seq *"
      /\ counter g' = S (counter g))
  /\ (exists name g' rule,
      name_node rhs g = (inr name, g')
      /\ Dict.get name (todo g') = Some rule
      /\ rule = new_Rule name None rhs
      /\ is_loop rule = false
      /\ c_type rule = "void *"
      /\ counter g' = S (counter g)).
Proof.
  split.
  - eexists _, _, _. split; [reflexivity|]. simpl.
    split; [apply Dict_get_set_eq|]. split; [reflexivity|].
    unfold c_type, is_loop. simpl. by destruct is_repeat1.
  - eexists _, _, _. split; [reflexivity|]. simpl.
    split; [apply Dict_get_set_eq|]. by split.
Qed.

(** X4. Two helpers never share a name.  Helpers of different kinds (a
    [_tmp_] helper, a [_loop0_] helper, a [_loop1_] helper) have
    different names, at whatever states of the generator they are
    allocated; helpers of the same kind have different names when they
    are allocated at different values of the counter, as any two
    allocations of a run are, each allocation raising the counter. *)
Theorem helper_names_distinct (node node' : Item) (b b' : bool) (rhs rhs' : Rhs) (g g' : Gen) :
  fst (name_node rhs g) <> fst (name_loop node b g')
  /\ (b <> b' -> fst (name_loop node b g) <> fst (name_loop node' b' g'))
  /\ (counter g <> counter g' ->
      fst (name_node rhs g) <> fst (name_node rhs' g')
      /\ fst (name_loop node b g) <> fst (name_loop node' b' g'))
  /\ counter (snd (name_node rhs g)) = S (counter g)
  /\ counter (snd (name_loop node b g)) = S (counter g).
Proof.
  simpl. split; [by destruct b|]. split; [by destruct b, b'|].
  split; [|done]. intros Hne. split.
  - intros [= H]. apply app_inj_l, str_nat_inj in H. lia.
  - destruct b, b'; intros [= H]; try done.
    all: apply str_nat_inj in H; lia.
Qed.

Lemma helper_names_distinct_witness :
  fst (name_node (mkRhs (inl 1) []) (Sample.g0 []))
  <> fst (name_node (mkRhs (inl 1) [])
            (snd (name_loop (NameLeaf "NAME") false (Sample.g0 []))))
  /\ fst (name_loop (NameLeaf "NAME") true (Sample.g0 []))
     <> fst (name_loop (NameLeaf "NAME") false
               (snd (name_node (mkRhs (inl 1) []) (Sample.g0 [])))).
Proof.
  split.
  - apply (helper_names_distinct (NameLeaf "NAME") (NameLeaf "NAME") false false
             (mkRhs (inl 1) []) (mkRhs (inl 1) []) (Sample.g0 [])
             (snd (name_loop (NameLeaf "NAME") false (Sample.g0 [])))).
    simpl. lia.
  - apply (helper_names_distinct (NameLeaf "NAME") (NameLeaf "NAME") true false
             (mkRhs (inl 1) []) (mkRhs (inl 1) []) (Sample.g0 [])
             (snd (name_node (mkRhs (inl 1) []) (Sample.g0 [])))).
    done.
Defined.


(** ** Lookaheads over leaves

    Reversal and stripping of text, and the digits of a number. *)

Lemma app_nil_r_s (s : string) : s +:+ "" = s.
Proof. induction s as [|a s IH]; [done|]. by rewrite app_cons, IH. Qed.

Lemma rev_app_app (s t acc : string) :
  String.rev_app (s +:+ t) acc = String.rev_app t (String.rev_app s acc).
Proof.
  revert acc. induction s as [|a s IH]; intros acc; [done|].
  rewrite app_cons. simpl. apply IH.
Qed.

Lemma rev_app_rev_app (s acc acc' : string) :
  String.rev_app (String.rev_app s acc) acc' = String.rev_app acc (s +:+ acc').
Proof.
  revert acc acc'. induction s as [|a s IH]; intros acc acc'; [done|].
  simpl. rewrite IH. by rewrite app_cons.
Qed.

Lemma rev_involutive (s : string) : String.rev (String.rev s) = s.
Proof. unfold String.rev. rewrite rev_app_rev_app. simpl. apply app_nil_r_s. Qed.

Lemma rev_snoc (s : string) (c : ascii) :
  String.rev (s +:+ String c "") = String c (String.rev s).
Proof. unfold String.rev. by rewrite rev_app_app. Qed.

(** Text that neither begins nor ends with a blank is its own [strip()]. *)
Lemma strip_id (a c : ascii) (s : string) :
  is_space a = false -> last_char (String a s) = Some c -> is_space c = false ->
  strip (String a s) = String a s.
Proof.
  intros Ha Hlast Hc. unfold strip.
  assert (lstrip (String a s) = String a s) as -> by (simpl; by rewrite Ha).
  rewrite (last_char_inv _ _ Hlast) at 1. rewrite rev_snoc.
  assert (lstrip (String c (String.rev (drop_last (String a s))))
          = String c (String.rev (drop_last (String a s)))) as -> by (simpl; by rewrite Hc).
  rewrite <- rev_snoc, <- (last_char_inv _ _ Hlast). apply rev_involutive.
Qed.

Lemma free_of_app (c : ascii) (s t : string) :
  free_of c (s +:+ t) = free_of c s && free_of c t.
Proof.
  unfold free_of. induction s as [|a s IH]; [done|].
  rewrite app_cons. simpl. by rewrite IH, andb_assoc.
Qed.

Lemma lower_free_of_paren (s : string) : free_of "(" s = true -> free_of "(" (lower s) = true.
Proof.
  unfold free_of. induction s as [|a s IH]; [done|]. simpl.
  intros [Ha Hs]%andb_prop. rewrite (IH Hs), andb_true_r.
  unfold lower_char. destruct (has_lower a) eqn:Hup; [|done].
  revert Hup. clear. destruct a as [[] [] [] [] [] [] [] []]; by vm_compute.
Qed.

Lemma is_digit_pretty_N_char (x : N) : is_digit (pretty_N_char x) = true.
Proof. unfold pretty_N_char. by repeat case_match. Qed.

Lemma pretty_N_go_digits (x : N) :
  forall s, forallb_string is_digit s = true ->
            forallb_string is_digit (pretty_N_go x s) = true
            /\ (s <> "" \/ (0 < x)%N -> pretty_N_go x s <> "").
Proof.
  induction (N.lt_wf_0 x) as [x _ IH]. intros s Hs.
  destruct (decide (0 < x)%N) as [Hx|Hx].
  - rewrite pretty_N_go_step by done.
    assert (x `div` 10 < x)%N as Hlt by (apply N.div_lt; lia).
    destruct (IH _ Hlt (String (pretty_N_char (x `mod` 10)) s)) as [Hd Hne].
    { simpl. by rewrite is_digit_pretty_N_char. }
    split; [done|]. intros _. apply Hne. by left.
  - assert (x = 0%N) as -> by lia. rewrite pretty_N_go_0.
    split; [done|]. intros [?|?]; [done|lia].
Qed.

Lemma str_Z_digits (z : Z) :
  (0 <= z)%Z -> forallb_string is_digit (str_Z z) = true /\ str_Z z <> "".
Proof.
  intros Hz. unfold str_Z, pretty, pretty_Z.
  destruct z as [|p|p]; [done| |lia].
  unfold pretty, pretty_N. simpl.
  destruct (pretty_N_go_digits (N.pos p) "" eq_refl) as [Hd Hne].
  split; [done|]. apply Hne. right. lia.
Qed.

Lemma digit_not_space (c : ascii) : is_digit c = true -> is_space c = false.
Proof. destruct c as [[] [] [] [] [] [] [] []]; by vm_compute. Qed.

Lemma digit_alnum (c : ascii) : is_digit c = true -> is_alnum c = true.
Proof. unfold is_alnum. intros ->. by rewrite orb_true_r. Qed.

Lemma forallb_string_impl (p q : ascii -> bool) (s : string) :
  (forall c, p c = true -> q c = true) ->
  forallb_string p s = true -> forallb_string q s = true.
Proof.
  intros Hpq. induction s as [|a s IH]; [done|]. simpl.
  intros [Ha Hs]%andb_prop. by rewrite (Hpq _ Ha), IH.
Qed.

Lemma forallb_string_last (p : ascii -> bool) (s : string) (c : ascii) :
  forallb_string p s = true -> last_char s = Some c -> p c = true.
Proof.
  induction s as [|a s IH]; [done|]. simpl.
  intros [Ha Hs]%andb_prop. destruct s as [|b s]; [by intros [= <-]|].
  by apply IH.
Qed.

Lemma last_char_cons (a : ascii) (s : string) : is_Some (last_char (String a s)).
Proof.
  revert a. induction s as [|b s IH]; intros a; [by eexists|].
  destruct (IH b) as [c Hc]. exists c. by rewrite <- Hc.
Qed.

(** Digits, after a blank, are an integer argument. *)
Lemma isalnum_strip_digits (s : string) :
  forallb_string is_digit s = true -> s <> "" ->
  isalnum (strip (String " " s)) = true.
Proof.
  intros Hd Hne. destruct s as [|a s]; [done|].
  assert (strip (String " " (String a s)) = strip (String a s)) as -> by done.
  pose proof Hd as Hd'. simpl in Hd'. apply andb_prop in Hd' as [Ha _].
  destruct (last_char_cons a s) as [c Hlast].
  rewrite (strip_id a c s); [| by apply digit_not_space | done
                             | by eapply digit_not_space, forallb_string_last].
  unfold isalnum. apply (forallb_string_impl is_digit); [apply digit_alnum|done].
Qed.

(** Quoted text, after a blank, is no integer argument. *)
Lemma isalnum_strip_quoted (val : string) :
  isalnum (strip (String " " (dq +:+ val +:+ dq))) = false.
Proof.
  assert (strip (String " " (dq +:+ val +:+ dq)) = strip (dq +:+ val +:+ dq)) as -> by done.
  change (dq +:+ val +:+ dq) with (String (ascii_of_nat 34) (val +:+ dq)).
  rewrite (strip_id _ (ascii_of_nat 34)); [done|done| |done].
  change (String (ascii_of_nat 34) (val +:+ dq))
    with ((String (ascii_of_nat 34) "") +:+ val +:+ String (ascii_of_nat 34) "").
  apply last_char_app_snoc.
Qed.

Lemma lookahead_wrapper_plain : lookahead_wrapper "p" = "lookahead".
Proof. reflexivity. Qed.

(** X5. A lookahead over a name, whose text has no opening parenthesis,
    plans to the wrapper without an extra argument: the polarity, the
    function the name stands for (the token function of a token class,
    the rule function of any other name) and the parser. *)
Theorem lookahead_over_a_name (E : Env) (positive : bool) (value : string) (g : Gen) :
  free_of "(" value = true ->
  visit E (lookahead_node positive (NameLeaf value)) g
  = (inr (None,
          "lookahead(" +:+ str_nat (polarity positive) +:+ ", "
          +:+ (if is_token_class value then lower value +:+ "_token" else value +:+ "_rule")
          +:+ ", p)"), g).
Proof.
  intros Hfree. rewrite visit_lookahead_node. simpl.
  unfold bind, ret, visit_NameLeaf.
  destruct (is_token_class value); simpl.
  - change (lower value +:+ "_token(p)") with (lower value +:+ "_token" +:+ "(" +:+ "p" +:+ ")").
    rewrite <- (app_assoc_s (lower value)).
    rewrite lookahead_call_plain.
    + by rewrite lookahead_wrapper_plain.
    + rewrite free_of_app, lower_free_of_paren; done.
  - change (value +:+ "_rule(p)") with (value +:+ "_rule" +:+ "(" +:+ "p" +:+ ")").
    rewrite <- (app_assoc_s value).
    rewrite lookahead_call_plain.
    + by rewrite lookahead_wrapper_plain.
    + rewrite free_of_app, Hfree; done.
Qed.

Lemma lookahead_over_a_name_witness :
  visit Sample.E (lookahead_node false (NameLeaf "expr")) (Sample.g0 [])
  = (inr (None, "lookahead(0, expr_rule, p)"), Sample.g0 [])
  /\ visit Sample.E (lookahead_node true (NameLeaf "NAME")) (Sample.g0 [])
     = (inr (None, "lookahead(1, name_token, p)"), Sample.g0 []).
Proof.
  split.
  - by apply (lookahead_over_a_name Sample.E false "expr" (Sample.g0 [])).
  - by apply (lookahead_over_a_name Sample.E true "NAME" (Sample.g0 [])).
Defined.

(** X6. A lookahead over a string leaf: a keyword plans to the wrapper
    with a string argument, the quoted keyword; a punctuation literal
    whose token type is not negative plans to the wrapper with an
    integer argument, the type's decimal digits. *)
Theorem lookahead_over_a_string_leaf (E : Env) (positive : bool) (value val : string)
  (g : Gen) :
  literal_eval E value = Some val ->
  (is_identifier val = true ->
     visit E (lookahead_node positive (StringLeaf value)) g
     = (inr (None,
             "lookahead_with_string(" +:+ str_nat (polarity positive)
             +:+ ", keyword_token, p, " +:+ dq +:+ val +:+ dq +:+ ")"), g))
  /\ (is_identifier val = false -> forall type : Z,
      exact_token_types E !! val = Some type -> (0 <= type)%Z ->
      visit E (lookahead_node positive (StringLeaf value)) g
      = (inr (None,
              "lookahead_with_int(" +:+ str_nat (polarity positive)
              +:+ ", expect_token, p, " +:+ str_Z type +:+ ")"), g)).
Proof.
  intros Hval. rewrite visit_lookahead_node. simpl. unfold visit_StringLeaf. rewrite Hval.
  split.
  - intros ->. unfold bind, ret. simpl.
    assert ("keyword_token(p, " +:+ dq +:+ val +:+ dq +:+ ")"
            = "keyword_token" +:+ "(" +:+ ("p, " +:+ dq +:+ val +:+ dq) +:+ ")") as ->
      by (by rewrite !app_assoc_s).
    rewrite lookahead_call_plain by done.
    unfold lookahead_wrapper.
    change (drop 2 ("p, " +:+ dq +:+ val +:+ dq)) with (String " " (dq +:+ val +:+ dq)).
    rewrite isalnum_strip_quoted. by rewrite !app_assoc_s.
  - intros -> type -> Htype. unfold bind, ret. simpl.
    destruct (str_Z_digits type Htype) as [Hd Hne].
    assert ("expect_token(p, " +:+ str_Z type +:+ ")"
            = "expect_token" +:+ "(" +:+ ("p, " +:+ str_Z type) +:+ ")") as ->
      by (by rewrite !app_assoc_s).
    rewrite lookahead_call_plain by done.
    unfold lookahead_wrapper.
    change (drop 2 ("p, " +:+ str_Z type)) with (String " " (str_Z type)).
    rewrite isalnum_strip_digits by done. by rewrite !app_assoc_s.
Qed.

Lemma lookahead_over_a_string_leaf_witness :
  visit Sample.E (lookahead_node true (StringLeaf "'if'")) (Sample.g0 [])
  = (inr (None, "lookahead_with_string(1, keyword_token, p, " +:+ dq +:+ "if" +:+ dq +:+ ")"),
     Sample.g0 [])
  /\ visit Sample.E (lookahead_node false (StringLeaf "'('")) (Sample.g0 [])
     = (inr (None, "lookahead_with_int(0, expect_token, p, 7)"), Sample.g0 []).
Proof.
  split.
  - by apply (lookahead_over_a_string_leaf Sample.E true "'if'" "if" (Sample.g0 []) eq_refl).
  - apply (proj2 (lookahead_over_a_string_leaf Sample.E false "'('" "(" (Sample.g0 [])
                    eq_refl) eq_refl 7%Z); [reflexivity|lia].
Defined.

(** ** Guards and fresh variables *)

(** X7. Each of the four guard emitters writes one [if] block of four
    lines at the current indentation, its statements one level deeper,
    and leaves the indentation as it was.  An error check declares the
    variable numbered by the variable counter and raises the counter by
    one; an out-of-memory guard declares nothing and changes nothing but
    the text.  The [return] and [goto] variants differ in the guarded
    statement alone. *)
Theorem guard_blocks (text target message : string) (g : Gen) :
  call_with_errorcheck_return text target g
  = (inr tt,
     with_varname_counter (S (varname_counter g))
       (with_file (file g ++ indented (level g)
                     (error_check_lines (varname_counter g) text
                        ("return " +:+ target +:+ ";"))) g))
  /\ call_with_errorcheck_goto text target g
     = (inr tt,
        with_varname_counter (S (varname_counter g))
          (with_file (file g ++ indented (level g)
                        (error_check_lines (varname_counter g) text
                           ("goto " +:+ target +:+ ";"))) g))
  /\ out_of_memory_return text target message g
     = (inr tt,
        with_file (file g ++ indented (level g)
                     (out_of_memory_lines text message ("return " +:+ target +:+ ";"))) g)
  /\ out_of_memory_goto text target message g
     = (inr tt,
        with_file (file g ++ indented (level g)
                     (out_of_memory_lines text message ("goto " +:+ target +:+ ";"))) g).
Proof.
  destruct g as [t c ca v l f].
  unfold call_with_errorcheck_return, call_with_errorcheck_goto, out_of_memory_return,
    out_of_memory_goto, unique_varname, error_check_lines, out_of_memory_lines.
  repeat split; run_prints; reflexivity.
Qed.

Lemma digits_free_of_underscore (s : string) :
  forallb_string is_digit s = true -> free_of "_" s = true.
Proof.
  unfold free_of. apply forallb_string_impl.
  intros c. destruct c as [[] [] [] [] [] [] [] []]; by vm_compute.
Qed.

Lemma str_nat_digits (n : nat) : forallb_string is_digit (str_nat n) = true.
Proof.
  unfold str_nat, pretty, pretty_nat, pretty, pretty_N.
  destruct (decide (N.of_nat n = 0%N)); [done|].
  by apply (pretty_N_go_digits (N.of_nat n) "").
Qed.

(** The last underscore of a name splits it in one way. *)
Lemma suffix_split_unique (s1 s2 d1 d2 : string) :
  free_of "_" d1 = true -> free_of "_" d2 = true ->
  s1 +:+ "_" +:+ d1 = s2 +:+ "_" +:+ d2 -> s1 = s2 /\ d1 = d2.
Proof.
  intros H1 H2. revert s2. induction s1 as [|a s1 IH]; intros [|b s2].
  - change ("" +:+ "_" +:+ d1) with (String "_" d1).
    change ("" +:+ "_" +:+ d2) with (String "_" d2). by intros [= ->].
  - change ("" +:+ "_" +:+ d1) with (String "_" d1).
    rewrite app_cons. intros [= <- ->].
    rewrite free_of_app in H1. by rewrite andb_false_r in H1.
  - change ("" +:+ "_" +:+ d2) with (String "_" d2).
    rewrite app_cons. intros [= -> <-].
    rewrite free_of_app in H2. by rewrite andb_false_r in H2.
  - rewrite !app_cons. intros [= -> H]. by destruct (IH _ H) as [-> ->].
Qed.

(** X8. Two calls of [unique_varname] that differ in the base name or in
    the value of the variable counter return different names. *)
Theorem unique_varname_injective (name name' : string) (g g' : Gen) :
  name <> name' \/ varname_counter g <> varname_counter g' ->
  fst (unique_varname name g) <> fst (unique_varname name' g').
Proof.
  intros Hne [= H]. 
  apply suffix_split_unique in H as [-> Hk];
    [|apply digits_free_of_underscore, str_nat_digits..].
  apply str_nat_inj in Hk. by destruct Hne.
Qed.

Lemma unique_varname_injective_witness :
  fst (unique_varname "tmpvar" (Sample.g0 []))
  <> fst (unique_varname "tmpvar" (snd (unique_varname "tmpvar" (Sample.g0 [])))).
Proof.
  apply (unique_varname_injective "tmpvar" "tmpvar" (Sample.g0 [])
           (snd (unique_varname "tmpvar" (Sample.g0 [])))).
  right. simpl. lia.
Defined.

(** ** The emitter's assertions *)

(** X9. Emitting the right-hand side of a loop that does not have exactly
    one alternative raises [AssertionError] at once: nothing is planned
    and nothing is written. *)
Theorem loop_needs_one_alternative (E : Env) (rules : list (string * Rule)) (node : Rhs)
  (rulename : option string) (g : Gen) :
  length (rhs_alts node) <> 1 ->
  visit_Rhs E rules node true rulename g = (inl (AssertionError ""), g).
Proof.
  intros Hlen. unfold visit_Rhs.
  apply Nat.eqb_neq in Hlen. by rewrite Hlen.
Qed.

Lemma loop_needs_one_alternative_witness :
  visit_Rhs Sample.E []
    (mkRhs (inl 1) [mkAlt [Sample.item (NameLeaf "a")] None;
                    mkAlt [Sample.item (NameLeaf "b")] None])
    true (Some "_loop0_1") (Sample.g0 [])
  = (inl (AssertionError ""), Sample.g0 []).
Proof.
  apply (loop_needs_one_alternative Sample.E []). simpl. lia.
Defined.

(** ** Explicit actions *)

Lemma emit_success_run (is_loop : bool) (rulename : option string) (g : Gen) :
  exists out, emit_success is_loop rulename g = (inr tt, with_file (file g ++ out) g).
Proof.
  destruct g as [t c ca v l f]. unfold emit_success, out_of_memory_return.
  destruct is_loop; [|destruct (truthy rulename)]; run_prints; by eexists.
Qed.

Lemma emit_failure_writes (names : list string) (g : Gen) :
  exists out, emit_failure names g = (inr tt, with_file (file g ++ out) g).
Proof.
  destruct g as [t c ca v l f]. unfold emit_failure.
  destruct (bool_decide _); run_prints; by eexists.
Qed.

Lemma prefix_nil (s : string) : String.prefix "" s = true.
Proof. by destruct s. Qed.

Lemma prefix_app (s t : string) : String.prefix s (s +:+ t) = true.
Proof.
  induction s as [|a s IH]; [apply prefix_nil|].
  rewrite app_cons. simpl. by destruct (ascii_dec a a).
Qed.

Lemma rev_app_acc (s acc : string) : String.rev_app s acc = String.rev s +:+ acc.
Proof.
  revert acc. induction s as [|a s IH]; intros acc; [done|].
  unfold String.rev. simpl. rewrite (IH (String a acc)), (IH (String a "")).
  by rewrite app_assoc_s.
Qed.

Lemma rev_app_distr (s t : string) :
  String.rev (s +:+ t) = String.rev t +:+ String.rev s.
Proof. unfold String.rev at 1. by rewrite rev_app_app, rev_app_acc. Qed.

Lemma endswith_app (s suf : string) : endswith suf (s +:+ suf) = true.
Proof. unfold endswith. rewrite rev_app_distr. apply prefix_app. Qed.

Lemma braced_action (body : string) :
  String.prefix "{" ("{" +:+ body +:+ "}") && endswith "}" ("{" +:+ body +:+ "}") = true
  /\ drop_last (drop 1 ("{" +:+ body +:+ "}")) = body.
Proof.
  split.
  - rewrite (prefix_app "{"). 
    change ("{" +:+ body +:+ "}") with ((String "{" body) +:+ "}").
    by rewrite endswith_app.
  - change (drop 1 ("{" +:+ body +:+ "}")) with (body +:+ "}"). apply drop_last_snoc.
Qed.

(** X10. An alternative with an explicit action, once its condition has
    been written.  An action that is not wrapped in braces raises
    [AssertionError] when the opening of the block has been written and
    nothing after it, the indentation being restored.  An action
    [{body}] is emitted as [res = body;] one level deeper, without the
    braces and without the blanks around the body, and the emission of
    the alternative returns. *)
Theorem explicit_action_is_unwrapped (E : Env) (node : Alt) (is_loop : bool)
  (rulename : option string) (g g1 : Gen) (names : list string) (a : string) :
  emit_condition E node is_loop g = (inr names, g1) ->
  alt_action node = Some a -> a <> "" ->
  (String.prefix "{" a && endswith "}" a = false ->
     exists msg g',
       visit_Alt E node is_loop rulename g = (inl (AssertionError msg), g')
       /\ file g' = file g1 ++ [repeat_string "    " (level g1) +:+ ") {"]
       /\ level g' = level g1)
  /\ (forall body, a = "{" +:+ body +:+ "}" ->
      exists rest g',
        visit_Alt E node is_loop rulename g = (inr tt, g')
        /\ file g'
           = file g1
             ++ [repeat_string "    " (level g1) +:+ ") {";
                 repeat_string "    " (S (level g1)) +:+ "res = " +:+ strip body +:+ ";"]
             ++ rest).
Proof.
  intros Hcond Haction Hne.
  assert (truthy (Some a) = true) as Htruthy by by destruct a.
  unfold visit_Alt. rewrite (bind_inr _ _ _ _ _ Hcond).
  rewrite Haction. unfold emit_result. rewrite Htruthy. cbn [default from_option]. unfold id.
  split.
  - intros ->. destruct g1 as [t c ca v l f].
    eexists _, _. split; [reflexivity|]. by split.
  - intros body ->. destruct (braced_action body) as [-> ->].
    destruct g1 as [t c ca v l f].
    unfold bind at 1. rewrite print_run.
    unfold bind at 1, indent. unfold bind at 1. rewrite print_run.
    match goal with
    | |- context [emit_success is_loop rulename ?g] =>
        destruct (emit_success_run is_loop rulename g) as [out1 ->]
    end.
    unfold bind at 1. rewrite print_run.
    match goal with
    | |- context [emit_failure names ?g] =>
        destruct (emit_failure_writes names g) as [out2 ->]
    end.
    eexists _, _. split; [reflexivity|]. simpl.
    rewrite <- !app_assoc. simpl. rewrite !app_assoc_s. reflexivity.
Qed.

Lemma explicit_action_is_unwrapped_witness :
  (exists msg g',
      visit_Alt Sample.E (mkAlt [Sample.item (NameLeaf "NAME")] (Some "x")) false None
        (Sample.g0 [])
      = (inl (AssertionError msg), g')
      /\ file g' = ["// alt"; "if ("; "    (name_var = name_token(p))"] ++ [") {"]
      /\ level g' = 0)
  /\ (exists rest g',
      visit_Alt Sample.E (mkAlt [Sample.item (NameLeaf "NAME")] (Some "{ x }")) false None
        (Sample.g0 [])
      = (inr tt, g')
      /\ file g'
         = ["// alt"; "if ("; "    (name_var = name_token(p))"]
           ++ [") {"; "    res = x;"] ++ rest)
  /\ (exists rest g',
      visit_Alt Sample.E
        (mkAlt [Sample.item (NameLeaf "NAME")]
           (Some ("{" +:+ String (ascii_of_nat 160) "x" +:+ "}"))) false None
        (Sample.g0 [])
      = (inr tt, g')
      /\ file g'
         = ["// alt"; "if ("; "    (name_var = name_token(p))"]
           ++ [") {"; "    res = x;"] ++ rest).
Proof.
  split; [|split].
  - apply (explicit_action_is_unwrapped Sample.E
             (mkAlt [Sample.item (NameLeaf "NAME")] (Some "x")) false None (Sample.g0 [])
             (mkGen [] 0 ∅ 0 0 ["// alt"; "if ("; "    (name_var = name_token(p))"])
             ["name_var"] "x"); done.
  - apply (proj2 (explicit_action_is_unwrapped Sample.E
             (mkAlt [Sample.item (NameLeaf "NAME")] (Some "{ x }")) false None (Sample.g0 [])
             (mkGen [] 0 ∅ 0 0 ["// alt"; "if ("; "    (name_var = name_token(p))"])
             ["name_var"] "{ x }" eq_refl eq_refl ltac:(done)) " x "). done.
  - apply (proj2 (explicit_action_is_unwrapped Sample.E
             (mkAlt [Sample.item (NameLeaf "NAME")]
                (Some ("{" +:+ String (ascii_of_nat 160) "x" +:+ "}"))) false None
             (Sample.g0 [])
             (mkGen [] 0 ∅ 0 0 ["// alt"; "if ("; "    (name_var = name_token(p))"])
             ["name_var"] ("{" +:+ String (ascii_of_nat 160) "x" +:+ "}")
             eq_refl eq_refl ltac:(done)) (String (ascii_of_nat 160) "x")). done.
Defined.

(** ** The declared type of a variable *)

Lemma length_app_s (s t : string) : String.length (s +:+ t) = String.length s + String.length t.
Proof. induction s as [|a s IH]; [done|]. rewrite app_cons. simpl. by rewrite IH. Qed.

Lemma substring_app_l (s t : string) : String.substring 0 (String.length s) (s +:+ t) = s.
Proof.
  induction s as [|a s IH]; [by destruct t|].
  rewrite app_cons. simpl. by rewrite IH.
Qed.

(** [name[:-4]] gives back the text before [_var]. *)
Lemma strip_var_suffix (base : string) :
  String.substring 0 (String.length (base +:+ "_var") - 4) (base +:+ "_var") = base.
Proof.
  rewrite length_app_s.
  replace (String.length base + String.length "_var" - 4) with (String.length base)
    by (simpl; lia).
  apply substring_app_l.
Qed.

Lemma prefix_cons (x a : ascii) (p s : string) :
  String.prefix (String x p) (String a s)
  = if ascii_dec x a then String.prefix p s else false.
Proof. reflexivity. Qed.

Lemma startswith_cut_var (base : string) :
  startswith "cut" (base +:+ "_var") = startswith "cut" base.
Proof.
  unfold startswith.
  destruct base as [|a [|b [|c s]]]; [reflexivity|..]; rewrite ?app_cons, !prefix_cons.
  - destruct (ascii_dec "c" a); reflexivity.
  - destruct (ascii_dec "c" a); [|reflexivity].
    destruct (ascii_dec "u" b); reflexivity.
  - destruct (ascii_dec "c" a); [|reflexivity].
    destruct (ascii_dec "u" b); [|reflexivity].
    destruct (ascii_dec "t" c); [|reflexivity].
    by rewrite !prefix_nil.
Qed.

Lemma planned_name_nonempty (base : string) : exists c r, base +:+ "_var" = String c r.
Proof. destruct base as [|a s]; by eexists _, _. Qed.

(** X11. The variable that [add_var] declares for a name leaf whose
    planned name does not begin with [cut].  The planner appends [_var]
    to the name and [add_var] strips it again to look the name up in the
    rules: the variable gets the type of the rule of that name, the
    sequence type if that rule is a loop, and no type (so [void *]) if
    there is no such rule and the name is not a loop's.  For a token
    class the name looked up is the token's name in lower case, so a
    grammar rule of that name lends its type to the token's variable.
    The variable is called by the bind name if the item has one, made
    unique among the names of the alternative; planning a name leaf
    leaves the generator as it was. *)
Theorem declared_type_of_a_name (E : Env) (rules : list (string * Rule))
  (bind_name_ : option string) (value : string) (names : list string) (g : Gen) :
  startswith "cut" (base_name value) = false ->
  add_var E rules (mkNamedItem bind_name_ (NameLeaf value)) names g
  = (inr ((Some (fst (dedupe (if truthy bind_name_ then default "" bind_name_
                              else base_name value +:+ "_var") names)),
           match Dict.get (base_name value) rules with
           | Some rule => if is_loop rule then Some "asdl_seq *" else rule_type rule
           | None => if startswith "_loop" (base_name value +:+ "_var")
                     then Some "asdl_seq *" else None
           end),
          snd (dedupe (if truthy bind_name_ then default "" bind_name_
                       else base_name value +:+ "_var") names)), g).
Proof.
  intros Hcut. unfold add_var. simpl. unfold bind at 1, ret at 1.
  assert (visit_NameLeaf value
          = (Some (base_name value +:+ "_var"),
             snd (visit_NameLeaf value))) as ->.
  { unfold visit_NameLeaf, base_name. by destruct (is_token_class value). }
  cbn [fst].
  destruct (planned_name_nonempty (base_name value)) as (c & r & Hname).
  rewrite Hname. rewrite <- Hname.
  rewrite startswith_cut_var, Hcut, endswith_app, strip_var_suffix.
  destruct (truthy bind_name_) eqn:Hb.
  - by destruct bind_name_ as [[|? ?]|].
  - done.
Qed.

Lemma declared_type_of_a_name_witness :
  add_var Sample.E [("name", new_Rule "name" (Some "expr_ty") (mkRhs (inl 1) []))]
    (mkNamedItem (Some "n") (NameLeaf "NAME")) [] (Sample.g0 [])
  = (inr ((Some "n", Some "expr_ty"), ["n"]), Sample.g0 []).
Proof.
  apply (declared_type_of_a_name Sample.E
           [("name", new_Rule "name" (Some "expr_ty") (mkRhs (inl 1) []))]
           (Some "n") "NAME" [] (Sample.g0 [])).
  reflexivity.
Defined.

(** ** The left-recursion analysis changes flags alone *)

Lemma flagged_from_refl (r : Rule) : flagged_from r r.
Proof. by repeat split. Qed.

Lemma flagged_from_trans (r1 r2 r3 : Rule) :
  flagged_from r1 r2 -> flagged_from r2 r3 -> flagged_from r1 r3.
Proof.
  intros (? & ? & ? & ? & ? & ?) (? & ? & ? & ? & ? & ?).
  repeat split; try congruence; auto.
Qed.

Lemma same_rules_refl (rs : list (string * Rule)) : same_rules rs rs.
Proof. apply Forall2_same_length_lookup_2; [done|]. intros i x y Hx Hy. simplify_eq. split; [done|apply flagged_from_refl]. Qed.

Lemma same_rules_trans (rs1 rs2 rs3 : list (string * Rule)) :
  same_rules rs1 rs2 -> same_rules rs2 rs3 -> same_rules rs1 rs3.
Proof.
  unfold same_rules. intros H12. revert rs3.
  induction H12 as [|kv1 kv2 rs1 rs2 [Hk Hf] _ IH]; intros rs3 H23.
  - by inversion H23.
  - inversion H23 as [|? kv3 ? rs3' [Hk' Hf'] Hrest]; subst.
    constructor; [|by apply IH].
    split; [congruence|by eapply flagged_from_trans].
Qed.

Lemma same_rules_set (f : Rule -> Rule) (name : string) (r : Rule) (rs : list (string * Rule)) :
  (forall r, flagged_from r (f r)) ->
  Dict.get name rs = Some r -> same_rules rs (Dict.set name (f r) rs).
Proof.
  intros Hf. induction rs as [|[k v] rs IH]; [done|]. simpl.
  destruct (String.eqb name k) eqn:Hk.
  - intros [= ->]. constructor; [|apply same_rules_refl]. by split.
  - intros Hget. constructor; [|by apply IH]. split; [done|apply flagged_from_refl].
Qed.

Lemma flagged_set_left_recursive (r : Rule) : flagged_from r (set_left_recursive r).
Proof. by repeat split. Qed.

Lemma flagged_set_leader (r : Rule) : flagged_from r (set_leader r).
Proof. by repeat split. Qed.

Lemma same_rules_update_rule (f : Rule -> Rule) (name : string) (rs rs' : list (string * Rule)) :
  (forall r, flagged_from r (f r)) ->
  update_rule f name rs = inr rs' -> same_rules rs rs'.
Proof.
  intros Hf. unfold update_rule. destruct (Dict.get name rs) as [r|] eqn:Hget; [|done].
  intros [= <-]. by apply same_rules_set.
Qed.

Lemma same_rules_rfold {X} (f : list (string * Rule) -> X -> R (list (string * Rule)))
  (l : list X) :
  (forall rs x rs', f rs x = inr rs' -> same_rules rs rs') ->
  forall rs rs', rfold f l rs = inr rs' -> same_rules rs rs'.
Proof.
  intros Hf. induction l as [|x l IH]; intros rs rs'; cbn [rfold].
  - intros [= <-]. apply same_rules_refl.
  - destruct (f rs x) as [e|rs1] eqn:Hx; [done|]. cbn [rbind]. intros Hrest.
    eapply same_rules_trans; [by eapply Hf|by apply IH].
Qed.

Lemma same_rules_flag_scc (A : Analyses) (graph : gmap string (gset string))
  (rs rs' : list (string * Rule)) (scc : gset string) :
  flag_scc A graph rs scc = inr rs' -> same_rules rs rs'.
Proof.
  unfold flag_scc. destruct (1 <? size scc).
  - destruct (rfold _ (elements scc) rs) as [e|rs1] eqn:Hmark; [done|]. cbn [rbind].
    destruct (prune_leaders A graph scc) as [e|leaders]; [done|]. cbn [rbind].
    destruct (set_min leaders) as [l|]; [|done]. intros Hl.
    eapply same_rules_trans.
    + eapply same_rules_rfold; [|exact Hmark]. intros rs0 x rs0'.
      apply same_rules_update_rule, flagged_set_left_recursive.
    + eapply same_rules_update_rule; [apply flagged_set_leader|done].
  - destruct (set_min scc) as [name|]; [|done].
    destruct (graph !! name) as [succs|]; [|done].
    case_bool_decide; [|intros [= <-]; apply same_rules_refl].
    destruct (update_rule set_left_recursive name rs) as [e|rs1] eqn:H1; [done|].
    cbn [rbind]. intros H2.
    eapply same_rules_trans.
    + eapply same_rules_update_rule; [apply flagged_set_left_recursive|done].
    + eapply same_rules_update_rule; [apply flagged_set_leader|done].
Qed.

(** X12. When the left-recursion analysis returns, the rules are the
    ones it was given, under the same names in the same order: no rule's
    name, type, right-hand side or nullability has changed, and no flag
    that was set has been cleared. *)
Theorem left_recursion_analysis_sets_flags_only (A : Analyses)
  (rules rules' : list (string * Rule)) :
  compute_left_recursives A rules = inr rules' ->
  Dict.keys rules' = Dict.keys rules
  /\ Forall2 (fun kv kv' => fst kv' = fst kv /\ flagged_from (snd kv) (snd kv')) rules rules'.
Proof.
  intros H.
  assert (same_rules rules rules') as Hsame.
  { revert H. unfold compute_left_recursives. apply same_rules_rfold.
    intros rs scc rs'. apply same_rules_flag_scc. }
  split; [|done]. clear H. unfold Dict.keys.
  induction Hsame as [|kv kv' rs rs' [Hk _] _ IH]; [done|]. simpl. by rewrite Hk, IH.
Qed.

Lemma left_recursion_analysis_sets_flags_only_witness :
  Dict.keys
    [("a", mkRule "a" None (mkRhs (inl 1) [mkAlt [Sample.item (NameLeaf "b")] None])
             false true true);
     ("b", mkRule "b" None (mkRhs (inl 2) [mkAlt [Sample.item (NameLeaf "a")] None])
             false true false)]
  = Dict.keys
      [("a", new_Rule "a" None (mkRhs (inl 1) [mkAlt [Sample.item (NameLeaf "b")] None]));
       ("b", new_Rule "b" None (mkRhs (inl 2) [mkAlt [Sample.item (NameLeaf "a")] None]))].
Proof.
  apply (left_recursion_analysis_sets_flags_only Sample.A_one_component
           [("a", new_Rule "a" None (mkRhs (inl 1) [mkAlt [Sample.item (NameLeaf "b")] None]));
            ("b", new_Rule "b" None (mkRhs (inl 2) [mkAlt [Sample.item (NameLeaf "a")] None]))]).
  vm_compute. reflexivity.
Defined.

(** ** Leaders are left-recursive *)

Lemma rfold_inv {X S} (P : S -> Prop) (f : S -> X -> R S) (l : list X) :
  (forall s x s', P s -> f s x = inr s' -> P s') ->
  forall s s', P s -> rfold f l s = inr s' -> P s'.
Proof.
  intros Hf. induction l as [|x l IH]; intros s s' Hs; cbn [rfold].
  - by intros [= <-].
  - destruct (f s x) as [e|s1] eqn:Hx; [done|]. cbn [rbind].
    apply IH. by eapply Hf.
Qed.

Lemma leaders_flagged_flag_scc (A : Analyses) (graph : gmap string (gset string))
  (rs rs' : list (string * Rule)) (scc : gset string) :
  leaders_flagged rs -> flag_scc A graph rs scc = inr rs' -> leaders_flagged rs'.
Proof.
  intros Hinv. unfold flag_scc. destruct (1 <? size scc).
  - destruct (rfold _ (elements scc) rs) as [e|rs1] eqn:Hmark; [done|]. cbn [rbind].
    pose proof (prune_leaders_spec A graph scc) as Hprune.
    destruct (prune_leaders A graph scc) as [e|leaders]; [done|]. cbn [rbind].
    destruct Hprune as [_ Hleaders].
    destruct (set_min leaders) as [l|] eqn:Hmin; [|done]. intros Hl.
    apply set_min_Some in Hmin as [Hin _]. apply Hleaders in Hin as [Hscc _].
    apply mark_left_recursive_inr in Hmark as [_ Hrs1].
    apply update_rule_inr in Hl as [_ Hrs'].
    intros k r'. rewrite Hrs', !Hrs1.
    assert (l ∈ elements scc) as Hl' by by apply elem_of_elements.
    destruct (decide (k = l)) as [->|Hne].
    + rewrite decide_True by done.
      destruct (Dict.get l rs) as [r|]; [|done]. by intros [= <-].
    + destruct (decide (k ∈ elements scc)).
      * destruct (Dict.get k rs) as [r|]; [|done]. by intros [= <-].
      * apply Hinv.
  - destruct (set_min scc) as [name|]; [|done].
    destruct (graph !! name) as [succs|]; [|done].
    case_bool_decide; [|by intros [= <-]].
    destruct (update_rule set_left_recursive name rs) as [e|rs1] eqn:H1; [done|].
    cbn [rbind]. intros H2.
    apply update_rule_inr in H1 as [_ Hrs1]. apply update_rule_inr in H2 as [_ Hrs'].
    intros k r'. rewrite Hrs', Hrs1.
    destruct (decide (k = name)) as [->|Hne]; [|apply Hinv].
    destruct (Dict.get name rs) as [r|]; [|done]. by intros [= <-].
Qed.

(** X13. The analysis never leaves a leader that is not flagged
    left-recursive: if every leader among the rules it is given is
    left-recursive (as when no flag is set yet), so is every leader among
    the rules it returns.  The emitter thus gives every leader the
    seed-growing function. *)
Theorem leaders_are_left_recursive (A : Analyses) (rules rules' : list (string * Rule)) :
  (forall k r, Dict.get k rules = Some r -> leader r = true -> left_recursive r = true) ->
  compute_left_recursives A rules = inr rules' ->
  forall k r, Dict.get k rules' = Some r -> leader r = true -> left_recursive r = true.
Proof.
  intros Hinv H. revert H. unfold compute_left_recursives.
  apply (rfold_inv leaders_flagged); [|done].
  intros rs scc rs'. apply leaders_flagged_flag_scc.
Qed.

Lemma leaders_are_left_recursive_witness :
  left_recursive
    (mkRule "a" None (mkRhs (inl 1) [mkAlt [Sample.item (NameLeaf "b")] None])
       false true true) = true.
Proof.
  apply (leaders_are_left_recursive Sample.A_one_component
           [("a", new_Rule "a" None (mkRhs (inl 1) [mkAlt [Sample.item (NameLeaf "b")] None]));
            ("b", new_Rule "b" None (mkRhs (inl 2) [mkAlt [Sample.item (NameLeaf "a")] None]))]
           [("a", mkRule "a" None (mkRhs (inl 1) [mkAlt [Sample.item (NameLeaf "b")] None])
                    false true true);
            ("b", mkRule "b" None (mkRhs (inl 2) [mkAlt [Sample.item (NameLeaf "a")] None])
                    false true false)]) with (k := "a").
  - intros k r. simpl. repeat case_match; by intros [= <-].
  - vm_compute. reflexivity.
  - reflexivity.
  - reflexivity.
Defined.

(** ** The graph of left-invocations *)

Lemma Dict_get_None {V} (k : string) (d : list (string * V)) :
  Dict.get k d = None <-> k ∉ Dict.keys d.
Proof.
  induction d as [|[k' v] d IH]; simpl.
  - split; [intros _; apply not_elem_of_nil|done].
  - rewrite not_elem_of_cons. destruct (String.eqb k k') eqn:Hk.
    + apply String.eqb_eq in Hk as ->. split; [done|]. by intros [? _].
    + apply String.eqb_neq in Hk. rewrite IH. tauto.
Qed.

Lemma Dict_get_Some_elem {V} (k : string) (v : V) (d : list (string * V)) :
  Dict.get k d = Some v -> (k, v) ∈ d.
Proof.
  induction d as [|[k' v'] d IH]; [done|]. simpl.
  destruct (String.eqb k k') eqn:Hk.
  - apply String.eqb_eq in Hk as ->. intros [= ->]. by left.
  - intros H. right. by apply IH.
Qed.

Section FirstGraph.
Variable A : Analyses.

(** The first loop: [graph[rulename] = rhs.initial_names()]. *)
Lemma first_loop_notin (rules : list (string * Rule)) (g0 : gmap string (gset string))
  (k : string) :
  k ∉ Dict.keys rules ->
  fold_left (fun g kv => <[fst kv := initial_names A (snd kv)]> g) rules g0 !! k = g0 !! k.
Proof.
  revert g0. induction rules as [|[k' v] rules IH]; intros g0; [done|]. simpl.
  intros [Hne Hk]%not_elem_of_cons. rewrite IH by done. by apply lookup_insert_ne.
Qed.

Lemma first_loop_in (rules : list (string * Rule)) (g0 : gmap string (gset string))
  (k : string) (r : Rule) :
  NoDup (Dict.keys rules) -> Dict.get k rules = Some r ->
  fold_left (fun g kv => <[fst kv := initial_names A (snd kv)]> g) rules g0 !! k
  = Some (initial_names A r).
Proof.
  revert g0. induction rules as [|[k' v] rules IH]; intros g0; [done|]. simpl.
  intros [Hnotin Hnodup]%NoDup_cons. destruct (String.eqb k k') eqn:Hk.
  - apply String.eqb_eq in Hk as ->. intros [= ->].
    rewrite first_loop_notin by done. apply lookup_insert_eq.
  - by apply IH.
Qed.

Lemma first_loop_some (rules : list (string * Rule)) (g0 : gmap string (gset string))
  (k : string) (s : gset string) :
  fold_left (fun g kv => <[fst kv := initial_names A (snd kv)]> g) rules g0 !! k = Some s ->
  (exists r, (k, r) ∈ rules /\ s = initial_names A r) \/ g0 !! k = Some s.
Proof.
  revert g0. induction rules as [|[k' v] rules IH]; intros g0; [by right|]. simpl.
  intros [(r & Hin & ->)|Hg0]%IH.
  - left. exists r. split; [by right|done].
  - destruct (decide (k' = k)) as [->|Hne].
    + rewrite lookup_insert_eq in Hg0. injection Hg0 as <-. left. exists v. split; [by left|done].
    + rewrite lookup_insert_ne in Hg0 by done. by right.
Qed.

(** The vertices: [vertices |= names]. *)
Lemma vertices_elem (rules : list (string * Rule)) (vs0 : gset string) (v : string) :
  v ∈ fold_left (fun vs kv => vs ∪ initial_names A (snd kv)) rules vs0
  <-> v ∈ vs0 \/ exists kv, kv ∈ rules /\ v ∈ initial_names A (snd kv).
Proof.
  revert vs0. induction rules as [|kv rules IH]; intros vs0; simpl.
  - split; [by left|]. intros [?|(kv & Hin & _)]; [done|]. by apply elem_of_nil in Hin.
  - rewrite IH, elem_of_union. split.
    + intros [[?|?]|(kv' & Hin & Hv)]; [by left|right..].
      * exists kv. split; [by left|done].
      * exists kv'. split; [by right|done].
    + intros [?|(kv' & Hin & Hv)]; [by left; left|].
      apply elem_of_cons in Hin as [->|Hin]; [by left; right|].
      right. by exists kv'.
Qed.

(** The second loop: [graph.setdefault(vertex, set())]. *)
Lemma setdefault_loop (l : list string) (g0 : gmap string (gset string))
  (k : string) (s : gset string) :
  fold_left (fun g vertex => match g !! vertex with
                             | Some _ => g
                             | None => <[vertex := ∅]> g
                             end) l g0 !! k = Some s
  <-> g0 !! k = Some s \/ (g0 !! k = None /\ k ∈ l /\ s = ∅).
Proof.
  revert g0. induction l as [|v l IH]; intros g0; simpl.
  - split; [by left|]. intros [?|(_ & Hin & _)]; [done|]. by apply elem_of_nil in Hin.
  - rewrite IH. destruct (g0 !! v) as [sv|] eqn:Hv.
    + split; [intros [?|(? & ? & ?)]; [by left|right; repeat split; [done|by right|done]]|].
      intros [?|(Hnone & Hin & ->)]; [by left|].
      apply elem_of_cons in Hin as [->|Hin]; [congruence|]. by right.
    + destruct (decide (v = k)) as [->|Hne].
      * rewrite lookup_insert_eq. split.
        -- intros [[= <-]|([=] & _)]. right. repeat split; [done|by left].
        -- intros [?|(_ & _ & ->)]; [congruence|by left].
      * rewrite lookup_insert_ne by done. split.
        -- intros [?|(? & ? & ?)]; [by left|right; repeat split; [done|by right|done]].
        -- intros [?|(Hnone & Hin & ->)]; [by left|].
           apply elem_of_cons in Hin as [->|Hin]; [done|]. by right.
Qed.

Lemma first_graph_lookup (rules : list (string * Rule)) (k : string) (s : gset string) :
  make_first_graph A rules !! k = Some s ->
  (exists r, (k, r) ∈ rules /\ s = initial_names A r) \/ s = ∅.
Proof.
  unfold make_first_graph. intros [H|(_ & _ & ->)]%setdefault_loop; [|by right].
  apply first_loop_some in H as [?|H]; [by left|]. by rewrite lookup_empty in H.
Qed.

End FirstGraph.

(** X14. The graph of left-invocations.  Every rule is a vertex whose
    successors are the rule's initial names (the names of the rules being
    distinct, as the keys of a dictionary are); every successor of a
    vertex is itself a vertex, so the graph can be walked without a
    missing key; and a vertex that is not the name of a rule has no
    successor. *)
Theorem first_graph_is_closed (A : Analyses) (rules : list (string * Rule)) :
  (NoDup (Dict.keys rules) ->
   forall name r, Dict.get name rules = Some r ->
                  make_first_graph A rules !! name = Some (initial_names A r))
  /\ (forall n succs v,
        make_first_graph A rules !! n = Some succs -> v ∈ succs ->
        is_Some (make_first_graph A rules !! v))
  /\ (forall v succs,
        Dict.get v rules = None -> make_first_graph A rules !! v = Some succs ->
        succs = ∅).
Proof.
  split; [|split].
  - intros Hnodup name r Hget. unfold make_first_graph.
    apply setdefault_loop. left. by apply first_loop_in.
  - intros n succs v Hn Hv.
    apply first_graph_lookup in Hn as [(r & Hin & ->)| ->]; [|by apply elem_of_empty in Hv].
    unfold make_first_graph.
    match goal with
    | |- is_Some (fold_left _ _ ?g0 !! v) => destruct (g0 !! v) as [s|] eqn:Hg0
    end.
    + exists s. apply setdefault_loop. by left.
    + exists ∅. apply setdefault_loop. right. repeat split; [done|].
      apply elem_of_elements, vertices_elem. right. by exists (n, r).
  - intros v succs Hnone Hv.
    apply first_graph_lookup in Hv as [(r & Hin & ->)| ->]; [|done].
    apply Dict_get_None in Hnone. exfalso. apply Hnone.
    unfold Dict.keys. apply (list_elem_of_fmap_2 fst) in Hin. exact Hin.
Qed.

Lemma first_graph_is_closed_witness :
  make_first_graph Sample.A_singletons
    [("start", new_Rule "start" None
                 (mkRhs (inl 1) [mkAlt [Sample.item (NameLeaf "expr")] None]))]
  !! "start" = Some (initial_names Sample.A_singletons
                       (new_Rule "start" None
                          (mkRhs (inl 1) [mkAlt [Sample.item (NameLeaf "expr")] None])))
  /\ is_Some (make_first_graph Sample.A_singletons
                [("start", new_Rule "start" None
                             (mkRhs (inl 1) [mkAlt [Sample.item (NameLeaf "expr")] None]))]
              !! "expr").
Proof.
  destruct (first_graph_is_closed Sample.A_singletons
              [("start", new_Rule "start" None
                           (mkRhs (inl 1) [mkAlt [Sample.item (NameLeaf "expr")] None]))])
    as (Hrule & Hclosed & _).
  split.
  - apply Hrule; [|reflexivity]. apply NoDup_singleton.
  - apply (Hclosed "start" {["expr"]} "expr"); [|by apply elem_of_singleton].
    vm_compute. reflexivity.
Defined.

(** ** The emitter only appends, and restores the indentation *)

Lemma balanced_quiet {A} (m : M A) : quiet m -> balanced m.
Proof. intros Hm g r g' H. by apply Hm in H as [_ ?]. Qed.

Lemma balanced_bind {A B} (m : M A) (k : A -> M B) :
  balanced m -> (forall a, balanced (k a)) -> balanced (bind m k).
Proof.
  intros Hm Hk g r g' H.
  apply bind_inv in H as [(e & Hg & ->)|(a & g1 & Hg & Hk')].
  - by apply Hm in Hg.
  - apply Hm in Hg. apply Hk in Hk'. congruence.
Qed.

Lemma balanced_print (text : string) : balanced (print text).
Proof. by intros g r g' [= <- <-]. Qed.

Lemma balanced_print_empty : balanced print_empty.
Proof. by intros g r g' [= <- <-]. Qed.

Lemma balanced_indent {A} (m : M A) : balanced m -> balanced (indent m).
Proof.
  intros Hm g r g'. unfold indent.
  destruct (m _) as [r1 g1] eqn:Hg. intros [= <- <-].
  apply Hm in Hg. simpl in *. by rewrite Hg.
Qed.

Lemma balanced_foldM {A B} (f : B -> A -> M B) (l : list A) :
  (forall b x, balanced (f b x)) -> forall b, balanced (foldM f l b).
Proof.
  intros Hf. induction l as [|x l IH]; intros b; simpl.
  - apply balanced_quiet, quiet_ret.
  - apply balanced_bind; [apply Hf|apply IH].
Qed.

Lemma balanced_forM_ {A} (f : A -> M unit) (l : list A) :
  (forall x, balanced (f x)) -> balanced (forM_ f l).
Proof. intros Hf. apply balanced_foldM. intros _. apply Hf. Qed.

Lemma balanced_unique_varname (name : string) : balanced (unique_varname name).
Proof. by intros g r g' [= <- <-]. Qed.

Ltac step_level :=
  lazymatch goal with
  | |- balanced (print _) => apply balanced_print
  | |- balanced print_empty => apply balanced_print_empty
  | |- balanced (unique_varname _) => apply balanced_unique_varname
  | |- balanced (ret _) => apply balanced_quiet, quiet_ret
  | |- balanced (raise _) => apply balanced_quiet, quiet_raise
  | |- balanced (gets _) => apply balanced_quiet, quiet_gets
  | |- balanced (visit _ _) => apply balanced_quiet, quiet_visit
  | |- balanced (collect_vars _ _ _) => apply balanced_quiet, quiet_collect_vars
  | |- balanced (indent _) => apply balanced_indent
  | |- balanced (bind _ _) => apply balanced_bind
  | |- balanced (foldM _ _ _) => apply balanced_foldM
  | |- balanced (forM_ _ _) => apply balanced_forM_
  | |- balanced (let _ := _ in _) => cbv zeta
  | |- balanced (if ?b then _ else _) => destruct b; cbv beta iota
  | |- balanced (match ?x with _ => _ end) => destruct x; cbv beta iota
  | |- forall _, _ => intros ?
  end.

Lemma balanced_out_of_memory_return (expr returnval message : string) :
  balanced (out_of_memory_return expr returnval message).
Proof. unfold out_of_memory_return. repeat step_level. Qed.

Lemma balanced_call_with_errorcheck_return (text returnval : string) :
  balanced (call_with_errorcheck_return text returnval).
Proof. unfold call_with_errorcheck_return. repeat step_level. Qed.

Lemma balanced_visit_NamedItem (E : Env) (node : NamedItem) (names : list string) :
  balanced (visit_NamedItem E node names).
Proof.
  unfold visit_NamedItem, CCallMakerVisitor.visit_NamedItem. repeat step_level.
Qed.

Lemma balanced_emit_result (action : option string) (names : list string) :
  balanced (emit_result action names).
Proof. unfold emit_result. repeat step_level. Qed.

Lemma balanced_emit_success (is_loop : bool) (rulename : option string) :
  balanced (emit_success is_loop rulename).
Proof.
  unfold emit_success. destruct is_loop.
  - do 1 (apply balanced_bind; [apply balanced_print|intros _]).
    apply balanced_bind; [apply balanced_out_of_memory_return|intros _].
    repeat step_level.
  - repeat step_level.
Qed.

Lemma balanced_emit_failure (names : list string) : balanced (emit_failure names).
Proof. unfold emit_failure. repeat step_level. Qed.

Lemma balanced_emit_condition (E : Env) (node : Alt) (is_loop : bool) :
  balanced (emit_condition E node is_loop).
Proof.
  unfold emit_condition, emit_items.
  do 2 (apply balanced_bind; [apply balanced_print|intros _]).
  apply balanced_indent, balanced_bind; [|intros r; apply balanced_quiet, quiet_ret].
  apply balanced_foldM. intros [first names] item.
  apply balanced_bind; [destruct first; repeat step_level|intros _].
  apply balanced_bind; [apply balanced_visit_NamedItem|intros ?].
  apply balanced_quiet, quiet_ret.
Qed.

Lemma balanced_visit_Alt (E : Env) (node : Alt) (is_loop : bool) (rulename : option string) :
  balanced (visit_Alt E node is_loop rulename).
Proof.
  unfold visit_Alt.
  apply balanced_bind; [apply balanced_emit_condition|]. intros names.
  apply balanced_bind; [apply balanced_print|]. intros _.
  apply balanced_bind.
  { apply balanced_indent, balanced_bind; [apply balanced_emit_result|].
    intros _. apply balanced_emit_success. }
  intros _. apply balanced_bind; [apply balanced_print|]. intros _.
  apply balanced_emit_failure.
Qed.

Lemma balanced_visit_Rhs (E : Env) (rules : list (string * Rule)) (node : Rhs)
  (is_loop : bool) (rulename : option string) :
  balanced (visit_Rhs E rules node is_loop rulename).
Proof.
  unfold visit_Rhs.
  apply balanced_bind; [repeat step_level|]. intros _.
  apply balanced_bind.
  { apply balanced_foldM. intros vars alt.
    apply balanced_bind; [apply balanced_quiet, quiet_collect_vars|].
    intros types. apply balanced_quiet, quiet_ret. }
  intros vars. apply balanced_bind.
  { apply balanced_forM_. intros [v type]. apply balanced_print. }
  intros _. apply balanced_forM_. intros alt. apply balanced_visit_Alt.
Qed.

Lemma balanced_emit_seed_growing (node : Rule) : balanced (emit_seed_growing node).
Proof.
  intros g r g' H. rewrite emit_seed_growing_run in H. by injection H as <- <-.
Qed.

Ltac step_level_rule :=
  lazymatch goal with
  | |- balanced (visit_Rhs _ _ _ _ _) => apply balanced_visit_Rhs
  | |- balanced (emit_seed_growing _) => apply balanced_emit_seed_growing
  | |- balanced (out_of_memory_return _ _ _) => apply balanced_out_of_memory_return
  | _ => step_level
  end.

Lemma balanced_emit_body (E : Env) (rules : list (string * Rule)) (node : Rule) :
  balanced (emit_body E rules node).
Proof. unfold emit_body. cbv zeta. repeat step_level_rule. Qed.

Lemma balanced_visit_Rule (E : Env) (rules : list (string * Rule)) (node : Rule) :
  balanced (visit_Rule E rules node).
Proof.
  unfold visit_Rule. cbv zeta.
  do 5 (apply balanced_bind; [repeat step_level_rule|intros _]).
  apply balanced_emit_body.
Qed.

Lemma balanced_emit_todo (E : Env) (rules : list (string * Rule)) (fuel : nat) :
  balanced (emit_todo E rules fuel).
Proof.
  induction fuel as [|fuel IH]; simpl.
  - repeat step_level.
  - apply balanced_bind; [apply balanced_quiet, quiet_gets|]. intros t.
    destruct t as [|kv t]; [apply balanced_quiet, quiet_ret|].
    apply balanced_bind; [|intros _; apply IH].
    apply balanced_forM_. intros [rulename rule].
    apply balanced_bind; [by apply balanced_quiet, quiet_state_only|]. intros _.
    apply balanced_bind; [apply balanced_print_empty|]. intros _.
    apply balanced_visit_Rule.
Qed.

Lemma balanced_generate_rules (E : Env) (rules : list (string * Rule)) (fuel : nat)
  (filename : string) : balanced (generate_rules E rules fuel filename).
Proof.
  unfold generate_rules.
  apply balanced_bind; [apply balanced_quiet, quiet_collect_todo|intros _].
  apply balanced_bind; [apply balanced_print|intros _].
  apply balanced_bind; [apply balanced_quiet, quiet_gets|]. intros t.
  apply balanced_bind; [apply balanced_forM_; intros [i rulename]; apply balanced_print|].
  intros _. apply balanced_bind; [apply balanced_print_empty|]. intros _.
  apply balanced_bind; [apply balanced_quiet, quiet_gets|]. intros t'.
  apply balanced_bind; [apply balanced_forM_; intros [rulename rule]; apply balanced_print|].
  intros _. apply balanced_bind; [apply balanced_print_empty|]. intros _.
  apply balanced_emit_todo.
Qed.

Lemma appends_generate_rules (E : Env) (rules : list (string * Rule)) (fuel : nat)
  (filename : string) : appends (generate_rules E rules fuel filename).
Proof.
  unfold generate_rules.
  apply appends_bind; [apply quiet_appends, quiet_collect_todo|intros _].
  apply appends_bind; [apply appends_print|intros _].
  apply appends_bind; [apply quiet_appends, quiet_gets|]. intros t.
  apply appends_bind; [apply appends_forM_; intros [i rulename]; apply appends_print|].
  intros _. apply appends_bind; [apply appends_print_empty|]. intros _.
  apply appends_bind; [apply quiet_appends, quiet_gets|]. intros t'.
  apply appends_bind; [apply appends_forM_; intros [rulename rule]; apply appends_print|].
  intros _. apply appends_bind; [apply appends_print_empty|]. intros _.
  apply appends_emit_todo.
Qed.

(** X15. Whether it returns or raises, [generate] changes the text
    written before it started in no way, it only adds after it, and it
    leaves the indentation as it found it; the same holds of the emission
    of one rule. *)
Theorem generate_appends_and_restores_level (E : Env) (rules : list (string * Rule))
  (fuel : nat) (filename : string) (node : Rule) (g : Gen) :
  (level (snd (generate E rules fuel filename g)) = level g
   /\ exists out, file (snd (generate E rules fuel filename g)) = file g ++ out)
  /\ (level (snd (visit_Rule E rules node g)) = level g
      /\ exists out, file (snd (visit_Rule E rules node g)) = file g ++ out).
Proof.
  split.
  - assert (balanced (generate E rules fuel filename) /\ appends (generate E rules fuel filename))
      as [Hb Ha].
    { unfold generate. split.
      - apply balanced_bind; [apply balanced_generate_rules|intros _].
        destruct (Dict.get "start" rules); [apply balanced_print|apply balanced_quiet, quiet_raise].
      - apply appends_bind; [apply appends_generate_rules|intros _].
        destruct (Dict.get "start" rules); [apply appends_print|apply quiet_appends, quiet_raise]. }
    destruct (generate E rules fuel filename g) as [r g'] eqn:H. simpl.
    split; [by eapply Hb|by eapply Ha].
  - destruct (visit_Rule E rules node g) as [r g'] eqn:H. simpl.
    split; [by eapply balanced_visit_Rule|by eapply appends_visit_Rule].
Qed.

(** ** What [generate] has done when it returns *)





(** ** The type numbers *)

Lemma enumerate_lookup {X} (l : list X) (start i : nat) :
  enumerate l start !! i = (fun x => (start + i, x)) <$> l !! i.
Proof.
  revert start i. induction l as [|x l IH]; intros start [|i]; simpl; [done|done| |].
  - by rewrite Nat.add_0_r.
  - rewrite IH. by replace (S start + i) with (start + S i) by lia.
Qed.

(** A loop of [print] calls adds one line per element. *)
Lemma forM_lines {X} (f : X -> M unit) (line : X -> string) (l : list X) :
  (forall x g, f x g = print (line x) g) ->
  forall g, forM_ f l g
            = (inr tt,
               with_file (file g ++ map (fun x => repeat_string "    " (level g) +:+ line x) l) g).
Proof.
  intros Hf g. destruct g as [t c ca v lv fl]. revert fl.
  induction l as [|x l IH]; intros fl.
  - unfold forM_. simpl. unfold ret, with_file. simpl. by rewrite app_nil_r.
  - unfold forM_ in *. simpl. unfold bind. rewrite Hf, print_run.
    unfold with_file at 1. simpl. rewrite IH. unfold with_file. simpl.
    by rewrite <- app_assoc.
Qed.

Lemma bind_extends {X Y} (m : M X) (k : X -> M Y) (g : Gen) :
  (forall a, appends (k a)) ->
  exists out, file (snd (bind m k g)) = file (snd (m g)) ++ out.
Proof.
  intros Hk. unfold bind. destruct (m g) as [[e|a] g1]; simpl.
  - exists []. by rewrite app_nil_r.
  - destruct (k a g1) as [r g2] eqn:H. by apply Hk in H.
Qed.

(** X17. The type numbers.  Once the work-list has been expanded, the
    rule at position [i] of it gets the number [1000 + i]: the line
    [#define <name>_type <1000 + i>] is the line at position [i] after
    the prelude in the text that [generate] writes, whether [generate]
    then returns or raises. *)
Theorem type_numbers_follow_the_worklist (E : Env) (rules : list (string * Rule))
  (fuel : nat) (filename : string) (g gc : Gen) (i : nat) (name : string) :
  collect_todo E fuel [] g = (inr tt, gc) ->
  Dict.keys (todo gc) !! i = Some name ->
  file (snd (generate E rules fuel filename g)) !! (length (file g) + 1 + i)
  = Some (repeat_string "    " (level g)
          +:+ "#define " +:+ name +:+ "_type " +:+ str_nat (1000 + i)).
Proof.
  intros Hcollect Hname.
  apply quiet_collect_todo in Hcollect as Hq. destruct Hq as [Hfile Hlevel].
  unfold generate.
  match goal with
  | |- context [bind ?m ?k g] => destruct (bind_extends m k g) as [o1 ->]
  end.
  { intros _. destruct (Dict.get "start" rules);
      [apply appends_print|apply quiet_appends, quiet_raise]. }
  unfold generate_rules. rewrite (bind_inr _ _ _ _ _ Hcollect).
  unfold bind at 1. rewrite print_run.
  unfold bind at 1, gets at 1.
  match goal with
  | |- context [bind (forM_ ?f ?l) ?k ?g2] =>
      destruct (bind_extends (forM_ f l) k g2) as [o2 ->];
      [|rewrite (forM_lines f (fun p => "#define " +:+ snd p +:+ "_type " +:+ str_nat (fst p)) l)]
  end.
  - intros _. apply appends_bind; [apply appends_print_empty|]. intros _.
    apply appends_bind; [apply quiet_appends, quiet_gets|]. intros t'.
    apply appends_bind; [apply appends_forM_; intros [rulename rule]; apply appends_print|].
    intros _. apply appends_bind; [apply appends_print_empty|]. intros _.
    apply appends_emit_todo.
  - simpl. rewrite Hfile, Hlevel.
    rewrite <- !app_assoc. rewrite lookup_app_r by lia.
    replace (length (file g) + 1 + i - length (file g)) with (S i) by lia.
    simpl. rewrite lookup_app_l.
    + rewrite list_lookup_fmap, enumerate_lookup, Hname. done.
    + rewrite length_map. apply lookup_lt_is_Some.
      rewrite enumerate_lookup, Hname. by eexists.
  - by intros [k n] g0.
Qed.

Lemma type_numbers_follow_the_worklist_witness :
  file (snd (generate Sample.E Sample.two_rules 2 "g" (Sample.g0 Sample.two_rules)))
  !! (length (file (Sample.g0 Sample.two_rules)) + 1 + 1)
  = Some (repeat_string "    " (level (Sample.g0 Sample.two_rules))
          +:+ "#define " +:+ "expr" +:+ "_type " +:+ str_nat (1000 + 1)).
Proof.
  apply (type_numbers_follow_the_worklist Sample.E Sample.two_rules 2 "g"
           (Sample.g0 Sample.two_rules) (Sample.g0 Sample.two_rules) 1 "expr").
  - vm_compute. reflexivity.
  - reflexivity.
Defined.

(** ** A rule that is not a leader memoizes *)

(** X18. A rule that is neither left-recursive nor a leader nor a loop.
    Its function opens with the comment, the header, the declaration of
    [res], the return of the memoized result if there is one, and the
    saving of the mark; the alternatives follow, emitted one level deeper
    with the rule's name for their own memo insertion; when their
    emission returns, the function closes with the failure result, the
    label [done], the insertion of the result into the memo, and the
    return, and the indentation is as it was. *)
Theorem plain_rule_is_memoized (E : Env) (rules : list (string * Rule)) (node : Rule)
  (g g2 : Gen) :
  left_recursive node = false -> leader node = false -> is_loop node = false ->
  visit_Rhs E rules (flatten E node) false (Some (rule_name node))
    (with_level (S (level g))
       (with_file (file g ++ indented (level g) (memoized_rule_opening E node)) g))
  = (inr tt, g2) ->
  exists g',
    visit_Rule E rules node g = (inr tt, g')
    /\ file g' = file g2 ++ indented (level g) (memoized_rule_closing node)
    /\ level g' = level g.
Proof.
  intros Hlr Hleader Hloop Hrhs.
  apply balanced_visit_Rhs in Hrhs as Hlevel. simpl in Hlevel.
  unfold visit_Rule, emit_body. rewrite Hlr, Hleader, Hloop. cbn [negb].
  destruct g as [t c ca v l f]. destruct g2 as [t2 c2 ca2 v2 l2 f2].
  simpl in Hlevel. subst l2.
  unfold memoized_rule_opening in Hrhs. revert Hrhs. run_prints. intros Hrhs.
  rewrite Hrhs. run_prints.
  eexists. split; [reflexivity|]. split; [|done].
  unfold memoized_rule_closing. run_prints. reflexivity.
Qed.

Lemma plain_rule_is_memoized_witness :
  exists g',
    visit_Rule Sample.E []
      (new_Rule "start" None (mkRhs (inl 1) [mkAlt [Sample.item (NameLeaf "NAME")] None]))
      (Sample.g0 [])
    = (inr tt, g')
    /\ level g' = level (Sample.g0 []).
Proof.
  destruct (plain_rule_is_memoized Sample.E []
              (new_Rule "start" None
                 (mkRhs (inl 1) [mkAlt [Sample.item (NameLeaf "NAME")] None]))
              (Sample.g0 [])
              (snd (visit_Rhs Sample.E []
                      (mkRhs (inl 1) [mkAlt [Sample.item (NameLeaf "NAME")] None])
                      false (Some "start")
                      (with_level 1
                         (with_file
                            (indented 0
                               (memoized_rule_opening Sample.E
                                  (new_Rule "start" None
                                     (mkRhs (inl 1)
                                        [mkAlt [Sample.item (NameLeaf "NAME")] None]))))
                            (Sample.g0 [])))))
              eq_refl eq_refl eq_refl) as (g' & Hrun & _ & Hlevel).
  - vm_compute. reflexivity.
  - by exists g'.
Defined.

(** ** Every variable assigned is declared *)

Lemma types_set_key (k v : option string) (d : list (option string * option string)) :
  (k, v) ∈ types_set k v d.
Proof.
  induction d as [|[k' v'] d IH]; simpl; [by left|].
  case_bool_decide as Hk; [subst; by left|by right].
Qed.

Lemma types_set_keeps (k v k' v' : option string) (d : list (option string * option string)) :
  (k', v') ∈ d -> exists v'', (k', v'') ∈ types_set k v d.
Proof.
  induction d as [|[k0 v0] d IH]; [by intros ?%elem_of_nil|]. simpl.
  intros [[= -> ->]|Hin]%elem_of_cons.
  - case_bool_decide as Hk; eexists; by left.
  - case_bool_decide.
    + exists v'. by right.
    + destruct (IH Hin) as [v'' Hv]. exists v''. by right.
Qed.

(** One item: what [add_var] declares is what [visit_NamedItem] assigns. *)
Lemma item_in_step (E : Env) (rules : list (string * Rule)) (node : NamedItem)
  (names : list string) (g g1 : Gen) (p : plan) :
  visit E (ni_item node) g = (inr p, g1) -> in_step node p = true ->
  exists k ty names1 line,
    add_var E rules node names g = (inr ((k, ty), names1), g1)
    /\ (forall g2, cache g1 ⊆ cache g2 ->
          visit_NamedItem E node names g2
          = (inr names1,
             with_file (file g2 ++ [repeat_string "    " (level g2) +:+ line]) g2))
    /\ (names1 = names \/ exists n, k = Some n /\ names1 = names ++ [n]).
Proof.
  intros Hplan Hstep.
  assert (forall g2, cache g1 ⊆ cache g2 ->
            CCallMakerVisitor.visit_NamedItem E node g2
            = (inr (bind_name (ni_name node) p), g2)) as Hni.
  { intros g2 Hsub. unfold CCallMakerVisitor.visit_NamedItem.
    by rewrite (bind_inr _ _ _ _ _ (visit_stable E _ _ _ _ _ Hplan Hsub)). }
  unfold add_var. rewrite (bind_inr _ _ _ _ _ Hplan).
  destruct p as [[[|c r]|] call]; unfold in_step in Hstep; cbn [fst] in *.
  - (* an empty name *)
    apply negb_true_iff in Hstep.
    eexists _, _, _, _. split; [reflexivity|]. split; [|by left].
    intros g2 Hsub. unfold visit_NamedItem. rewrite (bind_inr _ _ _ _ _ (Hni g2 Hsub)).
    unfold bind_name. rewrite Hstep. unfold bind. rewrite print_run. reflexivity.
  - (* a name *)
    apply andb_prop in Hstep as [Hcut Hbind].
    apply negb_true_iff in Hcut. apply negb_true_iff, bool_decide_eq_false in Hbind.
    rewrite Hcut.
    destruct (truthy (ni_name node)) eqn:Hb.
    + destruct (ni_name node) as [[|c' r']|] eqn:Hn; try done. cbn [default from_option id].
      destruct (dedupe (String c' r') names) as [name' names'] eqn:Hd.
      eexists _, _, _, _. split; [reflexivity|]. split.
      * intros g2 Hsub. unfold visit_NamedItem. rewrite (bind_inr _ _ _ _ _ (Hni g2 Hsub)).
        unfold bind_name. cbn [truthy snd].
        destruct (String.eqb (String c' r') "cut") eqn:Heq.
        { apply String.eqb_eq in Heq. congruence. }
        rewrite Hd. unfold bind. rewrite print_run. reflexivity.
      * right. exists name'. split; [done|].
        unfold dedupe in Hd. by injection Hd as <- <-.
    + destruct (dedupe (String c r) names) as [name' names'] eqn:Hd.
      eexists _, _, _, _. split; [reflexivity|]. split.
      * intros g2 Hsub. unfold visit_NamedItem. rewrite (bind_inr _ _ _ _ _ (Hni g2 Hsub)).
        unfold bind_name. rewrite Hb.
        destruct (String.eqb (String c r) "cut") eqn:Heq.
        { apply String.eqb_eq in Heq. by rewrite Heq in Hcut. }
        rewrite Hd. unfold bind. rewrite print_run. reflexivity.
      * right. exists name'. split; [done|].
        unfold dedupe in Hd. by injection Hd as <- <-.
  - (* no name *)
    apply negb_true_iff in Hstep.
    eexists _, _, _, _. split; [reflexivity|]. split; [|by left].
    intros g2 Hsub. unfold visit_NamedItem. rewrite (bind_inr _ _ _ _ _ (Hni g2 Hsub)).
    unfold bind_name. rewrite Hstep. unfold bind. rewrite print_run. reflexivity.
Qed.

(** The two loops over the items of an alternative, side by side. *)
Lemma items_in_step (E : Env) (rules : list (string * Rule)) (items : list NamedItem) :
  forall (g : Gen) (types0 : list (option string * option string)) (names0 : list string),
    plans_in_step E items g = true ->
    exists types names g1,
      foldM (fun '(types, names) item =>
               r <- add_var E rules item names ;;
               ret (types_set (fst (fst r)) (snd (fst r)) types, snd r))
            items (types0, names0) g
      = (inr (types, names), g1)
      /\ cache g ⊆ cache g1
      /\ (forall k v, (k, v) ∈ types0 -> exists v', (k, v') ∈ types)
      /\ (forall n, n ∈ names -> n ∈ names0 \/ exists ty, (Some n, ty) ∈ types)
      /\ forall g2 first, cache g1 ⊆ cache g2 ->
           exists first' out,
             foldM (fun '(first, names) item =>
                      (if first : bool then ret tt else print "&&") ;;
                      names' <- visit_NamedItem E item names ;;
                      ret (false, names'))
                   items (first, names0) g2
             = (inr (first', names), with_file (file g2 ++ out) g2).
Proof.
  induction items as [|node rest IH]; intros g types0 names0 Hplans.
  - exists types0, names0, g. split; [done|]. split; [done|].
    split; [by eauto|]. split; [by left|].
    intros g2 first _. exists first, []. simpl. unfold ret.
    destruct g2; unfold with_file; simpl. by rewrite app_nil_r.
  - simpl in Hplans.
    destruct (visit E (ni_item node) g) as [[e|p] g'] eqn:Hplan; [done|].
    apply andb_prop in Hplans as [Hstep Hrest].
    destruct (item_in_step E rules node names0 g g' p Hplan Hstep)
      as (k & ty & names1 & line & Hadd & Hemit & Hnames1).
    destruct (IH g' (types_set k ty types0) names1 Hrest)
      as (types & names & g1 & Hfold & Hsub & Hkeys & Hnames & Hreplay).
    exists types, names, g1. split; [|split; [|split; [|split]]].
    + cbn [foldM]. unfold bind at 1. unfold bind at 1. rewrite Hadd. exact Hfold.
    + etrans; [|exact Hsub]. by apply growing_visit in Hplan as (_ & _ & _ & _ & ? & _).
    + intros k0 v0 Hin. destruct (types_set_keeps k ty k0 v0 types0 Hin) as [v1 Hv1].
      by eapply Hkeys.
    + intros n Hn. destruct (Hnames n Hn) as [Hin|?]; [|by right].
      destruct Hnames1 as [->|(n1 & -> & ->)]; [by left|].
      apply elem_of_app in Hin as [?|Hin]; [by left|].
      apply elem_of_cons in Hin as [->|Hin]; [|by apply elem_of_nil in Hin]. right.
      apply (Hkeys (Some n1) ty), types_set_key.
    + intros g2 first Hsub2.
      assert (cache g' ⊆ cache g2) as Hsub' by by etrans.
      destruct first.
      * set (g3 := with_file (file g2 ++ [repeat_string "    " (level g2) +:+ line]) g2).
        destruct (Hreplay g3 false Hsub2) as (first' & out & Hrun).
        exists first', ([repeat_string "    " (level g2) +:+ line] ++ out).
        cbn [foldM]. erewrite bind_inr.
        2:{ cbv beta iota. unfold bind at 1, ret at 1. cbv beta iota.
            unfold bind. rewrite (Hemit g2 Hsub'). reflexivity. }
        fold g3. rewrite Hrun. unfold g3, with_file. simpl. by rewrite <- app_assoc.
      * set (g3 := with_file (file g2 ++ [repeat_string "    " (level g2) +:+ "&&"]) g2).
        assert (cache g' ⊆ cache g3) as Hsub3 by done.
        set (g4 := with_file (file g3 ++ [repeat_string "    " (level g3) +:+ line]) g3).
        destruct (Hreplay g4 false Hsub2) as (first' & out & Hrun).
        exists first', ([repeat_string "    " (level g2) +:+ "&&";
                         repeat_string "    " (level g2) +:+ line] ++ out).
        cbn [foldM]. erewrite bind_inr.
        2:{ cbv beta iota. unfold bind at 1. rewrite print_run. fold g3.
            unfold bind. rewrite (Hemit g3 Hsub3). reflexivity. }
        fold g4. rewrite Hrun. unfold g4, g3, with_file. simpl.
        rewrite <- !app_assoc. reflexivity.
Qed.

(** X19. Every variable that the condition of an alternative assigns has
    been declared.  Take an alternative whose items can be planned and
    are in step with their plans: no planned name begins with [cut], no
    bind name is [cut], and an item whose plan has no name (a lookahead)
    has no bind name.  Then [collect_vars] returns, and at any later
    state of the planner's cache the emission of the alternative's
    condition returns; each name it assigns is a key of the dictionary
    that [collect_vars] returned, from which the declarations are
    written.  The two walks over the items choose the same names
    whatever [dedupe] does, since they call it alike. *)
Theorem assigned_variables_are_declared (E : Env) (rules : list (string * Rule))
  (alt : Alt) (is_loop : bool) (g : Gen) :
  plans_in_step E (alt_items alt) g = true ->
  exists types g1,
    collect_vars E rules alt g = (inr types, g1)
    /\ forall g2, cache g1 ⊆ cache g2 ->
         exists names g3,
           emit_condition E alt is_loop g2 = (inr names, g3)
           /\ forall n, n ∈ names -> exists ty, (Some n, ty) ∈ types.
Proof.
  intros Hplans.
  destruct (items_in_step E rules (alt_items alt) g [] [] Hplans)
    as (types & names & g1 & Hfold & _ & _ & Hnames & Hreplay).
  exists types, g1. split.
  - unfold collect_vars. by rewrite (bind_inr _ _ _ _ _ Hfold).
  - intros g2 Hsub. exists names.
    set (g3 := with_file (file g2 ++ [repeat_string "    " (level g2)
                                       +:+ "// " +:+ str_Alt E alt]) g2).
    set (g4 := with_file (file g3 ++ [repeat_string "    " (level g3)
                                       +:+ (if is_loop then "while (" else "if (")]) g3).
    destruct (Hreplay (with_level (S (level g4)) g4) true Hsub) as (first' & out & Hrun).
    unfold emit_condition, emit_items.
    unfold bind at 1. rewrite print_run. fold g3.
    unfold bind at 1. rewrite print_run. fold g4.
    unfold indent. rewrite (bind_inr _ _ _ _ _ Hrun). unfold ret.
    eexists. split; [reflexivity|].
    intros n Hn. destruct (Hnames n Hn) as [Hin|?]; [by apply elem_of_nil in Hin|done].
Qed.

Lemma assigned_variables_are_declared_witness :
  exists types g1,
    collect_vars Sample.E Sample.two_rules
      (mkAlt [mkNamedItem (Some "a") (NameLeaf "expr"); Sample.item (NameLeaf "NAME");
              Sample.item (PositiveLookahead (StringLeaf "'('"));
              Sample.item (NameLeaf "NAME")] None)
      (Sample.g0 Sample.two_rules)
    = (inr types, g1)
    /\ forall g2, cache g1 ⊆ cache g2 ->
         exists names g3,
           emit_condition Sample.E
             (mkAlt [mkNamedItem (Some "a") (NameLeaf "expr"); Sample.item (NameLeaf "NAME");
                     Sample.item (PositiveLookahead (StringLeaf "'('"));
                     Sample.item (NameLeaf "NAME")] None)
             false g2
           = (inr names, g3)
           /\ forall n, n ∈ names -> exists ty, (Some n, ty) ∈ types.
Proof.
  apply (assigned_variables_are_declared Sample.E Sample.two_rules
           (mkAlt [mkNamedItem (Some "a") (NameLeaf "expr"); Sample.item (NameLeaf "NAME");
                   Sample.item (PositiveLookahead (StringLeaf "'('"));
                   Sample.item (NameLeaf "NAME")] None)
           false (Sample.g0 Sample.two_rules)).
  vm_compute. reflexivity.
Defined.

(** ** The declarations of a function body *)

Lemma types_set_keys (k v : option string) (d : list (option string * option string)) :
  map fst (types_set k v d) = map fst d
  \/ ((k ∉ map fst d) /\ map fst (types_set k v d) = map fst d ++ [k]).
Proof.
  induction d as [|[k' v'] d IH]; simpl.
  - right. split; [apply not_elem_of_nil|done].
  - case_bool_decide as Hk; simpl; [by left|].
    destruct IH as [->|[Hnotin ->]]; [by left|]. right. split; [|done].
    by apply not_elem_of_cons.
Qed.

Lemma types_set_nodup (k v : option string) (d : list (option string * option string)) :
  NoDup (map fst d) -> NoDup (map fst (types_set k v d)).
Proof.
  intros Hd. destruct (types_set_keys k v d) as [->|[Hnotin ->]]; [done|].
  apply NoDup_app. split; [done|]. split; [|apply NoDup_singleton].
  intros x Hx [->|Hin%elem_of_nil]%elem_of_cons; done.
Qed.

Lemma update_nodup (types vars : list (option string * option string)) :
  NoDup (map fst vars) ->
  NoDup (map fst (fold_left (fun d kv => types_set (fst kv) (snd kv) d) types vars)).
Proof.
  revert vars. induction types as [|kv types IH]; intros vars Hvars; [done|]. simpl.
  by apply IH, types_set_nodup.
Qed.

Lemma collected_vars_nodup (E : Env) (rules : list (string * Rule)) (node : Rhs)
  (g g1 : Gen) (vars : list (option string * option string)) :
  collected_vars E rules node g = (inr vars, g1) -> NoDup (map fst vars).
Proof.
  unfold collected_vars.
  apply (foldM_inv (fun vars => NoDup (map fst vars))); [|apply NoDup_nil_2].
  intros vars0 alt g0 vars1 g0' _ Hvars0 Hstep.
  apply bind_inv in Hstep as [(e & _ & [=])|(types & g2 & _ & [= <- _])].
  by apply update_nodup.
Qed.

#[local] Instance by_name_total : Total (fun a b : string * option string => String.le (fst a) (fst b)).
Proof. intros a b. apply (total String.le). Qed.

Lemma Sorted_by_name (l : list (string * option string)) :
  Sorted (fun a b => String.le (fst a) (fst b)) l -> Sorted String.le (map fst l).
Proof.
  induction 1 as [|a l Hl IH Hhd]; [constructor|]. simpl. constructor; [done|].
  destruct Hhd; simpl; by constructor.
Qed.

Lemma named_vars_keys (vars : list (option string * option string)) (v : string) :
  v ∈ map fst (named_vars vars) <-> exists ty, (Some v, ty) ∈ vars.
Proof.
  unfold named_vars. rewrite merge_sort_Permutation.
  rewrite list_elem_of_fmap. split.
  - intros ([v' ty] & -> & Hin). apply list_elem_of_omap in Hin as ([k ty'] & Hin & Hk).
    simpl in Hk. destruct k as [k|]; [|done]. injection Hk as -> ->. by exists ty.
  - intros [ty Hin]. exists (v, ty). split; [done|].
    apply list_elem_of_omap. by exists (Some v, ty).
Qed.

(** X20. The declarations at the head of a function body.  When the
    variables of all alternatives have been collected (and the loop
    assertion holds), the first text that the emitter's [visit_Rhs]
    writes is one declaration for each name that is a key of the
    collected dictionary other than [None], at the current indentation:
    the names are in the order of strings and no name is declared twice,
    also when several alternatives use it. *)
Theorem declarations_are_sorted_and_distinct (E : Env) (rules : list (string * Rule))
  (node : Rhs) (is_loop : bool) (rulename : option string) (g g1 : Gen)
  (vars : list (option string * option string)) :
  is_loop && negb (length (rhs_alts node) =? 1) = false ->
  collected_vars E rules node g = (inr vars, g1) ->
  (exists rest,
      file (snd (visit_Rhs E rules node is_loop rulename g))
      = file g
        ++ map (fun d => repeat_string "    " (level g) +:+ declaration (fst d) (snd d))
               (named_vars vars)
        ++ rest)
  /\ Sorted String.le (map fst (named_vars vars))
  /\ NoDup (map fst (named_vars vars))
  /\ forall v, v ∈ map fst (named_vars vars) <-> exists ty, (Some v, ty) ∈ vars.
Proof.
  intros Hassert Hvars. split; [|split; [|split]].
  - assert (quiet (collected_vars E rules node)) as Hquiet.
    { unfold collected_vars. apply quiet_foldM. intros vars0 alt.
      apply quiet_bind; [apply quiet_collect_vars|]. intros types. apply quiet_ret. }
    apply Hquiet in Hvars as Hq. destruct Hq as [Hfile Hlevel].
    unfold visit_Rhs. rewrite Hassert. unfold bind at 1, ret at 1.
    fold (collected_vars E rules node). rewrite (bind_inr _ _ _ _ _ Hvars).
    match goal with
    | |- context [bind (forM_ ?f ?l) ?k g1] =>
        destruct (bind_extends (forM_ f l) k g1) as [rest ->];
        [|rewrite (forM_lines f (fun d => declaration (fst d) (snd d)) l)]
    end.
    + intros _. apply appends_forM_. intros alt. apply appends_visit_Alt.
    + exists rest. simpl. by rewrite Hfile, Hlevel, <- app_assoc.
    + by intros [v ty] g0.
  - apply Sorted_by_name. unfold named_vars. apply (Sorted_merge_sort _).
  - unfold named_vars. rewrite merge_sort_Permutation.
    apply collected_vars_nodup in Hvars. clear -Hvars.
    induction vars as [|[[k|] ty] vars IH]; simpl in *; [constructor| |].
    + apply NoDup_cons in Hvars as [Hnotin Hvars]. constructor; [|by apply IH].
      intros Hin. apply Hnotin.
      apply list_elem_of_fmap in Hin as ([v' ty'] & -> & Hin).
      apply list_elem_of_omap in Hin as ([k' ty''] & Hin & Hk). simpl in Hk.
      destruct k' as [k'|]; [|done]. injection Hk as -> ->.
      apply list_elem_of_fmap. by exists (Some v', ty').
    + apply NoDup_cons in Hvars as [_ Hvars]. by apply IH.
  - apply named_vars_keys.
Qed.

Lemma declarations_are_sorted_and_distinct_witness :
  Sorted String.le (map fst (named_vars [(Some "name_var", None); (Some "expr_var", None)]))
  /\ NoDup (map fst (named_vars [(Some "name_var", None); (Some "expr_var", None)])).
Proof.
  destruct (declarations_are_sorted_and_distinct Sample.E Sample.two_rules
              (mkRhs (inl 1)
                 [mkAlt [Sample.item (NameLeaf "NAME"); Sample.item (NameLeaf "expr")] None;
                  mkAlt [Sample.item (NameLeaf "NAME")] None])
              false None (Sample.g0 Sample.two_rules) (Sample.g0 Sample.two_rules)
              [(Some "name_var", None); (Some "expr_var", None)])
    as (_ & Hsorted & Hnodup & _); [reflexivity|vm_compute; reflexivity|].
  by split.
Defined.

(** ** The expansion of the work-list *)

Lemma growing_gets {X} (f : Gen -> X) : growing (gets f).
Proof. intros g r g' [= <- <-]. apply grows_refl. Qed.

Lemma growing_foldM {X Y} (f : Y -> X -> M Y) (l : list X) :
  (forall b x, growing (f b x)) -> forall b, growing (foldM f l b).
Proof.
  intros Hf. induction l as [|x l IH]; intros b; simpl.
  - apply growing_ret.
  - apply growing_bind; [apply Hf|apply IH].
Qed.

Lemma growing_forM_ {X} (f : X -> M unit) (l : list X) :
  (forall x, growing (f x)) -> growing (forM_ f l).
Proof. intros Hf. apply growing_foldM. intros _. apply Hf. Qed.

Lemma growing_Rule_collect_todo (E : Env) (rule : Rule) : growing (Rule_collect_todo E rule).
Proof.
  unfold Rule_collect_todo. apply growing_forM_. intros alt.
  apply growing_forM_. intros item.
  apply growing_bind; [apply growing_visit|]. intros _. apply growing_ret.
Qed.

Lemma growing_collect_todo (E : Env) (fuel : nat) (done : list string) :
  growing (collect_todo E fuel done).
Proof.
  revert done. induction fuel as [|fuel IH]; intros done; simpl.
  - apply growing_bind; [apply growing_gets|]. intros alltodo.
    destruct (filter _ alltodo); [apply growing_ret|apply growing_raise].
  - apply growing_bind; [apply growing_gets|]. intros alltodo.
    destruct (filter _ alltodo); [apply growing_ret|].
    apply growing_bind; [|intros _; apply IH].
    apply growing_forM_. intros rulename.
    apply growing_bind; [apply growing_gets|]. intros [rule|].
    + apply growing_Rule_collect_todo.
    + apply growing_raise.
Qed.

(** X21. The expansion of the work-list, whether it returns or raises,
    writes nothing and keeps the indentation, the variable counter and
    every cached plan; the rules that were in the work-list keep their
    places, the helpers coming after them, so the grammar's own rules
    come first in the numbering of types.  With an empty work-list it
    returns at once and changes nothing. *)
Theorem expansion_keeps_the_rules_in_place (E : Env) (fuel : nat) (g : Gen) :
  grows g (snd (collect_todo E fuel [] g))
  /\ (todo g = [] -> collect_todo E fuel [] g = (inr tt, g)).
Proof.
  split.
  - destruct (collect_todo E fuel [] g) as [r g'] eqn:H. by eapply growing_collect_todo.
  - intros Hempty. destruct fuel; simpl; unfold bind, gets; by rewrite Hempty.
Qed.

Lemma expansion_keeps_the_rules_in_place_witness :
  collect_todo Sample.E 0 [] (Sample.g0 []) = (inr tt, Sample.g0 []).
Proof.
  apply (expansion_keeps_the_rules_in_place Sample.E 0 (Sample.g0 [])). reflexivity.
Defined.

(** ** The default action, at the level of the alternative (C9) *)

Lemma quiet_planner_visit_NamedItem (E : Env) (node : NamedItem) :
  quiet (CCallMakerVisitor.visit_NamedItem E node).
Proof.
  unfold CCallMakerVisitor.visit_NamedItem.
  apply quiet_bind; [apply quiet_visit|]. intros p. apply quiet_ret.
Qed.

Lemma visit_NamedItem_inv (E : Env) (node : NamedItem) (names names' : list string)
  (g g' : Gen) :
  visit_NamedItem E node names g = (inr names', g') ->
  exists p,
    planned E node p
    /\ snd (item_text p names) = names'
    /\ file g' = file g ++ [repeat_string "    " (level g) +:+ fst (item_text p names)]
    /\ level g' = level g.
Proof.
  unfold visit_NamedItem. intros H.
  apply bind_inv in H as [(e & _ & [=])|(p & g0 & Hplan & H)].
  apply quiet_planner_visit_NamedItem in Hplan as Hq. destruct Hq as [Hfile Hlevel].
  exists p. split; [by exists g, g0|].
  rewrite <- Hfile, <- Hlevel. unfold item_text.
  destruct p as [[[|c r]|] call].
  - unfold bind in H. rewrite print_run in H. by injection H as <- <-.
  - destruct (String.eqb (String c r) "cut").
    + unfold bind in H. rewrite print_run in H. by injection H as <- <-.
    + destruct (dedupe (String c r) names) as [name' names1].
      unfold bind in H. rewrite print_run in H. by injection H as <- <-.
  - unfold bind in H. rewrite print_run in H. by injection H as <- <-.
Qed.

Lemma emit_items_text (E : Env) (items : list NamedItem) :
  forall (first : bool) (names0 : list string) (g : Gen) (r : bool * list string) (g1 : Gen),
    foldM (fun '(first, names) item =>
             (if first : bool then ret tt else print "&&") ;;
             names' <- visit_NamedItem E item names ;;
             ret (false, names'))
          items (first, names0) g
    = (inr r, g1) ->
    exists plans,
      Forall2 (planned E) items plans
      /\ snd (condition_text plans names0) = snd r
      /\ file g1
         = file g ++ map (fun l => repeat_string "    " (level g) +:+ l)
                         (and_lines first (fst (condition_text plans names0)))
      /\ level g1 = level g.
Proof.
  induction items as [|node rest IH]; intros first names0 g r g1 H.
  - injection H as <- <-. exists []. split; [constructor|]. split; [done|].
    split; [by rewrite app_nil_r|done].
  - cbn [foldM] in H.
    apply bind_inv in H as [(e & _ & [=])|([first1 names1] & g2 & Hstep & Hrest)].
    cbv beta iota in Hstep.
    apply bind_inv in Hstep as [(e & _ & [=])|([] & g3 & Hand & Hstep)].
    apply bind_inv in Hstep as [(e & _ & [=])|(names' & g4 & Hitem & Hret)].
    injection Hret as <- <- <-.
    apply visit_NamedItem_inv in Hitem as (p & Hp & Hnames & Hfile & Hlevel).
    apply IH in Hrest as (plans & Hplans & Hsnd & Hfile' & Hlevel').
    exists (p :: plans). split; [by constructor|]. cbn [condition_text fst snd].
    rewrite Hnames. split; [done|].
    destruct first.
    + injection Hand as <-. split; [|congruence].
      rewrite Hfile', Hfile, Hlevel. cbn [and_lines app map].
      by rewrite <- app_assoc.
    + rewrite print_run in Hand. injection Hand as <-. simpl in Hfile, Hlevel.
      split; [|congruence].
      rewrite Hfile', Hfile, Hlevel. cbn [and_lines app map].
      by rewrite <- !app_assoc.
Qed.

Lemma emit_condition_text (E : Env) (node : Alt) (is_loop : bool) (g g1 : Gen)
  (names : list string) :
  emit_condition E node is_loop g = (inr names, g1) ->
  exists plans,
    Forall2 (planned E) (alt_items node) plans
    /\ snd (condition_text plans []) = names
    /\ file g1
       = file g
         ++ indented (level g)
              ([ (0, "// " +:+ str_Alt E node);
                 (0, if is_loop then "while (" else "if (") ]
               ++ map (fun l => (1, l)) (and_lines true (fst (condition_text plans []))))
    /\ level g1 = level g.
Proof.
  unfold emit_condition, emit_items. intros H.
  apply bind_inv in H as [(e & _ & [=])|([] & g2 & Hp1 & H)].
  apply bind_inv in H as [(e & _ & [=])|([] & g3 & Hp2 & H)].
  rewrite print_run in Hp1, Hp2. injection Hp1 as <-. injection Hp2 as <-.
  unfold indent in H.
  match type of H with
  | (let (_, _) := bind ?m ?k ?g4 in _) = _ =>
      destruct (bind m k g4) as [r g5] eqn:Hbody
  end.
  injection H as -> <-.
  apply bind_inv in Hbody as [(e & _ & [=])|(r & g6 & Hfold & [= <- <-])].
  apply emit_items_text in Hfold as (plans & Hplans & Hsnd & Hfile & Hlevel).
  exists plans. split; [done|]. split; [done|]. simpl in *.
  rewrite Hfile, Hlevel. split; [|done].
  unfold indented. rewrite <- !app_assoc. simpl. do 3 f_equal.
  rewrite map_map. by apply map_ext.
Qed.

Lemma visit_Alt_default (E : Env) (node : Alt) (is_loop : bool) (rulename : option string)
  (g g1 : Gen) (names : list string) (text : string) :
  emit_condition E node is_loop g = (inr names, g1) ->
  (forall g0, emit_result (alt_action node) names g0 = print text g0) ->
  exists rest g',
    visit_Alt E node is_loop rulename g = (inr tt, g')
    /\ file g'
       = file g1
         ++ [repeat_string "    " (level g1) +:+ ") {";
             repeat_string "    " (S (level g1)) +:+ text]
         ++ rest.
Proof.
  intros Hcond Hresult. unfold visit_Alt. rewrite (bind_inr _ _ _ _ _ Hcond).
  destruct g1 as [t c ca v l f].
  unfold bind at 1. rewrite print_run.
  unfold bind at 1, indent. unfold bind at 1. rewrite Hresult, print_run.
  match goal with
  | |- context [emit_success is_loop rulename ?g2] =>
      destruct (emit_success_run is_loop rulename g2) as [out1 ->]
  end.
  unfold bind at 1. rewrite print_run.
  match goal with
  | |- context [emit_failure names ?g2] =>
      destruct (emit_failure_writes names g2) as [out2 ->]
  end.
  eexists _, _. split; [reflexivity|]. simpl.
  rewrite <- !app_assoc. simpl. reflexivity.
Qed.

(** C9. When an alternative carries no action, the emitter assigns a
    [CONSTRUCTOR] call over all bound names when more than one was bound,
    and the first bound name when exactly one was; with no bound name the
    index into the name list is out of bounds: the emission of the
    alternative raises [IndexError] once its condition has been written.
    So does the emission of every action-less alternative made only of
    lookaheads without bind names, unless planning them raised before.
    At the level of the alternative: when the condition has been written
    and has bound more than one name, the emission of the alternative
    returns and the first statement of the block is the assignment of
    the [CONSTRUCTOR] call over those names, in their order; when it has
    bound one name, it is the assignment of that name.  The names bound
    are those of the variables that the condition assigns, but a
    variable named [cut]: the condition is the text that the plans of
    the items give, item after item, and its names are theirs. *)
Theorem default_action_needs_a_name (E : Env) (node : Alt) (is_loop : bool)
  (rulename : option string) :
  truthy (alt_action node) = false ->
  (forall names g, 1 < length names ->
      emit_result (alt_action node) names g
      = print ("res = CONSTRUCTOR(p, " +:+ join ", " names +:+ ");") g)
  /\ (forall n0 g,
      emit_result (alt_action node) [n0] g = print ("res = " +:+ n0 +:+ ";") g)
  /\ (forall g, emit_result (alt_action node) [] g = (inl IndexError, g))
  /\ (forall g g1,
      emit_condition E node is_loop g = (inr [], g1) ->
      fst (visit_Alt E node is_loop rulename g) = inl IndexError)
  /\ (Forall bare_lookahead (alt_items node) ->
      fails (visit_Alt E node is_loop rulename)
      /\ forall g names g1,
           emit_condition E node is_loop g = (inr names, g1) ->
           fst (visit_Alt E node is_loop rulename g) = inl IndexError)
  /\ (forall g names g1,
      emit_condition E node is_loop g = (inr names, g1) -> 1 < length names ->
      exists rest g',
        visit_Alt E node is_loop rulename g = (inr tt, g')
        /\ file g'
           = file g1
             ++ [repeat_string "    " (level g1) +:+ ") {";
                 repeat_string "    " (S (level g1))
                 +:+ "res = CONSTRUCTOR(p, " +:+ join ", " names +:+ ");"]
             ++ rest)
  /\ (forall g n0 g1,
      emit_condition E node is_loop g = (inr [n0], g1) ->
      exists rest g',
        visit_Alt E node is_loop rulename g = (inr tt, g')
        /\ file g'
           = file g1
             ++ [repeat_string "    " (level g1) +:+ ") {";
                 repeat_string "    " (S (level g1)) +:+ "res = " +:+ n0 +:+ ";"]
             ++ rest)
  /\ (forall g names g1,
      emit_condition E node is_loop g = (inr names, g1) ->
      exists plans,
        Forall2 (planned E) (alt_items node) plans
        /\ snd (condition_text plans []) = names
        /\ file g1
           = file g
             ++ indented (level g)
                  ([ (0, "// " +:+ str_Alt E node);
                     (0, if is_loop then "while (" else "if (") ]
                   ++ map (fun l => (1, l))
                          (and_lines true (fst (condition_text plans []))))
        /\ level g1 = level g).
Proof.
  intros Haction.
  assert (forall names g, 1 < length names ->
            emit_result (alt_action node) names g
            = print ("res = CONSTRUCTOR(p, " +:+ join ", " names +:+ ");") g) as Hmany.
  { intros names g Hlen. unfold emit_result. rewrite Haction.
    apply Nat.ltb_lt in Hlen. by rewrite Hlen. }
  assert (forall n0 g,
            emit_result (alt_action node) [n0] g = print ("res = " +:+ n0 +:+ ";") g) as Hone.
  { intros n0 g. unfold emit_result. by rewrite Haction. }
  split; [exact Hmany|]. split; [exact Hone|].
  split; [intros g; unfold emit_result; by rewrite Haction|].
  split; [|split; [|split; [|split]]].
  - intros g g1 Hcond. by rewrite (visit_Alt_no_names E node is_loop rulename g g1).
  - intros Hall. split.
    + intros g. destruct (emit_condition E node is_loop g) as [[e|names] g1] eqn:Hcond.
      * exists e, g1. unfold visit_Alt. by apply bind_inl.
      * assert (names = []) as -> by by eapply emit_condition_bare_lookaheads.
        eexists _, _. by apply visit_Alt_no_names.
    + intros g names g1 Hcond.
      assert (names = []) as -> by by eapply emit_condition_bare_lookaheads.
      by rewrite (visit_Alt_no_names E node is_loop rulename g g1).
  - intros g names g1 Hcond Hlen.
    apply (visit_Alt_default E node is_loop rulename g g1 names); [done|].
    intros g0. by apply Hmany.
  - intros g n0 g1 Hcond.
    apply (visit_Alt_default E node is_loop rulename g g1 [n0]); [done|].
    intros g0. by apply Hone.
  - intros g names g1 Hcond. by apply emit_condition_text.
Qed.

Lemma default_action_needs_a_name_witness :
  emit_result None ["a"; "b"] (Sample.g0 [])
  = print ("res = CONSTRUCTOR(p, " +:+ join ", " ["a"; "b"] +:+ ");") (Sample.g0 [])
  /\ fst (visit_Alt Sample.E
            (mkAlt [Sample.item (PositiveLookahead (NameLeaf "NAME"))] None)
            false (Some "start") (Sample.g0 []))
     = inl IndexError
  /\ exists rest g',
       visit_Alt Sample.E
         (mkAlt [Sample.item (NameLeaf "NAME"); Sample.item (NameLeaf "NAME")] None)
         false (Some "start") (Sample.g0 [])
       = (inr tt, g')
       /\ file g'
          = [ "// alt";
              "if (";
              "    (name_var = name_token(p))";
              "    &&";
              "    (name_var_1 = name_token(p))" ]
            ++ [ ") {";
                 "    res = CONSTRUCTOR(p, name_var, name_var_1);" ]
            ++ rest.
Proof.
  destruct (default_action_needs_a_name Sample.E
              (mkAlt [Sample.item (PositiveLookahead (NameLeaf "NAME"))] None)
              false (Some "start") eq_refl)
    as (Hmany & _ & _ & _ & Hlook & _).
  destruct (default_action_needs_a_name Sample.E
              (mkAlt [Sample.item (NameLeaf "NAME"); Sample.item (NameLeaf "NAME")] None)
              false (Some "start") eq_refl)
    as (_ & _ & _ & _ & _ & Hseveral & _).
  split; [|split].
  - apply (Hmany ["a"; "b"] (Sample.g0 [])). simpl. lia.
  - assert (Forall bare_lookahead [Sample.item (PositiveLookahead (NameLeaf "NAME"))]) as Hall.
    { constructor; [|constructor]. split; [done|]. by exists true, (NameLeaf "NAME"). }
    destruct (Hlook Hall) as [_ Hidx].
    by eapply Hidx.
  - apply (Hseveral (Sample.g0 []) ["name_var"; "name_var_1"]
             (mkGen [] 0 ∅ 0 0
                [ "// alt"; "if ("; "    (name_var = name_token(p))"; "    &&";
                  "    (name_var_1 = name_token(p))" ])).
    + vm_compute. reflexivity.
    + simpl. lia.
Defined.

(** ** An unknown literal stops the generation (C8) *)

Section Steady.
Variable k : string.
Hypothesis Hk : startswith "_" k = false.

Lemma steady_ret {A} (a : A) : steady k (ret a).
Proof. by intros g r g' [= <- <-]. Qed.

Lemma steady_raise {A} (e : exn) : e <> OutOfFuel -> steady k (@raise A e).
Proof. intros He g r g' [= <- <-]. split; [done|]. by intros [= ->]. Qed.

Lemma steady_gets {A} (f : Gen -> A) : steady k (gets f).
Proof. by intros g r g' [= <- <-]. Qed.

Lemma steady_bind {A B} (m : M A) (f : A -> M B) :
  steady k m -> (forall a, steady k (f a)) -> steady k (bind m f).
Proof.
  intros Hm Hf g r g' H.
  apply bind_inv in H as [(e & Hg & ->)|(a & g1 & Hg & Hf')].
  - apply Hm in Hg as [Hg Hne]. split; [done|]. intros [= ->]. by apply Hne.
  - apply Hm in Hg as [Hg _]. apply Hf in Hf' as [Hf' ?]. split; [congruence|done].
Qed.

Lemma steady_foldM {A B} (f : B -> A -> M B) (l : list A) :
  (forall b x, steady k (f b x)) -> forall b, steady k (foldM f l b).
Proof.
  intros Hf. induction l as [|x l IH]; intros b; simpl.
  - apply steady_ret.
  - apply steady_bind; [apply Hf|apply IH].
Qed.

Lemma steady_forM_ {A} (f : A -> M unit) (l : list A) :
  (forall x, steady k (f x)) -> steady k (forM_ f l).
Proof. intros Hf. apply steady_foldM. intros _. apply Hf. Qed.

(** The name of a helper begins with an underscore. *)
Lemma steady_set (name : string) (r : Rule) (d : list (string * Rule)) :
  startswith "_" name = true -> Dict.get k (Dict.set name r d) = Dict.get k d.
Proof. intros Hname. apply Dict_get_set_ne. intros ->. congruence. Qed.

Lemma steady_name_node (rhs : Rhs) : steady k (name_node rhs).
Proof. intros g r g' [= <- <-]. split; [|done]. simpl. by apply steady_set. Qed.

Lemma steady_name_loop (node : Item) (is_repeat1 : bool) :
  steady k (name_loop node is_repeat1).
Proof.
  intros g r g' [= <- <-]. split; [|done]. simpl. apply steady_set. by destruct is_repeat1.
Qed.

Lemma steady_cache_set (uid : oid) (p : plan) : steady k (cache_set uid p).
Proof. by intros g r g' [= <- <-]. Qed.

Lemma steady_visit_StringLeaf (E : Env) (value : string) :
  steady k (visit_StringLeaf E value).
Proof.
  unfold visit_StringLeaf. repeat case_match; auto using @steady_ret, @steady_raise.
Qed.

Lemma steady_lookahead_call (call : string) (positive : nat) :
  steady k (lookahead_call call positive).
Proof.
  unfold lookahead_call. repeat case_match; auto using @steady_ret, @steady_raise.
Qed.

Lemma steady_visit_Repeat (uid : oid) (node : Item) (is_repeat1 : bool) :
  steady k (visit_Repeat uid node is_repeat1).
Proof.
  unfold visit_Repeat. apply steady_bind; [apply steady_gets|].
  intros [p|]; [apply steady_ret|].
  apply steady_bind; [apply steady_name_loop|]. intros name.
  apply steady_bind; [apply steady_cache_set|]. intros _. apply steady_ret.
Qed.

Fixpoint steady_visit (E : Env) (node : Item) {struct node} : steady k (visit E node)
with steady_visit_Rhs (E : Env) (node : Rhs) {struct node}
  : steady k (CCallMakerVisitor.visit_Rhs E node).
Proof.
  - destruct node as [value|value|inner|uid inner|uid inner|rhs|inner|inner]; simpl.
    + apply steady_ret.
    + apply steady_visit_StringLeaf.
    + apply steady_bind; [apply steady_visit|]. intros p. apply steady_ret.
    + apply steady_visit_Repeat.
    + apply steady_visit_Repeat.
    + apply steady_visit_Rhs.
    + apply steady_bind; [apply steady_visit|]. intros p. apply steady_lookahead_call.
    + apply steady_bind; [apply steady_visit|]. intros p. apply steady_lookahead_call.
  - destruct node as [uid alts]; simpl.
    apply steady_bind; [apply steady_gets|].
    intros [p|]; [apply steady_ret|].
    assert (steady k (bind (name_node (mkRhs uid alts))
                        (fun name => bind (cache_set uid (helper_plan name))
                                          (fun _ => ret (helper_plan name))))) as Hhelper.
    { apply steady_bind; [apply steady_name_node|]. intros name.
      apply steady_bind; [apply steady_cache_set|]. intros _. apply steady_ret. }
    destruct alts as [|[items action] alts']; [exact Hhelper|].
    destruct items as [|[name item] items']; [by destruct alts'|].
    destruct alts'; [|by destruct items'].
    destruct items'; [|exact Hhelper].
    apply steady_bind; [apply steady_visit|]. intros p.
    apply steady_bind; [apply steady_cache_set|]. intros _. apply steady_ret.
Qed.

Lemma steady_Rule_collect_todo (E : Env) (rule : Rule) : steady k (Rule_collect_todo E rule).
Proof.
  unfold Rule_collect_todo. apply steady_forM_. intros alt.
  apply steady_forM_. intros item.
  apply steady_bind; [apply steady_visit|]. intros _. apply steady_ret.
Qed.

(** A round of the expansion, over rule names among which is [k], when
    expanding the rule under [k] raises. *)
Lemma round_fails (E : Env) (rule : Rule) (l : list string) :
  fails (Rule_collect_todo E rule) ->
  forall g, k ∈ l -> Dict.get k (todo g) = Some rule ->
    exists e g',
      forM_ (fun rulename =>
               r <- gets (fun g => Dict.get rulename (todo g)) ;;
               match r with
               | Some rule => Rule_collect_todo E rule
               | None => raise (KeyError rulename)
               end) l g
      = (inl e, g')
      /\ file g' = file g /\ e <> OutOfFuel.
Proof.
  intros Hfails.
  set (step := fun rulename : string =>
                 bind (gets (fun g => Dict.get rulename (todo g)))
                      (fun r => match r with
                                | Some rule => Rule_collect_todo E rule
                                | None => raise (KeyError rulename)
                                end)).
  assert (forall x, quiet (step x) /\ steady k (step x)) as Hstep.
  { intros x. split.
    - apply quiet_bind; [apply quiet_gets|].
      intros [r|]; [apply quiet_Rule_collect_todo|apply quiet_raise].
    - apply steady_bind; [apply steady_gets|].
      intros [r|]; [apply steady_Rule_collect_todo|by apply steady_raise]. }
  induction l as [|x l IH]; intros g Hin Hget; [by apply elem_of_nil in Hin|].
  unfold forM_ in *. cbn [foldM].
  destruct (step x g) as [[e|[]] g1] eqn:Hx.
  - exists e, g1. split; [by apply bind_inl|].
    destruct (Hstep x) as [Hq Hs]. apply Hq in Hx as Hfile. apply Hs in Hx as [_ Hne].
    split; [by destruct Hfile|]. by intros ->.
  - destruct (Hstep x) as [Hq Hs]. apply Hq in Hx as Hfile. apply Hs in Hx as Hkeep.
    destruct Hfile as [Hfile _]. destruct Hkeep as [Hkeep _].
    assert (k <> x) as Hne.
    { intros <-. unfold step, bind, gets in Hx. rewrite Hget in Hx.
      destruct (Hfails g) as (e & g' & He). congruence. }
    apply elem_of_cons in Hin as [?|Hin]; [done|].
    destruct (IH g1 Hin) as (e & g' & Hrun & Hfile' & He); [congruence|].
    exists e, g'. split; [|split; [congruence|done]].
    by rewrite (bind_inr _ _ _ _ _ Hx).
Qed.

Lemma filter_not_done (l : list string) : filter (fun x => x ∉ @nil string) l = l.
Proof.
  induction l as [|x l IH]; [done|].
  rewrite filter_cons_True by apply not_elem_of_nil. by rewrite IH.
Qed.

Lemma generate_fails_in_expansion (E : Env) (rules : list (string * Rule)) (rule : Rule)
  (fuel : nat) (filename : string) (g : Gen) :
  fails (Rule_collect_todo E rule) -> Dict.get k (todo g) = Some rule ->
  exists e g',
    generate E rules fuel filename g = (inl e, g')
    /\ file g' = file g /\ (0 < fuel -> e <> OutOfFuel).
Proof.
  intros Hfails Hget.
  assert (k ∈ Dict.keys (todo g)) as Hin.
  { destruct (decide (k ∈ Dict.keys (todo g))) as [?|Hn]; [done|].
    apply Dict_get_None in Hn. congruence. }
  assert (exists e g',
             collect_todo E fuel [] g = (inl e, g')
             /\ file g' = file g /\ (0 < fuel -> e <> OutOfFuel)) as (e & g' & Hrun & Hfile & He).
  { destruct fuel as [|fuel]; simpl; unfold bind at 1, gets at 1; rewrite filter_not_done.
    - destruct (Dict.keys (todo g)) as [|x l] eqn:Hkeys; [by apply elem_of_nil in Hin|].
      exists OutOfFuel, g. split; [done|]. split; [done|]. lia.
    - destruct (Dict.keys (todo g)) as [|x l] eqn:Hkeys; [by apply elem_of_nil in Hin|].
      destruct (round_fails E rule (x :: l) Hfails g Hin Hget) as (e & g' & Hrun & Hfile & He).
      exists e, g'. split; [by apply bind_inl|]. by split. }
  exists e, g'. split; [|by split].
  unfold generate, generate_rules. by do 2 apply bind_inl.
Qed.

End Steady.

Lemma fails_Rule_collect_todo (E : Env) (rule : Rule) (alt : Alt) (node : NamedItem) :
  alt ∈ rhs_alts (flatten E rule) -> node ∈ alt_items alt ->
  fails (visit E (ni_item node)) -> fails (Rule_collect_todo E rule).
Proof.
  intros Halt Hnode Hfails. unfold Rule_collect_todo.
  apply (fails_forM_ _ _ alt); [done|].
  apply (fails_forM_ _ _ node); [done|].
  by apply fails_bind_l.
Qed.

(** C8. Planning a string leaf, once unquoted to [val]: an identifier-like
    value plans to the variable [keyword] and a keyword matcher call that
    carries the literal; any other value found in the punctuation table
    plans to the variable [literal] and an expect-token call with the
    table's numeric code; any other value raises, and so does the emission
    of every rule that has the leaf as an item of an alternative.  Planning
    a leaf leaves the generator as it was.  And the generation stops: when
    a rule of the work-list, under a name that is not a helper's (it does
    not begin with an underscore), has a leaf of unknown punctuation as an
    item of an alternative, [generate] raises while it expands the
    work-list, before it has written anything. *)
Theorem string_leaf_plan (E : Env) (value val : string) (g : Gen) :
  literal_eval E value = Some val ->
  (identifier_like val ->
     visit E (StringLeaf value) g
     = (inr (Some "keyword", "keyword_token(p, " +:+ dq +:+ val +:+ dq +:+ ")"), g))
  /\ (~ identifier_like val -> forall type : Z,
      exact_token_types E !! val = Some type ->
      visit E (StringLeaf value) g
      = (inr (Some "literal", "expect_token(p, " +:+ str_Z type +:+ ")"), g))
  /\ (~ identifier_like val -> exact_token_types E !! val = None ->
      visit E (StringLeaf value) g
      = (inl (AssertionError (value +:+ " is not a known literal")), g)
      /\ (forall rules rule alt name,
           alt ∈ rhs_alts (flatten E rule) ->
           mkNamedItem name (StringLeaf value) ∈ alt_items alt ->
           fails (visit_Rule E rules rule))
      /\ forall rules fuel filename g0 rulename rule alt name,
           startswith "_" rulename = false ->
           Dict.get rulename (todo g0) = Some rule ->
           alt ∈ rhs_alts (flatten E rule) ->
           mkNamedItem name (StringLeaf value) ∈ alt_items alt ->
           exists e g',
             generate E rules fuel filename g0 = (inl e, g')
             /\ file g' = file g0
             /\ (0 < fuel -> e <> OutOfFuel)).
Proof.
  intros Hval.
  assert (~ identifier_like val -> is_identifier val = false) as Hnot.
  { intros Hid. destruct (is_identifier val) eqn:Hi; [|done].
    by apply is_identifier_spec in Hi. }
  split; [|split].
  - intros Hid%is_identifier_spec. simpl. unfold visit_StringLeaf.
    by rewrite Hval, Hid.
  - intros Hid%Hnot type Htab.
    simpl. unfold visit_StringLeaf. by rewrite Hval, Hid, Htab.
  - intros Hid%Hnot Htab.
    assert (fails (visit E (StringLeaf value))) as Hfails.
    { intros g1. eexists _, _. by apply (visit_StringLeaf_unknown E value val). }
    split; [|split].
    + by apply (visit_StringLeaf_unknown E value val).
    + intros rules rule alt name Halt Hin.
      by apply (fails_visit_Rule E rules rule alt (mkNamedItem name (StringLeaf value))).
    + intros rules fuel filename g0 rulename rule alt name Hname Hget Halt Hin.
      apply (generate_fails_in_expansion rulename Hname E rules rule); [|done].
      by apply (fails_Rule_collect_todo E rule alt (mkNamedItem name (StringLeaf value))).
Qed.

Lemma string_leaf_plan_witness :
  visit Sample.E (StringLeaf "'if'") (Sample.g0 [])
  = (inr (Some "keyword", "keyword_token(p, " +:+ dq +:+ "if" +:+ dq +:+ ")"), Sample.g0 [])
  /\ visit Sample.E (StringLeaf "'('") (Sample.g0 [])
     = (inr (Some "literal", "expect_token(p, " +:+ str_Z 7 +:+ ")"), Sample.g0 [])
  /\ visit Sample.E (StringLeaf "'@'") (Sample.g0 [])
     = (inl (AssertionError ("'@'" +:+ " is not a known literal")), Sample.g0 [])
  /\ visit Sample.E
       (StringLeaf ("'a" +:+ String (ascii_of_nat 233) "'")) (Sample.g0 [])
     = (inr (Some "keyword",
             "keyword_token(p, " +:+ dq +:+ "a" +:+ String (ascii_of_nat 233) "" +:+ dq
             +:+ ")"), Sample.g0 [])
  /\ exists e g',
       generate Sample.E
         [("start", new_Rule "start" None
                      (mkRhs (inl 1) [mkAlt [Sample.item (StringLeaf "'@'")] None]))]
         2 "g"
         (Sample.g0
            [("start", new_Rule "start" None
                         (mkRhs (inl 1) [mkAlt [Sample.item (StringLeaf "'@'")] None]))])
       = (inl e, g')
       /\ file g' = file (Sample.g0
            [("start", new_Rule "start" None
                         (mkRhs (inl 1) [mkAlt [Sample.item (StringLeaf "'@'")] None]))])
       /\ (0 < 2 -> e <> OutOfFuel).
Proof.
  split; [|split; [|split; [|split]]].
  - apply (string_leaf_plan Sample.E "'if'" "if" (Sample.g0 []) eq_refl).
    by apply is_identifier_spec.
  - apply (string_leaf_plan Sample.E "'('" "(" (Sample.g0 []) eq_refl).
    + by intros H%is_identifier_spec.
    + reflexivity.
  - apply (string_leaf_plan Sample.E "'@'" "@" (Sample.g0 []) eq_refl).
    + by intros H%is_identifier_spec.
    + reflexivity.
  - apply (string_leaf_plan Sample.E ("'a" +:+ String (ascii_of_nat 233) "'")
             ("a" +:+ String (ascii_of_nat 233) "") (Sample.g0 []) eq_refl).
    by apply is_identifier_spec.
  - destruct (string_leaf_plan Sample.E "'@'" "@" (Sample.g0 []) eq_refl)
      as (_ & _ & Hunknown).
    destruct Hunknown as (_ & _ & Hgen); [by intros H%is_identifier_spec|reflexivity|].
    apply (Hgen _ 2 "g" _ "start"
             (new_Rule "start" None
                (mkRhs (inl 1) [mkAlt [Sample.item (StringLeaf "'@'")] None]))
             (mkAlt [Sample.item (StringLeaf "'@'")] None) None);
      [reflexivity|reflexivity|by left|by left].
Defined.
